(** * A shallow embedding of the voice-note transcription utilities

    Two TypeScript modules are modelled:

    - [utils.ts]: the audio loaders [read_audio], [read_audio_from_blob]
      and the linear-interpolation resampler [resampleAudio];
    - the [WhisperTranscriber] service: lazy, single-flight model loading
      ([initialize], [_loadModel]), [transcribeFromUrl],
      [transcribeFromBlob], [isReady] and [dispose].

    JavaScript numbers are IEEE 754 binary64 values and the elements of a
    [Float32Array] are binary32 values.  Both are taken from the executable
    specification [SpecFloat] of the standard library (round to nearest,
    ties to even), so every definition below can be evaluated on concrete
    inputs. *)

From Stdlib Require Import ZArith QArith Qround Qabs Qpower Lia Lqa Bool List.
From Stdlib Require Import Floats.SpecFloat.
From stdpp Require Import base option list strings.

Local Open Scope Z_scope.

(** ** JavaScript numbers *)

Module JS.

(** A JS number is a binary64 float: 53 bits of precision, [emax = 1024]. *)
Abbreviation number := spec_float (only parsing).

Definition add : number -> number -> number := SFadd 53 1024.
Definition sub : number -> number -> number := SFsub 53 1024.
Definition mul : number -> number -> number := SFmul 53 1024.
Definition div : number -> number -> number := SFdiv 53 1024.

(** [a < b], [a === b] and [a !== b] on numbers. *)
Definition lt : number -> number -> bool := SFltb.
Definition strict_eq : number -> number -> bool := SFeqb.
Definition strict_ne (a b : number) : bool := negb (SFeqb a b).

(** An integer literal, an array length or a loop counter as a number. *)
Definition of_Z (z : Z) : number := binary_normalize 53 1024 z 0 false.

Definition NaN : number := S754_nan.

(** The integer [⌊n * 2^e⌋]. *)
Definition dyadic_floor (n e : Z) : Z :=
  if 0 <=? e then n * 2 ^ e else n / 2 ^ (- e).

(** The integer [⌊n * 2^e + 1/2⌋]: nearest integer, ties towards [+∞]. *)
Definition dyadic_round_half_up (n e : Z) : Z :=
  if 0 <=? e then n * 2 ^ e else (2 * n + 2 ^ (- e)) / 2 ^ (- e + 1).

(** The integer part of [n * 2^e], rounding towards zero. *)
Definition dyadic_trunc (n e : Z) : Z :=
  if 0 <=? e then n * 2 ^ e else Z.quot n (2 ^ (- e)).

(** The signed mantissa of a finite number. *)
Definition signed (s : bool) (m : positive) : Z := cond_Zopp s (Zpos m).

(** [Math.floor]. *)
Definition Math_floor (x : number) : number :=
  match x with
  | S754_finite s m e => of_Z (dyadic_floor (signed s m) e)
  | _ => x
  end.

(** [Math.round]: the integral number closest to [x], ties towards [+∞];
    a zero result keeps the sign of [x]. *)
Definition Math_round (x : number) : number :=
  match x with
  | S754_finite s m e =>
      let z := dyadic_round_half_up (signed s m) e in
      if z =? 0 then S754_zero s else of_Z z
  | _ => x
  end.

(** The integer a number denotes, when it denotes one. *)
Definition integer_value (x : number) : option Z :=
  match x with
  | S754_zero _ => Some 0
  | S754_finite s m e =>
      if 0 <=? e then Some (signed s m * 2 ^ e)
      else if Zpos m mod 2 ^ (- e) =? 0 then Some (signed s m / 2 ^ (- e))
      else None
  | _ => None
  end.

(** Thrown values.  [Error] is [new Error(message)], [RangeError] is
    raised by the typed-array constructor, and [External] stands for the
    reason with which a promise of an external library was rejected. *)
Inductive exn : Type :=
| Error (message : string)
| RangeError
| External (reason : string).

(** The completion of a call: a value, or a thrown exception. *)
Inductive completion (A : Type) : Type :=
| Normal (a : A)
| Throw (e : exn).
Arguments Normal {A} a.
Arguments Throw {A} e.

(** [ToIndex], applied by [new Float32Array(length)] to its argument. *)
Definition ToIndex (v : number) : completion Z :=
  match v with
  | S754_nan | S754_zero _ => Normal 0
  | S754_infinity _ => Throw RangeError
  | S754_finite s m e =>
      let z := dyadic_trunc (signed s m) e in
      if (0 <=? z) && (z <=? 2 ^ 53 - 1) then Normal z else Throw RangeError
  end.

End JS.

(** ** Float32Array *)

Module F32.

(** The elements are binary32 floats: 24 bits of precision, [emax = 128]. *)
Abbreviation f32 := spec_float (only parsing).

(** Storing a number converts it to the nearest binary32 value. *)
Definition of_number (x : JS.number) : f32 :=
  match x with
  | S754_finite s m e => binary_round 24 128 s m e
  | _ => x
  end.

(** Reading an element gives the number with the same value. *)
Definition to_number (y : f32) : JS.number :=
  match y with
  | S754_finite s m e => binary_round 53 1024 s m e
  | _ => y
  end.

Definition of_Z (z : Z) : f32 := binary_normalize 24 128 z 0 false.

Abbreviation Float32Array := (list spec_float) (only parsing).

(** [new Float32Array(length)]: [ToIndex] on the argument, then a buffer of
    [4 * length] zero bytes, whose size may not exceed [2^53 - 1]. *)
Definition new (length : JS.number) : JS.completion Float32Array :=
  match JS.ToIndex length with
  | JS.Normal n =>
      if 4 * n <=? 2 ^ 53 - 1
      then JS.Normal (replicate (Z.to_nat n) (S754_zero false))
      else JS.Throw JS.RangeError
  | JS.Throw e => JS.Throw e
  end.

(** [a[index]] for a number [index]: [undefined] ([None]) unless [index]
    is an integer within the bounds. *)
Definition get (a : Float32Array) (index : JS.number) : option JS.number :=
  match JS.integer_value index with
  | Some z => if z <? 0 then None else to_number <$> a !! Z.to_nat z
  | None => None
  end.

(** [a[i] = v] for a loop counter [i]; ignored when out of range. *)
Definition set (a : Float32Array) (i : nat) (v : JS.number) : Float32Array :=
  <[ i := of_number v ]> a.

(** [a.length] as a number. *)
Definition length (a : Float32Array) : JS.number :=
  JS.of_Z (Z.of_nat (List.length a)).

End F32.

(** [ToNumber] on the result of an element read: [undefined] becomes [NaN].
    Both uses of an element in the resampler (as a factor of a product, and
    as the value stored into another [Float32Array]) apply it. *)
Definition ToNumber (v : option JS.number) : JS.number :=
  match v with
  | Some x => x
  | None => JS.NaN
  end.

(** ** The resampler ([utils.ts], [resampleAudio]) *)

Section Resampler.

Import JS.

(** The value assigned to [result[i]] by one iteration of the loop. *)
Definition resample_at (audioData : F32.Float32Array) (ratio : number)
    (i : nat) : number :=
  let position := mul (of_Z (Z.of_nat i)) ratio in
  let index := Math_floor position in
  let fraction := sub position index in
  if lt (add index (of_Z 1)) (F32.length audioData)
  then add (mul (ToNumber (F32.get audioData index)) (sub (of_Z 1) fraction))
           (mul (ToNumber (F32.get audioData (add index (of_Z 1)))) fraction)
  else ToNumber (F32.get audioData index).

(** [for (let i = ...; i < newLength; i++) result[i] = ...], with [todo]
    iterations left.  The counter stays an integer below [2^53], so it
    is kept as a natural number and converted where it is used. *)
Fixpoint resample_loop (audioData : F32.Float32Array) (ratio : number)
    (todo i : nat) (result : F32.Float32Array) : F32.Float32Array :=
  match todo with
  | O => result
  | S todo' =>
      resample_loop audioData ratio todo' (S i)
        (F32.set result i (resample_at audioData ratio i))
  end.

Definition resampleAudio (audioData : F32.Float32Array)
    (inputRate outputRate : number) : completion F32.Float32Array :=
  if strict_eq inputRate outputRate then Normal audioData
  else
    let ratio := div inputRate outputRate in
    let newLength := Math_round (div (F32.length audioData) ratio) in
    match F32.new newLength with
    | Normal result =>
        Normal (resample_loop audioData ratio (List.length result) 0%nat result)
    | Throw e => Throw e
    end.

End Resampler.

(** ** The audio loaders ([utils.ts], [read_audio], [read_audio_from_blob]) *)

(** The decoded audio: [AudioBuffer.sampleRate] and the channel data. *)
Record AudioBuffer : Type := {
  sampleRate : JS.number;
  channelData : list F32.Float32Array
}.

(** Calls that leave the program, in the order they are made. *)
Inductive event : Type :=
| Ev_fetch (url : string)
| Ev_arrayBuffer
| Ev_decodeAudioData
| Ev_inference (audio : F32.Float32Array)
| Ev_console (message : string).

(** A computation that logs the calls it makes and completes normally or
    abruptly.  An awaited promise that is rejected throws at the [await];
    the sources have no [try], so the exception ends the function. *)
Definition io (A : Type) : Type := list event * JS.completion A.

#[export] Instance io_ret : MRet io := fun A a => ([], JS.Normal a).
#[export] Instance io_bind : MBind io := fun A B k c =>
  match c with
  | (t, JS.Normal a) => let '(t', r) := k a in (t ++ t', r)
  | (t, JS.Throw e) => (t, JS.Throw e)
  end.
Definition io_throw {A} (e : JS.exn) : io A := ([], JS.Throw e).
(** An external call, awaited at once. *)
Definition io_call {A} (ev : event) (r : JS.completion A) : io A := ([ev], r).
Definition io_lift {A} (r : JS.completion A) : io A := ([], r).
Definition console (message : string) : io unit :=
  ([Ev_console message], JS.Normal tt).

Section Loaders.

(** The platform: network, body extraction and the audio decoder. *)
Context {Response ArrayBuffer Blob : Type}.
Variable fetch : string -> JS.completion Response.
Variable Response_arrayBuffer : Response -> JS.completion ArrayBuffer.
Variable Blob_arrayBuffer : Blob -> JS.completion ArrayBuffer.
Variable decodeAudioData : ArrayBuffer -> JS.completion AudioBuffer.

(** [audioBuffer.getChannelData(channel)]. *)
Definition getChannelData (audioBuffer : AudioBuffer) (channel : nat)
    : JS.completion F32.Float32Array :=
  match channelData audioBuffer !! channel with
  | Some data => JS.Normal data
  | None => JS.Throw (JS.Error "IndexSizeError")
  end.

(** [new Float32Array(typedArray)]: a copy with the same elements. *)
Definition Float32Array_from (a : F32.Float32Array)
    : JS.completion F32.Float32Array := JS.Normal a.

Definition read_audio (url : string) (sampling_rate : JS.number)
    : io F32.Float32Array :=
  response ← io_call (Ev_fetch url) (fetch url);
  arrayBuffer ← io_call Ev_arrayBuffer (Response_arrayBuffer response);
  audioBuffer ← io_call Ev_decodeAudioData (decodeAudioData arrayBuffer);
  channelData ← io_lift (getChannelData audioBuffer 0);
  if JS.strict_ne (sampleRate audioBuffer) sampling_rate
  then io_lift (resampleAudio channelData (sampleRate audioBuffer) sampling_rate)
  else io_lift (Float32Array_from channelData).

Definition read_audio_from_blob (blob : Blob) (sampling_rate : JS.number)
    : io F32.Float32Array :=
  arrayBuffer ← io_call Ev_arrayBuffer (Blob_arrayBuffer blob);
  audioBuffer ← io_call Ev_decodeAudioData (decodeAudioData arrayBuffer);
  channelData ← io_lift (getChannelData audioBuffer 0);
  if JS.strict_ne (sampleRate audioBuffer) sampling_rate
  then io_lift (resampleAudio channelData (sampleRate audioBuffer) sampling_rate)
  else io_lift (Float32Array_from channelData).

End Loaders.

(** ** The transcription service ([WhisperTranscriber]) *)

(** The loaded pipeline: an object of the inference library.  [handle]
    tells two loaded objects apart; [sampling_rate] is
    [processor.feature_extractor.config.sampling_rate]. *)
Record Pipeline : Type := {
  handle : nat;
  sampling_rate : JS.number
}.

(** Promises are named by the order of their creation. *)
Abbreviation promise := nat (only parsing).

(** The fields of the service object. *)
Record WhisperTranscriber : Type := {
  transcriber : option Pipeline;
  isLoading : bool;
  loadingPromise : option promise
}.

(** [new WhisperTranscriber()]. *)
Definition new_WhisperTranscriber : WhisperTranscriber :=
  {| transcriber := None; isLoading := false; loadingPromise := None |}.

Definition NotInitialized : JS.exn :=
  JS.Error "Transcriber not initialized. Call initialize() first.".

Section Transcribe.

Context {Response ArrayBuffer Blob : Type}.
Variable fetch : string -> JS.completion Response.
Variable Response_arrayBuffer : Response -> JS.completion ArrayBuffer.
Variable Blob_arrayBuffer : Blob -> JS.completion ArrayBuffer.
Variable decodeAudioData : ArrayBuffer -> JS.completion AudioBuffer.
(** [this.transcriber(audio)], and the [text] of its output. *)
Variable run_pipeline : Pipeline -> F32.Float32Array -> JS.completion string.

(** The two transcribe methods read [this.transcriber] and do not write
    any field; they are given the service object as it is when they are
    called. *)
Definition transcribeFromUrl (this : WhisperTranscriber) (audioUrl : string)
    : io string :=
  match transcriber this with
  | None => io_throw NotInitialized
  | Some pipe =>
      console "time: Transcription time";;
      audio ← read_audio fetch Response_arrayBuffer decodeAudioData
                 audioUrl (sampling_rate pipe);
      text ← io_call (Ev_inference audio) (run_pipeline pipe audio);
      console "timeEnd: Transcription time";;
      mret text
  end.

Definition transcribeFromBlob (this : WhisperTranscriber) (audioBlob : Blob)
    : io string :=
  match transcriber this with
  | None => io_throw NotInitialized
  | Some pipe =>
      console "time: Transcription time";;
      audio ← read_audio_from_blob Blob_arrayBuffer decodeAudioData
                 audioBlob (sampling_rate pipe);
      text ← io_call (Ev_inference audio) (run_pipeline pipe audio);
      console "timeEnd: Transcription time";;
      mret text
  end.

End Transcribe.

(** [isReady()]. *)
Definition isReady (this : WhisperTranscriber) : bool :=
  match transcriber this with
  | Some _ => true
  | None => false
  end.

(** *** Loading: [initialize], [_loadModel] and [dispose] on the event loop

    These methods share the fields of the service object across calls that
    are in flight together, so they are run on a model of the job queue:
    an async call runs up to its first [await], where its continuation is
    parked on the awaited promise; settling a promise queues the parked
    continuations as jobs, which run one at a time. *)

(** The state of a [Promise<void>]. *)
Inductive promise_state : Type :=
| Pending
| Fulfilled
| Rejected (reason : JS.exn).

(** The rest of [initialize] after an [await]; [self] is the promise the
    call returned to its caller. *)
Inductive continuation : Type :=
| After_wait (self : promise)    (* after [await this.loadingPromise] in the [isLoading] branch *)
| After_load (self : promise).   (* after [await this.loadingPromise] that follows [_loadModel] *)

(** A job of the queue: a continuation with the outcome of its [await]. *)
Inductive job : Type :=
| Resume_loadModel (self : promise) (outcome : JS.completion Pipeline)
| Resume_initialize (k : continuation) (outcome : JS.completion unit).

(** A call of [pipeline("automatic-speech-recognition", modelName, ...)]
    made by the [_loadModel] call whose promise is [waiter]. *)
Record load : Type := {
  load_model : string;
  load_waiter : promise;
  load_settled : bool
}.

Record World : Type := {
  this : WhisperTranscriber;
  promises : list promise_state;
  parked : list (promise * continuation);
  loads : list load;
  jobs : list job;
  log : list string
}.

(** The module as loaded: the exported singleton, nothing in flight. *)
Definition initial_world : World :=
  {| this := new_WhisperTranscriber; promises := []; parked := [];
     loads := []; jobs := []; log := [] |}.

Definition set_this (f : WhisperTranscriber -> WhisperTranscriber) (w : World) : World :=
  {| this := f (this w); promises := promises w; parked := parked w;
     loads := loads w; jobs := jobs w; log := log w |}.

Definition set_transcriber (v : option Pipeline) (t : WhisperTranscriber) :=
  {| transcriber := v; isLoading := isLoading t; loadingPromise := loadingPromise t |}.
Definition set_isLoading (v : bool) (t : WhisperTranscriber) :=
  {| transcriber := transcriber t; isLoading := v; loadingPromise := loadingPromise t |}.
Definition set_loadingPromise (v : option promise) (t : WhisperTranscriber) :=
  {| transcriber := transcriber t; isLoading := isLoading t; loadingPromise := v |}.

Definition console_log (message : string) (w : World) : World :=
  {| this := this w; promises := promises w; parked := parked w;
     loads := loads w; jobs := jobs w; log := log w ++ [message] |}.

(** The promise an async call creates for its caller. *)
Definition new_promise (w : World) : promise * World :=
  (length (promises w),
   {| this := this w; promises := promises w ++ [Pending]; parked := parked w;
      loads := loads w; jobs := jobs w; log := log w |}).

Definition outcome_of (st : promise_state) : JS.completion unit :=
  match st with
  | Rejected e => JS.Throw e
  | _ => JS.Normal tt
  end.

Definition parked_on (p : promise) (entry : promise * continuation) : bool :=
  Nat.eqb (fst entry) p.

(** Settles promise [p]; the continuations parked on it become jobs, in the
    order in which they were parked. *)
Definition settle (p : promise) (st : promise_state) (w : World) : World :=
  {| this := this w;
     promises := <[ p := st ]> (promises w);
     parked := List.filter (fun entry => negb (parked_on p entry)) (parked w);
     loads := loads w;
     jobs := jobs w ++
       map (fun entry => Resume_initialize (snd entry) (outcome_of st))
           (List.filter (parked_on p) (parked w));
     log := log w |}.

(** Queues [k] as a job, to be resumed with the outcome [st]. *)
Definition enqueue (k : continuation) (st : promise_state) (w : World) : World :=
  {| this := this w; promises := promises w; parked := parked w;
     loads := loads w;
     jobs := jobs w ++ [Resume_initialize k (outcome_of st)];
     log := log w |}.

(** Parks [k] on the pending promise [p]. *)
Definition park (p : promise) (k : continuation) (w : World) : World :=
  {| this := this w; promises := promises w;
     parked := parked w ++ [(p, k)];
     loads := loads w; jobs := jobs w; log := log w |}.

(** [await p] with continuation [k].  [None] is [await null], which
    resumes with [null] after the current job. *)
Definition await (p : option promise) (k : continuation) (w : World) : World :=
  match p with
  | None => enqueue k Fulfilled w
  | Some q =>
      match promises w !! q with
      | Some Pending => park q k w
      | Some st => enqueue k st w
      | None => enqueue k Fulfilled w
      end
  end.

(** [_loadModel(modelName)] up to [await pipeline(...)]. *)
Definition _loadModel (modelName : string) (w : World) : promise * World :=
  let '(self, w) := new_promise w in
  let w := console_log ("Loading Whisper model: " +:+ modelName) w in
  (self,
   {| this := this w; promises := promises w; parked := parked w;
      loads := loads w ++
        [{| load_model := modelName; load_waiter := self; load_settled := false |}];
      jobs := jobs w; log := log w |}).

(** [initialize(modelName)] up to its first [await], or to its [return]. *)
Definition initialize (modelName : string) (w : World) : promise * World :=
  let '(self, w) := new_promise w in
  match transcriber (this w) with
  | Some _ => (self, settle self Fulfilled w)
  | None =>
      if isLoading (this w)
      then (self, await (loadingPromise (this w)) (After_wait self) w)
      else
        let w := set_this (set_isLoading true) w in
        let '(loading, w) := _loadModel modelName w in
        let w := set_this (set_loadingPromise (Some loading)) w in
        (self, await (loadingPromise (this w)) (After_load self) w)
  end.

(** The default argument of [initialize]. *)
Definition default_model : string := "onnx-community/whisper-tiny.en".

(** [dispose()]: no [await]; the promise it returns is already fulfilled. *)
Definition dispose (w : World) : promise * World :=
  let '(self, w) := new_promise w in
  match transcriber (this w) with
  | Some _ =>
      let w := set_this (set_transcriber None) w in
      let w := console_log "Whisper model disposed" w in
      (self, settle self Fulfilled w)
  | None => (self, settle self Fulfilled w)
  end.

(** Running one job. *)
Definition run_job (j : job) (w : World) : World :=
  match j with
  | Resume_loadModel self (JS.Normal pipe) =>
      let w := set_this (set_transcriber (Some pipe)) w in
      let w := console_log "Whisper model loaded successfully" w in
      settle self Fulfilled w
  | Resume_loadModel self (JS.Throw e) => settle self (Rejected e) w
  | Resume_initialize (After_load self) (JS.Normal _) =>
      let w := set_this (set_isLoading false) w in
      settle self Fulfilled w
  | Resume_initialize (After_load self) (JS.Throw e) => settle self (Rejected e) w
  | Resume_initialize (After_wait self) (JS.Normal _) => settle self Fulfilled w
  | Resume_initialize (After_wait self) (JS.Throw e) => settle self (Rejected e) w
  end.

(** What can happen next: a caller invokes a method, the inference library
    settles the promise of the [n]-th [pipeline] call, or the oldest job
    runs. *)
Inductive action : Type :=
| Call_initialize (modelName : string)
| Call_dispose
| Pipeline_settles (n : nat) (outcome : JS.completion Pipeline)
| Run_job.

Definition pipeline_settles (n : nat) (outcome : JS.completion Pipeline)
    (w : World) : World :=
  match loads w !! n with
  | Some l =>
      if load_settled l then w
      else
        {| this := this w; promises := promises w; parked := parked w;
           loads := <[ n := {| load_model := load_model l;
                               load_waiter := load_waiter l;
                               load_settled := true |} ]> (loads w);
           jobs := jobs w ++ [Resume_loadModel (load_waiter l) outcome];
           log := log w |}
  | None => w
  end.

Definition next_job (w : World) : World :=
  match jobs w with
  | [] => w
  | j :: rest =>
      run_job j
        {| this := this w; promises := promises w; parked := parked w;
           loads := loads w; jobs := rest; log := log w |}
  end.

Definition step (a : action) (w : World) : World :=
  match a with
  | Call_initialize modelName => snd (initialize modelName w)
  | Call_dispose => snd (dispose w)
  | Pipeline_settles n outcome => pipeline_settles n outcome w
  | Run_job => next_job w
  end.

Definition run (schedule : list action) (w : World) : World :=
  fold_left (fun w a => step a w) schedule w.

(** Runs jobs until the queue is empty, at most [fuel] of them. *)
Fixpoint drain (fuel : nat) (w : World) : World :=
  match fuel with
  | O => w
  | S fuel' =>
      match jobs w with
      | [] => w
      | _ => drain fuel' (next_job w)
      end
  end.

(** * Definitions used by the statements and the proofs *)

(** ** The values of floats and their rounding *)

(** The integer nearest to [y], ties to the even one. *)
Definition RNE (y : Q) : Z :=
  let n := Qfloor y in
  match Qcompare (y - inject_Z n) (1 # 2) with
  | Lt => n
  | Eq => if Z.even n then n else n + 1
  | Gt => n + 1
  end.

(** [z] is nearest to [y], and even when [y] is half-way. *)
Definition nearest_even (y : Q) (z : Z) : Prop :=
  (inject_Z z - (1 # 2) < y /\ y < inject_Z z + (1 # 2))%Q \/
  ((y == inject_Z z - (1 # 2) \/ y == inject_Z z + (1 # 2))%Q /\ Z.even z = true).

(** The power [2^e] as a rational, for any integer exponent. *)
Definition pow2 (e : Z) : Q := Qpower 2 e.

(** Where the rational [Y] lies with respect to the integer [m] and the
    location [l]. *)
Definition loc_ok (m : Z) (l : location) (Y : Q) : Prop :=
  match l with
  | loc_Exact => (Y == inject_Z m)%Q
  | loc_Inexact Lt => (inject_Z m < Y /\ Y < inject_Z m + (1 # 2))%Q
  | loc_Inexact Eq => (Y == inject_Z m + (1 # 2))%Q
  | loc_Inexact Gt => (inject_Z m + (1 # 2) < Y /\ Y < inject_Z m + 1)%Q
  end.

(** The value of a finite float. *)
Definition F2Q (s : bool) (m : positive) (e : Z) : Q :=
  (inject_Z (cond_Zopp s (Zpos m)) * pow2 e)%Q.

(** The value of a float; the special values count as zero. *)
Definition B2Q (x : spec_float) : Q :=
  match x with
  | S754_finite s m e => F2Q s m e
  | _ => 0%Q
  end.

(** A zero or a finite float in canonical form. *)
Definition finite_valid (prec emax : Z) (x : spec_float) : Prop :=
  match x with
  | S754_zero _ => True
  | S754_finite _ m e => bounded prec emax m e = true
  | _ => False
  end.

(** [E] is the exponent the format gives to the floats around [X]: the
    binade of [X] after the [prec] leading bits, or [emin] below. *)
Definition cexp_ok (prec emax E : Z) (X : Q) : Prop :=
  emin prec emax <= E /\
  (Qabs X < pow2 (E + prec))%Q /\
  (E = emin prec emax \/ (pow2 (E + prec - 1) <= Qabs X)%Q).

(** [X] rounded to the nearest multiple of [2^E], ties to even. *)
Definition round_to (E : Z) (X : Q) : Q :=
  (inject_Z (RNE (X * pow2 (- E))) * pow2 E)%Q.

(** [r] is the float to which the rational [X] rounds. *)
Definition rounded (prec emax : Z) (X : Q) (r : spec_float) : Prop :=
  finite_valid prec emax r /\
  exists E, cexp_ok prec emax E X /\ (B2Q r == round_to E X)%Q.

(** [X] is too large for the format: it rounds beyond the largest float,
    and the operation returns an infinity. *)
Definition overflow (prec emax : Z) (X : Q) (r : spec_float) : Prop :=
  (exists s, r = S754_infinity s) /\
  exists E, cexp_ok prec emax E X /\ (pow2 emax <= Qabs (round_to E X))%Q.

(** The result [r] of an operation whose exact result is [X]. *)
Definition rounds (prec emax : Z) (X : Q) (r : spec_float) : Prop :=
  rounded prec emax X r \/ overflow prec emax X r.

(** The last step of [binary_round_aux]: the rounded mantissa is brought
    back into the format (a carry makes it one digit too long), and the
    result is classified. *)
Definition renormalize (prec emax : Z) (sx : bool) (m2 e : Z) : spec_float :=
  let '(mrs'', e'') := shr_fexp prec emax m2 e loc_Exact in
  match shr_m mrs'' with
  | Z0 => S754_zero sx
  | Zpos m => if e'' <=? emax - prec then S754_finite sx m e'' else S754_infinity sx
  | _ => S754_nan
  end.

(** The sign bit as a factor. *)
Definition sign_of (s : bool) : Q := if s then (- 1)%Q else 1%Q.

(** The two formats: binary64 for numbers, binary32 for samples. *)
Abbreviation valid64 := (finite_valid 53 1024).
Abbreviation valid32 := (finite_valid 24 128).
Abbreviation rounded64 := (rounded 53 1024).
Abbreviation rounded32 := (rounded 24 128).
Abbreviation rounds64 := (rounds 53 1024).
Abbreviation rounds32 := (rounds 24 128).

(** A well-formed number: any float in canonical form, infinities and NaN
    included. *)
Definition well_formed (x : spec_float) : Prop := valid_binary 53 1024 x = true.

(** Zeros and finite floats. *)
Definition is_finite (x : spec_float) : bool :=
  match x with
  | S754_zero _ | S754_finite _ _ _ => true
  | _ => false
  end.

(** A finite sample: a zero or a finite binary32 float in canonical form. *)
Definition is_sample (a : spec_float) : bool :=
  match a with
  | S754_zero _ => true
  | S754_finite _ m e => bounded 24 128 m e
  | _ => false
  end.

(** ** The length of the result, on exact numbers *)

(** The nearest integer, ties upwards. *)
Definition spec_round_half_up (q : Q) : Z := Qfloor (q + (1 # 2))%Q.

(** [round(len * r_out / r_in)] on rationals. *)
Definition spec_length (len : nat) (r_in r_out : Z) : Z :=
  spec_round_half_up
    (inject_Z (Z.of_nat len) * inject_Z r_out / inject_Z r_in)%Q.

(** ** Concurrent calls of [initialize] *)

(** The calls of a list of callers, one after the other, with the promises
    they are handed. *)
Fixpoint initialize_all (modelNames : list string) (w : World)
    : list promise * World :=
  match modelNames with
  | [] => ([], w)
  | modelName :: rest =>
      let '(self, w) := initialize modelName w in
      let '(others, w) := initialize_all rest w in
      (self :: others, w)
  end.

(** The service is loading: the flag is set and the stored promise is pending. *)
Definition loading (lp : promise) (w : World) : Prop :=
  transcriber (this w) = None /\ isLoading (this w) = true /\
  loadingPromise (this w) = Some lp /\ promises w !! lp = Some Pending.

(** Jobs of callers that waited for the load. *)
Definition waiter_jobs (callers : list nat) : list job :=
  map (fun q => Resume_initialize (After_wait q) (JS.Normal tt)) callers.

(** The jobs that resume a call of [initialize]. *)
Definition resumes_initialize (j : job) : Prop :=
  match j with
  | Resume_initialize _ _ => True
  | Resume_loadModel _ _ => False
  end.

(** ** Loads in flight *)

(** The [pipeline] calls whose promise is not settled yet. *)
Definition unsettled (ls : list load) : list load :=
  List.filter (fun l => negb (load_settled l)) ls.

Definition in_flight (w : World) : list load := unsettled (loads w).

Definition self_of (k : continuation) : promise :=
  match k with
  | After_wait self => self
  | After_load self => self
  end.

Definition resumes_load (j : job) : bool :=
  match j with
  | Resume_loadModel _ _ => true
  | Resume_initialize _ _ => false
  end.

Definition resumes_after_load (j : job) : bool :=
  match j with
  | Resume_initialize (After_load _) _ => true
  | _ => false
  end.

Definition parked_after_load (entry : promise * continuation) : bool :=
  match snd entry with
  | After_load _ => true
  | After_wait _ => false
  end.

(** A job belongs to a call whose own promise exists and is not the stored
    one; the continuation of [_loadModel] settles the stored promise. *)
Definition job_ok (n : nat) (lp : option promise) (j : job) : Prop :=
  match j with
  | Resume_initialize k _ => (self_of k < n)%nat /\ Some (self_of k) <> lp
  | Resume_loadModel q _ => Some q = lp
  end.

(** A parked call waits for the stored promise. *)
Definition entry_ok (n : nat) (lp : option promise) (entry : promise * continuation) : Prop :=
  (self_of (snd entry) < n)%nat /\ Some (self_of (snd entry)) <> lp /\
  Some (fst entry) = lp.

(** Where the service is in the course of a load, in terms of the fields,
    the promises, the parked calls, the [pipeline] calls and the queue. *)
Inductive phase (isL : bool) (lp : option promise) (ps : list promise_state)
    (pk : list (promise * continuation)) (ls : list load) (js : list job) : Prop :=
| Idle :
    isL = false -> pk = [] -> unsettled ls = [] ->
    List.filter resumes_load js = [] ->
    List.filter resumes_after_load js = [] ->
    phase isL lp ps pk ls js
| Loading (q : promise) :
    isL = true -> lp = Some q -> ps !! q = Some Pending ->
    (length (List.filter parked_after_load pk) <= 1)%nat ->
    List.filter resumes_after_load js = [] ->
    (length (unsettled ls) + length (List.filter resumes_load js) <= 1)%nat ->
    Forall (fun l => load_settled l = false -> load_waiter l = q) ls ->
    phase isL lp ps pk ls js
| Settled (q : promise) :
    isL = true -> lp = Some q -> ps !! q <> Some Pending ->
    pk = [] -> unsettled ls = [] ->
    List.filter resumes_load js = [] ->
    (length (List.filter resumes_after_load js) <= 1)%nat ->
    phase isL lp ps pk ls js.

Definition consistent_of (isL : bool) (lp : option promise) (ps : list promise_state)
    (pk : list (promise * continuation)) (ls : list load) (js : list job) : Prop :=
  Forall (job_ok (length ps) lp) js /\
  Forall (entry_ok (length ps) lp) pk /\
  (forall q, lp = Some q -> (q < length ps)%nat) /\
  phase isL lp ps pk ls js.

Definition consistent (w : World) : Prop :=
  consistent_of (isLoading (this w)) (loadingPromise (this w)) (promises w)
    (parked w) (loads w) (jobs w).

Definition calls_dispose (a : action) : bool :=
  match a with
  | Call_dispose => true
  | _ => false
  end.

(** While a model is held no load is in flight and none is about to be
    resumed. *)
Definition quiet (w : World) : Prop :=
  in_flight w = [] /\ List.filter resumes_load (jobs w) = [].

(** ** After a load that failed *)

(** The service after a load was rejected with [e] and the first caller
    was resumed: the flag is set, the stored promise is rejected, nothing
    is parked, and the queue holds only callers that met the rejected
    promise. *)
Definition load_failed (e : JS.exn) (w : World) : Prop :=
  transcriber (this w) = None /\ isLoading (this w) = true /\
  (exists lp, loadingPromise (this w) = Some lp /\
              promises w !! lp = Some (Rejected e)) /\
  Forall (fun l => load_settled l = true) (loads w) /\
  parked w = [] /\
  exists callers,
    jobs w = map (fun q => Resume_initialize (After_wait q) (JS.Throw e)) callers.

(** ** The trace of a transcription *)

Definition is_console (ev : event) : bool :=
  match ev with
  | Ev_console _ => true
  | _ => false
  end.

Definition is_inference (ev : event) : bool :=
  match ev with
  | Ev_inference _ => true
  | _ => false
  end.

(** The body of both transcribe methods once a model is held; [loaded] is
    the call of the loader. *)
Definition transcription (run_pipeline : Pipeline -> F32.Float32Array -> JS.completion string)
    (pipe : Pipeline) (loaded : io F32.Float32Array) : io string :=
  console "time: Transcription time";;
  audio ← loaded;
  text ← io_call (Ev_inference audio) (run_pipeline pipe audio);
  console "timeEnd: Transcription time";;
  mret text.

(** * Rounding to the nearest integer *)

Lemma Qfloor_unique (y : Q) (n : Z) :
  (inject_Z n <= y)%Q -> (y < inject_Z n + 1)%Q -> Qfloor y = n.
Proof.
  intros Hlo Hhi.
  pose proof (Qfloor_le y) as H1. pose proof (Qlt_floor y) as H2.
  rewrite inject_Z_plus in H2. change (inject_Z 1) with 1%Q in H2.
  assert (inject_Z n < inject_Z (Qfloor y) + 1)%Q by lra.
  assert (inject_Z (Qfloor y) < inject_Z n + 1)%Q by lra.
  change 1%Q with (inject_Z 1) in *. rewrite <- inject_Z_plus in *.
  rewrite <- Zlt_Qlt in *. lia.
Qed.

Lemma RNE_spec y : nearest_even y (RNE y).
Proof.
  unfold RNE, nearest_even.
  pose proof (Qfloor_le y) as H1. pose proof (Qlt_floor y) as H2.
  rewrite inject_Z_plus in H2. change (inject_Z 1) with 1%Q in H2.
  set (n := Qfloor y) in *.
  destruct (Qcompare (y - inject_Z n) (1 # 2)) eqn:E.
  - apply Qeq_alt in E. destruct (Z.even n) eqn:Ev.
    + right. split; [right; lra | exact Ev].
    + right. rewrite inject_Z_plus. change (inject_Z 1) with 1%Q.
      split; [left; lra|].
      rewrite Z.even_add, Ev. reflexivity.
  - apply Qlt_alt in E. left. lra.
  - apply Qgt_alt in E. left. rewrite inject_Z_plus. change (inject_Z 1) with 1%Q. lra.
Qed.

Lemma nearest_even_unique y z z' : nearest_even y z -> nearest_even y z' -> z = z'.
Proof.
  unfold nearest_even. intros H H'.
  assert (Hd : z = z' \/ z = z' + 1 \/ z' = z + 1 \/ z + 2 <= z' \/ z' + 2 <= z) by lia.
  destruct Hd as [Hd|[Hd|[Hd|[Hd|Hd]]]]; [exact Hd| | | |].
  - exfalso. subst z. rewrite inject_Z_plus in H. change (inject_Z 1) with 1%Q in H.
    destruct H as [H|[H Ev]], H' as [H'|[H' Ev']]; try lra.
    rewrite Z.even_add, Ev' in Ev. discriminate.
  - exfalso. subst z'. rewrite inject_Z_plus in H'. change (inject_Z 1) with 1%Q in H'.
    destruct H as [H|[H Ev]], H' as [H'|[H' Ev']]; try lra.
    rewrite Z.even_add, Ev in Ev'. discriminate.
  - exfalso. assert (inject_Z z + 2 <= inject_Z z')%Q.
    { change 2%Q with (inject_Z 2). rewrite <- inject_Z_plus, <- Zle_Qle. exact Hd. }
    destruct H as [H|[H Ev]], H' as [H'|[H' Ev']]; lra.
  - exfalso. assert (inject_Z z' + 2 <= inject_Z z)%Q.
    { change 2%Q with (inject_Z 2). rewrite <- inject_Z_plus, <- Zle_Qle. exact Hd. }
    destruct H as [H|[H Ev]], H' as [H'|[H' Ev']]; lra.
Qed.

Lemma RNE_unique y z : nearest_even y z -> RNE y = z.
Proof. intros H. eapply nearest_even_unique; [apply RNE_spec | exact H]. Qed.

Lemma nearest_even_ext y y' z : (y == y')%Q -> nearest_even y z -> nearest_even y' z.
Proof. unfold nearest_even. intros E H. rewrite <- E. exact H. Qed.

Lemma RNE_ext y y' : (y == y')%Q -> RNE y = RNE y'.
Proof.
  intros E. apply RNE_unique. apply nearest_even_ext with y'; [symmetry; exact E|].
  apply RNE_spec.
Qed.

#[export] Instance RNE_proper : Proper (Qeq ==> eq) RNE.
Proof. intros y y' E. apply RNE_ext. exact E. Qed.

Lemma RNE_error y : (inject_Z (RNE y) - (1 # 2) <= y /\ y <= inject_Z (RNE y) + (1 # 2))%Q.
Proof. destruct (RNE_spec y) as [H|[[H|H] _]]; lra. Qed.

Lemma RNE_Z (n : Z) : RNE (inject_Z n) = n.
Proof. apply RNE_unique. left. lra. Qed.

Lemma RNE_opp y : RNE (- y) = - RNE y.
Proof.
  apply RNE_unique. destruct (RNE_spec y) as [H|[H Ev]].
  - left. rewrite inject_Z_opp. lra.
  - right. rewrite inject_Z_opp. split; [destruct H; [right|left]; lra|].
    rewrite Z.even_opp. exact Ev.
Qed.

Lemma RNE_mono y y' : (y <= y')%Q -> RNE y <= RNE y'.
Proof.
  intros Hle.
  destruct (Z_le_gt_dec (RNE y) (RNE y')) as [|Hgt]; [assumption|exfalso].
  assert (Hz : (inject_Z (RNE y') + 1 <= inject_Z (RNE y))%Q).
  { change 1%Q with (inject_Z 1). rewrite <- inject_Z_plus, <- Zle_Qle. lia. }
  pose proof (RNE_error y) as He. pose proof (RNE_error y') as He'.
  assert (Hyy : (y == y')%Q) by lra.
  apply RNE_ext in Hyy. lia.
Qed.

Lemma RNE_nonneg y : (0 <= y)%Q -> 0 <= RNE y.
Proof. intros H. rewrite <- (RNE_Z 0). apply RNE_mono. exact H. Qed.

(** Rounding does not cross an integer. *)
Lemma RNE_le_Z y (n : Z) : (y <= inject_Z n)%Q -> RNE y <= n.
Proof. intros H. rewrite <- (RNE_Z n). apply RNE_mono. exact H. Qed.

Lemma RNE_ge_Z y (n : Z) : (inject_Z n <= y)%Q -> n <= RNE y.
Proof. intros H. rewrite <- (RNE_Z n). apply RNE_mono. exact H. Qed.

(** * The rounding of [SpecFloat], on rationals *)

Lemma pow2_pos e : (0 < pow2 e)%Q.
Proof. apply Qpower_0_lt. reflexivity. Qed.

Lemma pow2_add a b : (pow2 (a + b) == pow2 a * pow2 b)%Q.
Proof. apply Qpower_plus. discriminate. Qed.

Lemma pow2_0 : (pow2 0 == 1)%Q.
Proof. reflexivity. Qed.

Lemma pow2_1 : (pow2 1 == 2)%Q.
Proof. reflexivity. Qed.

Lemma pow2_succ e : (pow2 (e + 1) == 2 * pow2 e)%Q.
Proof. rewrite pow2_add, pow2_1. ring. Qed.

Lemma pow2_pred e : (pow2 (e - 1) == pow2 e / 2)%Q.
Proof.
  replace e with ((e - 1) + 1) at 2 by ring. rewrite pow2_succ. field.
Qed.

Lemma pow2_opp e : (pow2 (- e) == / pow2 e)%Q.
Proof. apply Qpower_opp. Qed.

Lemma pow2_inject k : 0 <= k -> (inject_Z (2 ^ k) == pow2 k)%Q.
Proof. intros H. unfold pow2. rewrite Zpower_Qpower by assumption. reflexivity. Qed.

Lemma pow2_le a b : a <= b -> (pow2 a <= pow2 b)%Q.
Proof.
  intros H. replace b with (a + (b - a)) by ring. rewrite pow2_add.
  assert (1 <= pow2 (b - a))%Q.
  { rewrite <- pow2_inject by lia. change 1%Q with (inject_Z 1).
    rewrite <- Zle_Qle. assert (0 < 2 ^ (b - a)) by (apply Z.pow_pos_nonneg; lia). lia. }
  pose proof (pow2_pos a). nra.
Qed.

Lemma pow2_lt a b : a < b -> (pow2 a < pow2 b)%Q.
Proof.
  intros H. apply Qlt_le_trans with (pow2 (a + 1)); [|apply pow2_le; lia].
  rewrite pow2_succ. pose proof (pow2_pos a). lra.
Qed.

Lemma pow2_lt_inv a b : (pow2 a < pow2 b)%Q -> a < b.
Proof.
  intros H. destruct (Z_lt_le_dec a b) as [|Hle]; [assumption|].
  apply pow2_le in Hle. lra.
Qed.

(** *** Number of binary digits *)

Lemma digits2_pos_bounds (m : positive) :
  2 ^ (Zpos (digits2_pos m) - 1) <= Zpos m < 2 ^ Zpos (digits2_pos m).
Proof.
  induction m as [m IH|m IH|]; cbn [digits2_pos].
  - rewrite Pos2Z.inj_succ.
    replace (Z.succ (Zpos (digits2_pos m)) - 1) with (Z.succ (Zpos (digits2_pos m) - 1)) by lia.
    rewrite !Z.pow_succ_r by lia. lia.
  - rewrite Pos2Z.inj_succ.
    replace (Z.succ (Zpos (digits2_pos m)) - 1) with (Z.succ (Zpos (digits2_pos m) - 1)) by lia.
    rewrite !Z.pow_succ_r by lia. lia.
  - cbn. lia.
Qed.

(** The number of digits is determined by the binade. *)
Lemma digits2_pos_unique (m : positive) (d : Z) :
  2 ^ (d - 1) <= Zpos m < 2 ^ d -> Zpos (digits2_pos m) = d.
Proof.
  intros [Hlo Hhi]. pose proof (digits2_pos_bounds m) as [Hlo' Hhi'].
  assert (0 < d).
  { destruct (Z_lt_le_dec 0 d); [assumption|].
    destruct (Z.eq_dec d 0) as [->|]; [cbn in Hhi; lia|].
    rewrite Z.pow_neg_r in Hhi by lia. lia. }
  destruct (Z_lt_le_dec (Zpos (digits2_pos m)) d) as [Hlt|Hge].
  - assert (2 ^ Zpos (digits2_pos m) <= 2 ^ (d - 1)) by (apply Z.pow_le_mono_r; lia). lia.
  - destruct (Z_lt_le_dec d (Zpos (digits2_pos m))) as [Hlt|Hle]; [|lia].
    assert (2 ^ d <= 2 ^ (Zpos (digits2_pos m) - 1)) by (apply Z.pow_le_mono_r; lia). lia.
Qed.

(** *** Shifting a mantissa to the right *)

Lemma loc_ok_ext m l Y Y' : (Y == Y')%Q -> loc_ok m l Y -> loc_ok m l Y'.
Proof. intros E. destruct l as [|[]]; cbn; rewrite E; trivial. Qed.

Lemma loc_ok_bounds m l Y : loc_ok m l Y -> (inject_Z m <= Y /\ Y < inject_Z m + 1)%Q.
Proof. destruct l as [|[]]; cbn; lra. Qed.

Lemma inject_Z_xO p : (inject_Z (Zpos p~0) == 2 * inject_Z (Zpos p))%Q.
Proof. rewrite Pos2Z.inj_xO, inject_Z_mult. reflexivity. Qed.

Lemma inject_Z_xI p : (inject_Z (Zpos p~1) == 2 * inject_Z (Zpos p) + 1)%Q.
Proof. rewrite Pos2Z.inj_xI, inject_Z_plus, inject_Z_mult. reflexivity. Qed.

Lemma shr_1_ok mrs Y :
  0 <= shr_m mrs ->
  loc_ok (shr_m mrs) (loc_of_shr_record mrs) Y ->
  loc_ok (shr_m (shr_1 mrs)) (loc_of_shr_record (shr_1 mrs)) (Y * (1 # 2)) /\
  shr_m (shr_1 mrs) = shr_m mrs / 2.
Proof.
  destruct mrs as [m r s]. cbn [shr_m]. intros Hm H.
  destruct m as [|p|p]; [| |lia].
  - split; [|reflexivity].
    destruct r, s; cbn in *; change (inject_Z 0) with 0%Q in *; lra.
  - destruct p as [p|p|]; cbn [shr_1 shr_m].
    + split; [|rewrite Pos2Z.inj_xI; apply Z.div_unique with 1; lia].
      destruct r, s; cbn in H |- *; rewrite inject_Z_xI in H; lra.
    + split; [|rewrite Pos2Z.inj_xO; apply Z.div_unique with 0; lia].
      destruct r, s; cbn in H |- *; rewrite inject_Z_xO in H; lra.
    + split; [|reflexivity].
      destruct r, s; cbn in H |- *;
        change (inject_Z 0) with 0%Q in *; change (inject_Z 1) with 1%Q in *; lra.
Qed.

Lemma shr_1_nonneg mrs : 0 <= shr_m mrs -> 0 <= shr_m (shr_1 mrs).
Proof.
  destruct mrs as [[|[p|p|]|p] r s]; cbn; lia.
Qed.

Lemma iter_shr_1_ok (n : positive) : forall mrs Y,
  0 <= shr_m mrs ->
  loc_ok (shr_m mrs) (loc_of_shr_record mrs) Y ->
  loc_ok (shr_m (SpecFloat.iter_pos shr_1 n mrs)) (loc_of_shr_record (SpecFloat.iter_pos shr_1 n mrs))
    (Y * pow2 (- Zpos n)) /\
  shr_m (SpecFloat.iter_pos shr_1 n mrs) = shr_m mrs / 2 ^ Zpos n /\
  0 <= shr_m (SpecFloat.iter_pos shr_1 n mrs).
Proof.
  induction n as [n IH|n IH|]; intros mrs Y Hm H; cbn [SpecFloat.iter_pos].
  - destruct (shr_1_ok mrs Y Hm H) as [H1 E1].
    pose proof (shr_1_nonneg mrs Hm) as Hm1.
    destruct (IH _ _ Hm1 H1) as (H2 & E2 & Hm2).
    destruct (IH _ _ Hm2 H2) as (H3 & E3 & Hm3).
    split; [|split; [|exact Hm3]].
    + eapply loc_ok_ext; [|exact H3].
      rewrite Pos2Z.inj_xI.
      replace (- (2 * Zpos n + 1)) with ((-1) + (- Zpos n + - Zpos n)) by ring.
      rewrite !pow2_add. change (pow2 (-1)) with (1 # 2)%Q. ring.
    + rewrite E3, E2, E1. rewrite !Z.div_div by (try apply Z.pow_pos_nonneg; lia).
      f_equal. rewrite <- !Z.pow_add_r by lia. change 2 with (2 ^ 1) at 1.
      rewrite <- !Z.pow_add_r by lia. f_equal. lia.
  - destruct (IH _ _ Hm H) as (H2 & E2 & Hm2).
    destruct (IH _ _ Hm2 H2) as (H3 & E3 & Hm3).
    split; [|split; [|exact Hm3]].
    + eapply loc_ok_ext; [|exact H3].
      rewrite Pos2Z.inj_xO.
      replace (- (2 * Zpos n)) with (- Zpos n + - Zpos n) by ring.
      rewrite !pow2_add. ring.
    + rewrite E3, E2. rewrite !Z.div_div by (try apply Z.pow_pos_nonneg; lia).
      f_equal. rewrite <- !Z.pow_add_r by lia. f_equal. lia.
  - destruct (shr_1_ok mrs Y Hm H) as [H1 E1].
    split; [|split; [|apply shr_1_nonneg; exact Hm]].
    + eapply loc_ok_ext; [|exact H1]. change (pow2 (-1)) with (1 # 2)%Q. reflexivity.
    + rewrite E1. reflexivity.
Qed.

Lemma loc_of_shr_record_of_loc m l :
  loc_of_shr_record (shr_record_of_loc m l) = l.
Proof. destruct l as [|[]]; reflexivity. Qed.

Lemma shr_m_shr_record_of_loc m l : shr_m (shr_record_of_loc m l) = m.
Proof. destruct l as [|[]]; reflexivity. Qed.

Lemma round_nearest_even_ok m l Y :
  loc_ok m l Y -> round_nearest_even m l = RNE Y.
Proof.
  intros H. symmetry. apply RNE_unique. unfold nearest_even, round_nearest_even.
  destruct l as [|[]]; cbn in H.
  - left. lra.
  - destruct (Z.even m) eqn:Ev.
    + right. split; [right; lra | exact Ev].
    + right. rewrite inject_Z_plus. change (inject_Z 1) with 1%Q.
      split; [left; lra|]. rewrite Z.even_add, Ev. reflexivity.
  - left. lra.
  - left. rewrite inject_Z_plus. change (inject_Z 1) with 1%Q. lra.
Qed.

Lemma Zdigits2_bounds m : 0 < m -> 2 ^ (Zdigits2 m - 1) <= m < 2 ^ Zdigits2 m.
Proof. destruct m as [|p|p]; try lia. intros _. apply digits2_pos_bounds. Qed.

Lemma Zdigits2_unique m d : 0 < m -> 2 ^ (d - 1) <= m < 2 ^ d -> Zdigits2 m = d.
Proof. destruct m as [|p|p]; try lia. intros _. apply digits2_pos_unique. Qed.

Lemma Zdigits2_pos m : 0 < m -> 0 < Zdigits2 m.
Proof. destruct m as [|p|p]; try lia. intros _. cbn. lia. Qed.

(** Dropping the [n] low bits of a [d]-digit mantissa. *)
Lemma shift_bounds m d n :
  0 <= n -> 2 ^ (d - 1) <= m < 2 ^ d -> 0 < d ->
  (n < d -> 2 ^ (d - n - 1) <= m / 2 ^ n < 2 ^ (d - n)) /\
  (d <= n -> m / 2 ^ n = 0).
Proof.
  intros Hn [Hlo Hhi] Hd.
  assert (Hp : 0 < 2 ^ n) by (apply Z.pow_pos_nonneg; lia).
  split.
  - intros Hlt. split.
    + apply Z.div_le_lower_bound; [exact Hp|].
      rewrite <- Z.pow_add_r by lia. replace (n + (d - n - 1)) with (d - 1) by ring.
      exact Hlo.
    + apply Z.div_lt_upper_bound; [exact Hp|].
      rewrite <- Z.pow_add_r by lia. replace (n + (d - n)) with d by ring. exact Hhi.
  - intros Hle. apply Z.div_small. split.
    + assert (0 < 2 ^ (d - 1)) by (apply Z.pow_pos_nonneg; lia). lia.
    + assert (2 ^ d <= 2 ^ n) by (apply Z.pow_le_mono_r; lia). lia.
Qed.

Lemma F2Q_opp s m e : (F2Q (negb s) m e == - F2Q s m e)%Q.
Proof.
  unfold F2Q. destruct s; cbn [negb cond_Zopp];
    rewrite ?Pos2Z.opp_pos; change (Zneg m) with (- Zpos m); rewrite ?inject_Z_opp; ring.
Qed.

Lemma F2Q_false m e : (F2Q false m e == inject_Z (Zpos m) * pow2 e)%Q.
Proof. reflexivity. Qed.

Lemma F2Q_true m e : (F2Q true m e == - (inject_Z (Zpos m) * pow2 e))%Q.
Proof. unfold F2Q. cbn [cond_Zopp]. change (- Zpos m) with (Z.opp (Zpos m)).
  rewrite inject_Z_opp. ring. Qed.

Lemma F2Q_sign s m e :
  (F2Q s m e == (if s then - 1 else 1) * (inject_Z (Zpos m) * pow2 e))%Q.
Proof. destruct s; [rewrite F2Q_true | rewrite F2Q_false]; ring. Qed.

Lemma iter_xO (d m : positive) : Zpos (Pos.iter xO m d) = Zpos m * 2 ^ Zpos d.
Proof.
  induction d as [|d IH] using Pos.peano_ind.
  - cbn. lia.
  - rewrite Pos.iter_succ, Pos2Z.inj_xO, IH, Pos2Z.inj_succ, Z.pow_succ_r by lia. ring.
Qed.

Lemma shl_align_value mx ex ex' :
  snd (shl_align mx ex ex') = Z.min ex ex' /\
  Zpos (fst (shl_align mx ex ex')) = Zpos mx * 2 ^ (ex - snd (shl_align mx ex ex')).
Proof.
  unfold shl_align. destruct (ex' - ex) as [|d|d] eqn:E; cbn [fst snd].
  - split; [lia|]. rewrite Z.sub_diag. cbn. lia.
  - split; [lia|]. rewrite Z.sub_diag. cbn. lia.
  - split; [lia|]. rewrite iter_xO. f_equal. f_equal. lia.
Qed.

Lemma Zdigits2_mul_pow2 m n :
  0 < m -> 0 <= n -> Zdigits2 (m * 2 ^ n) = Zdigits2 m + n.
Proof.
  intros Hm Hn. pose proof (Zdigits2_bounds m Hm) as [Hlo Hhi].
  pose proof (Zdigits2_pos m Hm) as Hd.
  assert (Hp : 0 < 2 ^ n) by (apply Z.pow_pos_nonneg; lia).
  apply Zdigits2_unique; [nia|].
  replace (Zdigits2 m + n - 1) with ((Zdigits2 m - 1) + n) by ring.
  rewrite !Z.pow_add_r by lia. split; nia.
Qed.

Section Rounding.

Variables prec emax : Z.
Hypothesis prec_gt_1 : 1 < prec.
Hypothesis prec_lt_emax : prec < emax.

Local Abbreviation emin := (emin prec emax).
Local Abbreviation fexp := (fexp prec emax).

Lemma fexp_ge_emin k : emin <= fexp k.
Proof. unfold SpecFloat.fexp. lia. Qed.

Lemma fexp_mono a b : a <= b -> fexp a <= fexp b.
Proof. unfold SpecFloat.fexp. lia. Qed.

Lemma shr_fexp_ok m e l Y :
  0 <= m -> loc_ok m l Y ->
  let r := shr_fexp prec emax m e l in
  snd r = Z.max e (fexp (Zdigits2 m + e)) /\
  loc_ok (shr_m (fst r)) (loc_of_shr_record (fst r)) (Y * pow2 (e - snd r)) /\
  shr_m (fst r) = m / 2 ^ (snd r - e) /\
  0 <= shr_m (fst r).
Proof.
  intros Hm H. cbn zeta. unfold shr_fexp, shr.
  destruct (fexp (Zdigits2 m + e) - e) as [|n|n] eqn:En.
  - cbn [fst snd]. rewrite loc_of_shr_record_of_loc, shr_m_shr_record_of_loc.
    rewrite Z.sub_diag. split; [lia|]. split; [|split; [|exact Hm]].
    + eapply loc_ok_ext; [|exact H]. rewrite pow2_0. ring.
    + cbn. rewrite Z.div_1_r. reflexivity.
  - cbn [fst snd].
    destruct (iter_shr_1_ok n (shr_record_of_loc m l) Y) as (H1 & E1 & Hm1).
    + rewrite shr_m_shr_record_of_loc. exact Hm.
    + rewrite shr_m_shr_record_of_loc, loc_of_shr_record_of_loc. exact H.
    + rewrite shr_m_shr_record_of_loc in E1.
      split; [lia|]. split; [|split; [|exact Hm1]].
      * eapply loc_ok_ext; [|exact H1].
        replace (e - (e + Zpos n)) with (- Zpos n) by ring. reflexivity.
      * rewrite E1. f_equal. f_equal. ring.
  - cbn [fst snd]. rewrite loc_of_shr_record_of_loc, shr_m_shr_record_of_loc.
    rewrite Z.sub_diag. split; [lia|]. split; [|split; [|exact Hm]].
    + eapply loc_ok_ext; [|exact H]. rewrite pow2_0. ring.
    + cbn. rewrite Z.div_1_r. reflexivity.
Qed.

Lemma binary_round_aux_renormalize sx mx ex lx :
  binary_round_aux prec emax sx mx ex lx =
    renormalize prec emax sx
      (round_nearest_even (shr_m (fst (shr_fexp prec emax mx ex lx)))
         (loc_of_shr_record (fst (shr_fexp prec emax mx ex lx))))
      (snd (shr_fexp prec emax mx ex lx)).
Proof.
  unfold binary_round_aux, renormalize.
  destruct (shr_fexp prec emax mx ex lx) as [mrs1 e1]. reflexivity.
Qed.

Lemma renormalize_zero sx E : emin <= E -> renormalize prec emax sx 0 E = S754_zero sx.
Proof.
  intros HE. unfold renormalize, shr_fexp, shr. change (Zdigits2 0 + E) with E.
  replace (fexp E - E) with (Z.max (E - prec) emin - E) by reflexivity.
  destruct (Z.max (E - prec) emin - E) as [|p|p] eqn:Ep; try reflexivity. lia.
Qed.

(** No carry: the mantissa has as many digits as the format gives to its
    binade. *)
Lemma renormalize_fits sx (m2 : positive) E :
  fexp (Zpos (digits2_pos m2) + E) = E ->
  renormalize prec emax sx (Zpos m2) E =
    if E <=? emax - prec then S754_finite sx m2 E else S754_infinity sx.
Proof.
  intros Hc. unfold renormalize, shr_fexp, shr. cbn [Zdigits2].
  rewrite Hc, Z.sub_diag. cbn [shr_record_of_loc shr_m]. reflexivity.
Qed.

(** Carry: the mantissa is [2^prec], one digit too long. *)
Lemma renormalize_carry sx E :
  fexp (prec + 1 + E) = E + 1 ->
  renormalize prec emax sx (2 ^ prec) E =
    if E + 1 <=? emax - prec
    then S754_finite sx (Z.to_pos (2 ^ (prec - 1))) (E + 1)
    else S754_infinity sx.
Proof.
  intros Hc.
  assert (Hpos : 0 < 2 ^ prec) by (apply Z.pow_pos_nonneg; lia).
  assert (Hd : Zdigits2 (2 ^ prec) = prec + 1).
  { apply Zdigits2_unique; [exact Hpos|].
    replace (prec + 1 - 1) with prec by ring. split; [lia|].
    apply Z.pow_lt_mono_r; lia. }
  pose proof (shr_fexp_ok (2 ^ prec) E loc_Exact (inject_Z (2 ^ prec))) as H.
  cbn zeta in H. destruct H as (He & _ & Hm & _); [lia | reflexivity |].
  rewrite Hd, Hc in He.
  unfold renormalize. destruct (shr_fexp prec emax (2 ^ prec) E loc_Exact) as [mrs e3].
  cbn [fst snd] in He, Hm. rewrite Hm, He.
  replace (Z.max E (E + 1) - E) with 1 by lia.
  change (2 ^ 1) with 2.
  replace (2 ^ prec / 2) with (2 ^ (prec - 1)).
  2:{ replace prec with ((prec - 1) + 1) at 2 by ring.
      rewrite Z.pow_add_r by lia. change (2 ^ 1) with 2.
      rewrite Z.div_mul by lia. reflexivity. }
  assert (Hp1 : 0 < 2 ^ (prec - 1)) by (apply Z.pow_pos_nonneg; lia).
  destruct (2 ^ (prec - 1)) as [|p|p] eqn:Ep; try lia.
  replace (Z.max E (E + 1)) with (E + 1) by lia. reflexivity.
Qed.

Lemma bounded_intro m e :
  fexp (Zpos (digits2_pos m) + e) = e -> e <= emax - prec ->
  bounded prec emax m e = true.
Proof.
  intros Hc Hb. unfold bounded, canonical_mantissa.
  apply andb_true_intro. split; [apply Z.eqb_eq; exact Hc | apply Z.leb_le; exact Hb].
Qed.

Lemma bounded_elim m e :
  bounded prec emax m e = true ->
  fexp (Zpos (digits2_pos m) + e) = e /\ e <= emax - prec.
Proof.
  unfold bounded, canonical_mantissa. intros H.
  apply andb_prop in H as [Hc Hb].
  split; [apply Z.eqb_eq; exact Hc | apply Z.leb_le; exact Hb].
Qed.

(** The rounding performed by [binary_round_aux] on a mantissa that
    carries at least as many bits as the format keeps: the integer [m2] is
    the rounded mantissa at the exponent [E] of the format in the binade of
    the input, and the result is an infinity only when that rounded value
    reaches [2^emax]. *)
Lemma binary_round_aux_spec sx mx ex lx Y :
  0 <= mx -> loc_ok mx lx Y ->
  ex <= fexp (Zdigits2 mx + ex) ->
  let E := fexp (Zdigits2 mx + ex) in
  let m2 := RNE (Y * pow2 (ex - E)) in
  match binary_round_aux prec emax sx mx ex lx with
  | S754_zero s => s = sx /\ m2 = 0
  | S754_finite s m e =>
      s = sx /\ bounded prec emax m e = true /\
      (inject_Z (Zpos m) * pow2 e == inject_Z m2 * pow2 E)%Q
  | S754_infinity s => s = sx /\ (pow2 emax <= inject_Z m2 * pow2 E)%Q
  | S754_nan => False
  end.
Proof.
  intros Hm Hloc Hbits E m2'.
  set (d := Zdigits2 mx) in *. set (k := d + ex) in *.
  assert (HEmin : emin <= E) by apply fexp_ge_emin.
  assert (HEdef : (E = k - prec /\ emin <= k - prec) \/ (E = emin /\ k - prec < emin))
    by (subst E; unfold SpecFloat.fexp; lia).
  assert (Hemin : emin <= emax - prec) by (unfold SpecFloat.emin; lia).
  rewrite binary_round_aux_renormalize.
  pose proof (shr_fexp_ok mx ex lx Y Hm Hloc) as H1.
  cbn zeta in H1. fold d k E in H1.
  destruct (shr_fexp prec emax mx ex lx) as [mrs1 e1].
  cbn [fst snd] in H1 |- *. destruct H1 as (He1 & Hloc1 & Hm1 & Hm1pos).
  replace (Z.max ex E) with E in He1 by lia. subst e1.
  set (m1 := shr_m mrs1) in *. set (l1 := loc_of_shr_record mrs1) in *.
  rewrite (round_nearest_even_ok m1 l1 _ Hloc1). fold m2'.
  set (m2 := m2') in *.
  assert (Hm2 : m2 = m1 \/ m2 = m1 + 1).
  { pose proof (loc_ok_bounds _ _ _ Hloc1) as [Hlo Hhi].
    assert (m1 <= m2) by (apply RNE_ge_Z; exact Hlo).
    assert (m2 <= m1 + 1).
    { apply RNE_le_Z. rewrite inject_Z_plus. change (inject_Z 1) with 1%Q. lra. }
    lia. }
  assert (Hcases : (E - ex < d /\ 0 < d /\
                     2 ^ (d - (E - ex) - 1) <= m1 < 2 ^ (d - (E - ex))) \/
                    (d <= E - ex /\ m1 = 0)).
  { destruct (Z.eq_dec mx 0) as [Hz|Hnz].
    - right. subst d. rewrite Hz in *. cbn [Zdigits2] in *.
      split; [lia|]. rewrite Hm1. apply Z.div_0_l.
      apply Z.pow_nonzero; lia.
    - assert (Hmpos : 0 < mx) by lia.
      assert (Hd : 0 < d) by (apply Zdigits2_pos; exact Hmpos).
      pose proof (Zdigits2_bounds mx Hmpos) as Hmx. fold d in Hmx.
      pose proof (shift_bounds mx d (E - ex) ltac:(lia) Hmx Hd) as [Hwide Hnarrow].
      rewrite <- Hm1 in Hwide, Hnarrow.
      destruct (Z_lt_le_dec (E - ex) d) as [Hw|Hw]; [left|right]; auto. }
  destruct Hcases as [(Hw & Hd & Hwide)|(Hw & Hnarrow)].
  - (* the input reaches into the format *)
    set (w := d - (E - ex)) in *.
    assert (Hwk : w + E = k) by (subst w k; ring).
    assert (Hwprec : 1 <= w <= prec) by lia.
    replace (d - (E - ex) - 1) with (w - 1) in Hwide by (subst w; ring).
    assert (Hpw : 0 < 2 ^ (w - 1)) by (apply Z.pow_pos_nonneg; lia).
    assert (Hm2pos : 0 < m2) by lia.
    assert (Hq : (pow2 (w - 1) <= inject_Z m2)%Q).
    { rewrite <- pow2_inject by lia. rewrite <- Zle_Qle. lia. }
    pose proof (pow2_pos E) as HpE.
    assert (Hbig : (pow2 (w - 1 + E) <= inject_Z m2 * pow2 E)%Q)
      by (rewrite pow2_add; nra).
    destruct (Z_lt_le_dec m2 (2 ^ w)) as [Hnc|Hc].
    + (* no carry *)
      assert (Hd2 : Zdigits2 m2 = w) by (apply Zdigits2_unique; lia).
      destruct m2 as [|p|p] eqn:Ep; try lia.
      cbn [Zdigits2] in Hd2.
      assert (Hcan : fexp (Zpos (digits2_pos p) + E) = E)
        by (rewrite Hd2, Hwk; reflexivity).
      rewrite renormalize_fits by exact Hcan.
      destruct (Z.leb_spec E (emax - prec)) as [Hfin|Hinf].
      * split; [reflexivity|]. split; [apply bounded_intro; [exact Hcan | lia]|].
        reflexivity.
      * split; [reflexivity|].
        apply Qle_trans with (pow2 (w - 1 + E)); [apply pow2_le; lia | exact Hbig].
    + (* carry *)
      assert (Hm2w : m2 = 2 ^ w) by lia.
      assert (Hw1 : 2 ^ w < 2 ^ (w + 1)) by (apply Z.pow_lt_mono_r; lia).
      destruct HEdef as [[HE Hn]|[HE Hs]].
      * assert (w = prec) by lia. subst w.
        assert (Hcan : fexp (prec + 1 + E) = E + 1).
        { unfold SpecFloat.fexp. lia. }
        rewrite Hm2w, H. rewrite renormalize_carry by exact Hcan.
        assert (Hp1 : 0 < 2 ^ (prec - 1)) by (apply Z.pow_pos_nonneg; lia).
        destruct (Z.leb_spec (E + 1) (emax - prec)) as [Hfin|Hinf].
        -- split; [reflexivity|].
           assert (Hdp : Zpos (digits2_pos (Z.to_pos (2 ^ (prec - 1)))) = prec).
           { apply digits2_pos_unique. rewrite Z2Pos.id by exact Hp1.
             split; [lia|]. apply Z.pow_lt_mono_r; lia. }
           split.
           { apply bounded_intro; [|lia]. rewrite Hdp.
             replace (prec + (E + 1)) with (prec + 1 + E) by ring. exact Hcan. }
           rewrite Z2Pos.id by exact Hp1.
           rewrite pow2_succ. rewrite !pow2_inject by lia.
           assert (Hpp : (pow2 prec == 2 * pow2 (prec - 1))%Q).
           { rewrite <- pow2_succ. replace (prec - 1 + 1) with prec by ring.
             reflexivity. }
           rewrite Hpp. ring.
        -- split; [reflexivity|].
           rewrite pow2_inject, <- pow2_add by lia. apply pow2_le. lia.
      * assert (Hd2 : Zdigits2 m2 = w + 1).
        { apply Zdigits2_unique; [lia|]. replace (w + 1 - 1) with w by ring. lia. }
        destruct m2 as [|p|p] eqn:Ep; try lia.
        cbn [Zdigits2] in Hd2.
        assert (Hcan : fexp (Zpos (digits2_pos p) + E) = E).
        { rewrite Hd2. unfold SpecFloat.fexp. lia. }
        rewrite renormalize_fits by exact Hcan.
        destruct (Z.leb_spec E (emax - prec)) as [Hfin|Hinf]; [|lia].
        split; [reflexivity|]. split; [apply bounded_intro; [exact Hcan | lia]|].
        reflexivity.
  - (* the input lies below the format *)
    destruct HEdef as [[HE Hn]|[HE Hs]]; [lia|].
    destruct Hm2 as [Hm2|Hm2]; rewrite Hm2, Hnarrow.
    + rewrite renormalize_zero by lia. split; reflexivity.
    + change (0 + 1) with 1.
      assert (Hcan : fexp (Zpos (digits2_pos 1) + E) = E).
      { cbn [digits2_pos]. unfold SpecFloat.fexp. lia. }
      rewrite renormalize_fits by exact Hcan.
      destruct (Z.leb_spec E (emax - prec)) as [Hfin|Hinf]; [|lia].
      split; [reflexivity|]. split; [apply bounded_intro; [exact Hcan | lia]|].
      reflexivity.
Qed.

Lemma Qabs_sign_of s (y : Q) : (0 <= y)%Q -> (Qabs (sign_of s * y) == y)%Q.
Proof.
  intros H. destruct s; cbn [sign_of].
  - setoid_replace (- 1 * y)%Q with (- y)%Q using relation Qeq by ring.
    rewrite Qabs_opp. apply Qabs_pos. exact H.
  - setoid_replace (1 * y)%Q with y using relation Qeq by ring. apply Qabs_pos. exact H.
Qed.

Lemma RNE_sign_of s y : inject_Z (RNE (sign_of s * y)) == sign_of s * inject_Z (RNE y).
Proof.
  destruct s; cbn [sign_of].
  - setoid_replace (- 1 * y)%Q with (- y)%Q using relation Qeq by ring.
    rewrite RNE_opp, inject_Z_opp. ring.
  - setoid_replace (1 * y)%Q with y using relation Qeq by ring. ring.
Qed.

Lemma mag_of_mantissa mx ex Y :
  0 < mx -> (inject_Z mx <= Y)%Q -> (Y < inject_Z mx + 1)%Q ->
  (pow2 (Zdigits2 mx + ex - 1) <= Y * pow2 ex /\
   Y * pow2 ex < pow2 (Zdigits2 mx + ex))%Q.
Proof.
  intros Hm Hlo Hhi.
  pose proof (Zdigits2_bounds mx Hm) as [Hd1 Hd2].
  pose proof (Zdigits2_pos mx Hm) as Hd.
  pose proof (pow2_pos ex) as Hp.
  assert (H1 : (pow2 (Zdigits2 mx - 1) <= inject_Z mx)%Q).
  { rewrite <- pow2_inject by lia. rewrite <- Zle_Qle. exact Hd1. }
  assert (H2 : (inject_Z mx + 1 <= pow2 (Zdigits2 mx))%Q).
  { rewrite <- pow2_inject by lia. change 1%Q with (inject_Z 1).
    rewrite <- inject_Z_plus, <- Zle_Qle. lia. }
  replace (Zdigits2 mx + ex - 1) with ((Zdigits2 mx - 1) + ex) by ring.
  rewrite !pow2_add. split; nra.
Qed.

(** [binary_round_aux] rounds the value it is given, to nearest even. *)
Lemma binary_round_aux_rounds sx mx ex lx Y :
  0 <= mx -> loc_ok mx lx Y ->
  ex <= fexp (Zdigits2 mx + ex) ->
  rounds prec emax (sign_of sx * (Y * pow2 ex)) (binary_round_aux prec emax sx mx ex lx) /\
  match binary_round_aux prec emax sx mx ex lx with
  | S754_zero s | S754_finite s _ _ | S754_infinity s => s = sx
  | S754_nan => False
  end.
Proof.
  intros Hm Hloc Hbits.
  pose proof (loc_ok_bounds _ _ _ Hloc) as [Hlo Hhi].
  pose proof (binary_round_aux_spec sx mx ex lx Y Hm Hloc Hbits) as H.
  cbn zeta in H.
  set (k := Zdigits2 mx + ex) in *. set (E := fexp k) in *.
  assert (HYpos : (0 <= Y * pow2 ex)%Q).
  { pose proof (pow2_pos ex). assert (0 <= inject_Z mx)%Q.
    { change 0%Q with (inject_Z 0). rewrite <- Zle_Qle. exact Hm. }
    nra. }
  assert (Hcexp : cexp_ok prec emax E (sign_of sx * (Y * pow2 ex))).
  { unfold cexp_ok. rewrite Qabs_sign_of by exact HYpos.
    split; [apply fexp_ge_emin|].
    destruct (Z.eq_dec mx 0) as [Hz|Hnz].
    - assert (HE : E = emin /\ ex <= emin).
      { subst E k. rewrite Hz in *. cbn [Zdigits2 Z.add] in *.
        unfold SpecFloat.fexp in *. lia. }
      destruct HE as [HE Hex]. split; [|left; exact HE].
      rewrite Hz in Hhi. change (inject_Z 0) with 0%Q in Hhi.
      pose proof (pow2_pos ex).
      assert (pow2 ex <= pow2 (E + prec))%Q by (apply pow2_le; lia).
      nra.
    - pose proof (mag_of_mantissa mx ex Y ltac:(lia) Hlo Hhi) as [Hmag1 Hmag2].
      fold k in Hmag1, Hmag2.
      assert (HEdef : E = k - prec \/ (E = emin /\ k - prec < emin))
        by (subst E; unfold SpecFloat.fexp; lia).
      split.
      + assert (pow2 k <= pow2 (E + prec))%Q by (apply pow2_le; lia). lra.
      + destruct HEdef as [HE|[HE _]]; [right|left; exact HE].
        replace (E + prec - 1) with (k - 1) by lia. exact Hmag1. }
  assert (Hround : (round_to E (sign_of sx * (Y * pow2 ex)) ==
                    sign_of sx * (inject_Z (RNE (Y * pow2 (ex - E))) * pow2 E))%Q).
  { unfold round_to.
    setoid_replace (sign_of sx * (Y * pow2 ex) * pow2 (- E))%Q
      with (sign_of sx * (Y * pow2 (ex - E)))%Q using relation Qeq
      by (unfold Z.sub; rewrite pow2_add; ring).
    rewrite RNE_sign_of. ring. }
  destruct (binary_round_aux prec emax sx mx ex lx) as [s|s| |s m e]; try contradiction.
  - destruct H as [-> H0]. split; [|reflexivity]. left.
    split; [exact I|]. exists E. split; [exact Hcexp|].
    rewrite Hround, H0. cbn [B2Q]. ring.
  - destruct H as [-> Hinf]. split; [|reflexivity]. right.
    split; [exists sx; reflexivity|]. exists E. split; [exact Hcexp|].
    rewrite Hround. rewrite Qabs_sign_of; [exact Hinf|].
    pose proof (pow2_pos emax). lra.
  - destruct H as (-> & Hb & Hv). split; [|reflexivity]. left.
    split; [exact Hb|]. exists E. split; [exact Hcexp|].
    rewrite Hround. cbn [B2Q]. rewrite F2Q_sign. rewrite Hv.
    destruct sx; reflexivity.
Qed.

Lemma binary_round_rounds sx mx ex :
  rounds prec emax (F2Q sx mx ex) (binary_round prec emax sx mx ex) /\
  match binary_round prec emax sx mx ex with
  | S754_zero s | S754_finite s _ _ | S754_infinity s => s = sx
  | S754_nan => False
  end.
Proof.
  unfold binary_round.
  pose proof (shl_align_value mx ex (fexp (Zpos (digits2_pos mx) + ex))) as [He Hv].
  destruct (shl_align mx ex (fexp (Zpos (digits2_pos mx) + ex))) as [mz ez].
  cbn [fst snd] in He, Hv.
  assert (Hdz : Zdigits2 (Zpos mz) + ez = Zpos (digits2_pos mx) + ex).
  { rewrite Hv. rewrite Zdigits2_mul_pow2 by lia. cbn [Zdigits2]. ring. }
  pose proof (binary_round_aux_rounds sx (Zpos mz) ez loc_Exact (inject_Z (Zpos mz))) as H.
  rewrite Hdz in H.
  destruct H as [H Hs]; [lia | reflexivity | lia |].
  split; [|exact Hs].
  assert (HX : (sign_of sx * (inject_Z (Zpos mz) * pow2 ez) == F2Q sx mx ex)%Q).
  { rewrite F2Q_sign. rewrite Hv, inject_Z_mult, pow2_inject by lia.
    setoid_replace (pow2 ex) with (pow2 (ex - ez) * pow2 ez)%Q using relation Qeq
      by (rewrite <- pow2_add; replace (ex - ez + ez) with ex by ring; reflexivity).
    destruct sx; cbn [sign_of]; ring. }
  destruct H as [[Hfv (E & Hc & Hb)]|[Hinf (E & Hc & Hb)]]; [left|right].
  - split; [exact Hfv|]. exists E. split.
    + unfold cexp_ok in *. rewrite <- HX. exact Hc.
    + rewrite Hb. unfold round_to. rewrite HX. reflexivity.
  - split; [exact Hinf|]. exists E. split.
    + unfold cexp_ok in *. rewrite <- HX. exact Hc.
    + unfold round_to in *. rewrite <- HX. exact Hb.
Qed.

End Rounding.

(** ** Properties of rounding, on values *)

Lemma round_to_ext E X X' : (X == X')%Q -> (round_to E X == round_to E X')%Q.
Proof. intros H. unfold round_to. rewrite H. reflexivity. Qed.

#[export] Instance round_to_proper E : Proper (Qeq ==> Qeq) (round_to E).
Proof. intros X X' H. apply round_to_ext. exact H. Qed.

Lemma pow2_cancel E : (pow2 (- E) * pow2 E == 1)%Q.
Proof. rewrite <- pow2_add. replace (- E + E) with 0 by ring. reflexivity. Qed.

Lemma round_to_error E X :
  (X - pow2 (E - 1) <= round_to E X /\ round_to E X <= X + pow2 (E - 1))%Q.
Proof.
  unfold round_to. pose proof (RNE_error (X * pow2 (- E))) as [H1 H2].
  pose proof (pow2_pos E) as Hp. pose proof (pow2_cancel E) as Hc.
  rewrite pow2_pred.
  set (z := inject_Z (RNE (X * pow2 (- E)))) in *.
  assert (HX : (X == X * pow2 (- E) * pow2 E)%Q).
  { rewrite <- Qmult_assoc, Hc. ring. }
  set (y := (X * pow2 (- E))%Q) in *.
  split.
  - setoid_replace (X - pow2 E / 2)%Q with ((y - (1 # 2)) * pow2 E)%Q using relation Qeq
      by (rewrite HX at 1; field).
    nra.
  - setoid_replace (X + pow2 E / 2)%Q with ((y + (1 # 2)) * pow2 E)%Q using relation Qeq
      by (rewrite HX at 1; field).
    nra.
Qed.

Lemma round_to_exact E X (n : Z) :
  (X == inject_Z n * pow2 E)%Q -> (round_to E X == X)%Q.
Proof.
  intros H. unfold round_to.
  assert (Hy : (X * pow2 (- E) == inject_Z n)%Q).
  { rewrite H, <- Qmult_assoc. rewrite (Qmult_comm (pow2 E)), pow2_cancel. ring. }
  rewrite Hy, RNE_Z, H. reflexivity.
Qed.

Lemma round_to_opp E X : (round_to E (- X) == - round_to E X)%Q.
Proof.
  unfold round_to.
  setoid_replace (- X * pow2 (- E))%Q with (- (X * pow2 (- E)))%Q using relation Qeq by ring.
  rewrite RNE_opp, inject_Z_opp. ring.
Qed.

Lemma round_to_mono E X X' : (X <= X')%Q -> (round_to E X <= round_to E X')%Q.
Proof.
  intros H. unfold round_to. pose proof (pow2_pos E). pose proof (pow2_pos (- E)).
  assert (Hz : RNE (X * pow2 (- E)) <= RNE (X' * pow2 (- E))) by (apply RNE_mono; nra).
  rewrite Zle_Qle in Hz. nra.
Qed.

Lemma round_to_nonneg E X : (0 <= X)%Q -> (0 <= round_to E X)%Q.
Proof.
  intros H. unfold round_to. pose proof (pow2_pos E). pose proof (pow2_pos (- E)).
  assert (Hz : 0 <= RNE (X * pow2 (- E))) by (apply RNE_nonneg; nra).
  rewrite Zle_Qle in Hz. change (inject_Z 0) with 0%Q in Hz. nra.
Qed.

Lemma round_to_nonpos E X : (X <= 0)%Q -> (round_to E X <= 0)%Q.
Proof.
  intros H. assert (H' : (0 <= round_to E (- X))%Q) by (apply round_to_nonneg; lra).
  rewrite round_to_opp in H'. lra.
Qed.

Lemma pow2_scale E p : (pow2 p == pow2 (E + p) * pow2 (- E))%Q.
Proof. rewrite <- pow2_add. replace (E + p + - E) with p by ring. reflexivity. Qed.

Lemma pow2_scale_lt X E p : (X < pow2 (E + p))%Q -> (X * pow2 (- E) < pow2 p)%Q.
Proof. intros H. rewrite (pow2_scale E p). pose proof (pow2_pos (- E)). nra. Qed.

Lemma pow2_scale_ge X E p : (pow2 (E + p) <= X)%Q -> (pow2 p <= X * pow2 (- E))%Q.
Proof. intros H. rewrite (pow2_scale E p). pose proof (pow2_pos (- E)). nra. Qed.

Section Values.

Variables prec emax : Z.
Hypothesis prec_gt_1 : 1 < prec.
Hypothesis prec_lt_emax : prec < emax.

Lemma cexp_ok_ext E X X' : (X == X')%Q -> cexp_ok prec emax E X -> cexp_ok prec emax E X'.
Proof. unfold cexp_ok. intros H. rewrite H. trivial. Qed.

Lemma cexp_ok_opp E X : cexp_ok prec emax E X -> cexp_ok prec emax E (- X).
Proof. unfold cexp_ok. rewrite Qabs_opp. trivial. Qed.

(** The exponent grows with the magnitude. *)
Lemma cexp_ok_mono E E' X X' :
  (Qabs X <= Qabs X')%Q -> cexp_ok prec emax E X -> cexp_ok prec emax E' X' -> E <= E'.
Proof.
  intros Hle (Hmin & Hhi & Hlo) (Hmin' & Hhi' & Hlo').
  destruct (Z_le_gt_dec E E') as [|Hgt]; [assumption|exfalso].
  destruct Hlo as [->|Hlo]; [lia|].
  assert (Hlt : (pow2 (E + prec - 1) < pow2 (E' + prec))%Q) by lra.
  apply pow2_lt_inv in Hlt. lia.
Qed.

Lemma cexp_ok_unique E E' X :
  cexp_ok prec emax E X -> cexp_ok prec emax E' X -> E = E'.
Proof.
  intros H H'.
  assert (E <= E') by (eapply cexp_ok_mono; [apply Qle_refl | exact H | exact H']).
  assert (E' <= E) by (eapply cexp_ok_mono; [apply Qle_refl | exact H' | exact H]).
  lia.
Qed.

Lemma rounded_ext X X' r : (X == X')%Q -> rounded prec emax X r -> rounded prec emax X' r.
Proof.
  intros H [Hv (E & Hc & Hb)]. split; [exact Hv|]. exists E. split.
  - eapply cexp_ok_ext; eauto.
  - rewrite Hb. apply round_to_ext. exact H.
Qed.

Lemma rounded_value_unique X r r' :
  rounded prec emax X r -> rounded prec emax X r' -> (B2Q r == B2Q r')%Q.
Proof.
  intros [_ (E & Hc & Hb)] [_ (E' & Hc' & Hb')].
  rewrite Hb, Hb'. rewrite (cexp_ok_unique E E' X Hc Hc'). reflexivity.
Qed.

(** Rounding is monotone. *)
Lemma round_to_mono_cexp E E' X X' :
  (0 <= X)%Q -> (X <= X')%Q ->
  cexp_ok prec emax E X -> cexp_ok prec emax E' X' ->
  (round_to E X <= round_to E' X')%Q.
Proof.
  intros H0 Hle Hc Hc'.
  assert (HEE : E <= E').
  { eapply cexp_ok_mono; [|exact Hc|exact Hc']. rewrite !Qabs_pos by lra. exact Hle. }
  destruct (Z.eq_dec E E') as [<-|Hne]; [apply round_to_mono; exact Hle|].
  destruct Hc as (Hmin & Hhi & _). destruct Hc' as (_ & _ & Hlo').
  destruct Hlo' as [->|Hlo']; [lia|].
  rewrite Qabs_pos in Hhi by lra. rewrite Qabs_pos in Hlo' by lra.
  apply Qle_trans with (pow2 (E + prec)).
  - unfold round_to. pose proof (pow2_pos E). pose proof (pow2_pos (- E)).
    pose proof (pow2_cancel E) as HcE.
    assert (Hy : (X * pow2 (- E) <= inject_Z (2 ^ prec))%Q).
    { rewrite pow2_inject by lia. apply Qlt_le_weak, pow2_scale_lt. exact Hhi. }
    apply RNE_le_Z in Hy. rewrite Zle_Qle in Hy.
    rewrite pow2_inject in Hy by lia. rewrite pow2_add. nra.
  - apply Qle_trans with (pow2 (E' + prec - 1)); [apply pow2_le; lia|].
    unfold round_to. pose proof (pow2_pos E'). pose proof (pow2_pos (- E')).
    pose proof (pow2_cancel E') as HcE.
    assert (Hy : (inject_Z (2 ^ (prec - 1)) <= X' * pow2 (- E'))%Q).
    { rewrite pow2_inject by lia. apply pow2_scale_ge.
      replace (E' + (prec - 1)) with (E' + prec - 1) by ring. exact Hlo'. }
    apply RNE_ge_Z in Hy. rewrite Zle_Qle in Hy.
    rewrite pow2_inject in Hy by lia.
    replace (E' + prec - 1) with (E' + (prec - 1)) by ring.
    rewrite pow2_add. nra.
Qed.

Lemma rounded_mono X X' r r' :
  (X <= X')%Q -> rounded prec emax X r -> rounded prec emax X' r' ->
  (B2Q r <= B2Q r')%Q.
Proof.
  intros Hle [_ (E & Hc & Hb)] [_ (E' & Hc' & Hb')]. rewrite Hb, Hb'.
  destruct (Qlt_le_dec X 0) as [Hneg|Hpos].
  - destruct (Qlt_le_dec X' 0) as [Hneg'|Hpos'].
    + assert (H : (round_to E' (- X') <= round_to E (- X))%Q).
      { apply round_to_mono_cexp; [lra | lra | apply cexp_ok_opp; exact Hc'
                                  | apply cexp_ok_opp; exact Hc]. }
      rewrite !round_to_opp in H. lra.
    + apply Qle_trans with 0%Q; [apply round_to_nonpos; lra | apply round_to_nonneg; lra].
  - apply round_to_mono_cexp; assumption.
Qed.

Lemma rounded_nonneg X r : (0 <= X)%Q -> rounded prec emax X r -> (0 <= B2Q r)%Q.
Proof. intros H [_ (E & _ & Hb)]. rewrite Hb. apply round_to_nonneg. exact H. Qed.

Lemma rounded_nonpos X r : (X <= 0)%Q -> rounded prec emax X r -> (B2Q r <= 0)%Q.
Proof. intros H [_ (E & _ & Hb)]. rewrite Hb. apply round_to_nonpos. exact H. Qed.

Lemma F2Q_abs s m e : (Qabs (F2Q s m e) == inject_Z (Zpos m) * pow2 e)%Q.
Proof.
  rewrite F2Q_sign. change (if s then (- 1)%Q else 1%Q) with (sign_of s).
  apply Qabs_sign_of. pose proof (pow2_pos e).
  assert (0 < inject_Z (Zpos m))%Q by reflexivity. nra.
Qed.

(** The exponent of a canonical float is the exponent of its binade. *)
Lemma valid_cexp s m e :
  bounded prec emax m e = true -> cexp_ok prec emax e (F2Q s m e).
Proof.
  intros Hb. apply (bounded_elim prec emax) in Hb as [Hc _].
  pose proof (mag_of_mantissa (Zpos m) e (inject_Z (Zpos m)) ltac:(lia)
                ltac:(lra) ltac:(lra)) as [Hlo Hhi].
  cbn [Zdigits2] in Hlo, Hhi.
  set (d := Zpos (digits2_pos m)) in *.
  assert (Hd : e = d + e - prec \/ (e = emin prec emax /\ d + e - prec <= e))
    by (unfold fexp in Hc; lia).
  unfold cexp_ok. rewrite F2Q_abs.
  split; [unfold fexp in Hc; lia|]. split.
  - assert (pow2 (d + e) <= pow2 (e + prec))%Q by (apply pow2_le; lia). lra.
  - destruct Hd as [Hd|[Hd _]]; [right|left; exact Hd].
    replace (e + prec - 1) with (d + e - 1) by lia. exact Hlo.
Qed.

Lemma cexp_ok_zero : cexp_ok prec emax (emin prec emax) 0.
Proof.
  unfold cexp_ok. split; [lia|]. split; [|left; reflexivity].
  change (Qabs 0) with 0%Q. apply pow2_pos.
Qed.

Lemma round_to_zero E : (round_to E 0 == 0)%Q.
Proof. apply (round_to_exact E 0 0). ring. Qed.

(** A canonical float is what its own value rounds to. *)
Lemma rounded_self r : finite_valid prec emax r -> rounded prec emax (B2Q r) r.
Proof.
  intros Hv. split; [exact Hv|]. destruct r as [s|s| |s m e]; try contradiction.
  - exists (emin prec emax). split; [apply cexp_ok_zero|].
    cbn [B2Q]. rewrite round_to_zero. reflexivity.
  - exists e. split; [apply valid_cexp; exact Hv|]. cbn [B2Q].
    symmetry. apply round_to_exact with (cond_Zopp s (Zpos m)). reflexivity.
Qed.

Lemma rounded_zero s : rounded prec emax 0 (S754_zero s).
Proof. apply (rounded_self (S754_zero s)). exact I. Qed.

(** Rounding leaves the floats of the format unchanged. *)
Lemma rounded_exact X r c :
  rounded prec emax X r -> finite_valid prec emax c -> (B2Q c == X)%Q ->
  (B2Q r == X)%Q.
Proof.
  intros Hr Hc Hx. rewrite <- Hx. apply rounded_value_unique with X; [exact Hr|].
  apply rounded_ext with (B2Q c); [exact Hx | apply rounded_self; exact Hc].
Qed.

(** Rounding is exact on a grid that is no finer than the format's. *)
Lemma rounded_exact_grid X r (n e0 : Z) :
  rounded prec emax X r -> (X == inject_Z n * pow2 e0)%Q ->
  emin prec emax <= e0 -> (Qabs X < pow2 (e0 + prec))%Q ->
  (B2Q r == X)%Q.
Proof.
  intros [_ (E & (Hmin & Hhi & Hlo) & Hb)] Hx He0 Hbound. rewrite Hb.
  assert (HE : E <= e0).
  { destruct Hlo as [->|Hlo]; [exact He0|].
    assert (Hlt : (pow2 (E + prec - 1) < pow2 (e0 + prec))%Q) by lra.
    apply pow2_lt_inv in Hlt. lia. }
  apply round_to_exact with (n * 2 ^ (e0 - E)).
  rewrite Hx, inject_Z_mult, pow2_inject by lia.
  rewrite <- Qmult_assoc, <- pow2_add. replace (e0 - E + E) with e0 by ring. reflexivity.
Qed.

(** Relative and absolute error of rounding. *)
Lemma rounded_error X r :
  rounded prec emax X r ->
  exists E, cexp_ok prec emax E X /\
    (X - pow2 (E - 1) <= B2Q r /\ B2Q r <= X + pow2 (E - 1))%Q.
Proof.
  intros [_ (E & Hc & Hb)]. exists E. split; [exact Hc|]. rewrite Hb.
  apply round_to_error.
Qed.

Lemma round_to_abs E X : (Qabs (round_to E X) == round_to E (Qabs X))%Q.
Proof.
  destruct (Qlt_le_dec X 0) as [Hneg|Hpos].
  - rewrite (Qabs_neg X) by lra. rewrite round_to_opp.
    apply Qabs_neg. apply round_to_nonpos. lra.
  - rewrite (Qabs_pos X) by lra. apply Qabs_pos. apply round_to_nonneg. exact Hpos.
Qed.

Lemma cexp_ok_abs E X : cexp_ok prec emax E X -> cexp_ok prec emax E (Qabs X).
Proof.
  unfold cexp_ok. rewrite (Qabs_pos (Qabs X)) by apply Qabs_nonneg. trivial.
Qed.

(** A canonical float lies below the overflow threshold. *)
Lemma valid_lt_emax c : finite_valid prec emax c -> (Qabs (B2Q c) < pow2 emax)%Q.
Proof.
  destruct c as [s|s| |s m e]; try contradiction; intros Hv; cbn [B2Q].
  - change (Qabs 0) with 0%Q. apply pow2_pos.
  - rewrite F2Q_abs. apply (bounded_elim prec emax) in Hv as [Hc Hb].
    pose proof (mag_of_mantissa (Zpos m) e (inject_Z (Zpos m)) ltac:(lia)
                  ltac:(lra) ltac:(lra)) as [_ Hhi].
    cbn [Zdigits2] in Hhi.
    assert (pow2 (Zpos (digits2_pos m) + e) <= pow2 emax)%Q.
    { apply pow2_le. unfold fexp in Hc. lia. }
    lra.
Qed.

Lemma overflow_ext X X' r : (X == X')%Q -> overflow prec emax X r -> overflow prec emax X' r.
Proof.
  intros H [Hi (E & Hc & Hb)]. split; [exact Hi|]. exists E. split.
  - eapply cexp_ok_ext; eauto.
  - rewrite <- H. exact Hb.
Qed.

Lemma rounds_ext X X' r : (X == X')%Q -> rounds prec emax X r -> rounds prec emax X' r.
Proof.
  intros H [Hr|Ho]; [left; eapply rounded_ext | right; eapply overflow_ext]; eauto.
Qed.

(** There is no overflow below a float of the format. *)
Lemma rounds_below X r c :
  rounds prec emax X r -> finite_valid prec emax c -> (Qabs X <= Qabs (B2Q c))%Q ->
  rounded prec emax X r.
Proof.
  intros [Hr|[_ (E & Hc & Hb)]] Hv Hle; [exact Hr|exfalso].
  pose proof (rounded_self c Hv) as [_ (E' & Hc' & Hb')].
  pose proof (valid_lt_emax c Hv) as Hlt.
  assert (Hm : (round_to E (Qabs X) <= round_to E' (Qabs (B2Q c)))%Q).
  { apply round_to_mono_cexp; [apply Qabs_nonneg | exact Hle
                              | apply cexp_ok_abs; exact Hc
                              | apply cexp_ok_abs; exact Hc']. }
  rewrite <- !round_to_abs in Hm. rewrite <- Hb' in Hm. lra.
Qed.

Lemma rounds_small X r :
  rounds prec emax X r -> (Qabs X < pow2 (emax - 1))%Q -> rounded prec emax X r.
Proof.
  intros [Hr|[_ (E & (Hmin & Hhi & Hlo) & Hb)]] Hs; [exact Hr|exfalso].
  pose proof (round_to_error E (Qabs X)) as [_ Hup].
  rewrite <- round_to_abs in Hup.
  assert (Hhalf : (pow2 emax == 2 * pow2 (emax - 1))%Q).
  { rewrite <- pow2_succ. replace (emax - 1 + 1) with emax by ring. reflexivity. }
  assert (Hu : (pow2 (E - 1) < pow2 (emax - 1))%Q).
  { destruct Hlo as [->|Hlo].
    - apply pow2_lt. unfold emin. lia.
    - assert (pow2 (E - 1) <= pow2 (E + prec - 1))%Q by (apply pow2_le; lia). lra. }
  lra.
Qed.

End Values.

(** * The arithmetic operations *)

Section Operations.

Variables prec emax : Z.
Hypothesis prec_gt_1 : 1 < prec.
Hypothesis prec_lt_emax : prec < emax.

Local Abbreviation emin := (emin prec emax).
Local Abbreviation fexp := (fexp prec emax).
Local Abbreviation finite_valid := (finite_valid prec emax).
Local Abbreviation rounded := (rounded prec emax).
Local Abbreviation rounds := (rounds prec emax).

Lemma canonical_cases m e :
  bounded prec emax m e = true ->
  (Zpos (digits2_pos m) = prec /\ emin <= e) \/
  (e = emin /\ Zpos (digits2_pos m) <= prec).
Proof.
  intros Hb. apply (bounded_elim prec emax) in Hb as [Hc _].
  unfold SpecFloat.fexp in Hc. lia.
Qed.

Lemma digits_mul (mx my : positive) :
  Zpos (digits2_pos mx) + Zpos (digits2_pos my) - 1 <= Zdigits2 (Zpos (mx * my)).
Proof.
  pose proof (digits2_pos_bounds mx) as [Hx _].
  pose proof (digits2_pos_bounds my) as [Hy _].
  pose proof (Zdigits2_bounds (Zpos (mx * my)) ltac:(lia)) as [_ Hxy].
  set (dx := Zpos (digits2_pos mx)) in *. set (dy := Zpos (digits2_pos my)) in *.
  assert (0 < dx) by (subst dx; lia). assert (0 < dy) by (subst dy; lia).
  assert (Hlo : 2 ^ (dx + dy - 2) <= Zpos (mx * my)).
  { replace (dx + dy - 2) with ((dx - 1) + (dy - 1)) by ring.
    rewrite Z.pow_add_r by lia. rewrite Pos2Z.inj_mul.
    assert (0 < 2 ^ (dx - 1)) by (apply Z.pow_pos_nonneg; lia).
    assert (0 < 2 ^ (dy - 1)) by (apply Z.pow_pos_nonneg; lia). nia. }
  assert (Hlt : 2 ^ (dx + dy - 2) < 2 ^ Zdigits2 (Zpos (mx * my))) by lia.
  apply Z.pow_lt_mono_r_iff in Hlt; [lia | lia |].
  pose proof (Zdigits2_pos (Zpos (mx * my)) ltac:(lia)). lia.
Qed.

Theorem SFmul_rounds x y :
  finite_valid x -> finite_valid y ->
  rounds (B2Q x * B2Q y) (SFmul prec emax x y).
Proof.
  intros Hx Hy.
  destruct x as [sx|sx| |sx mx ex], y as [sy|sy| |sy my ey]; try contradiction;
    cbn [SFmul B2Q];
    try (left; eapply rounded_ext; [|apply rounded_zero]; ring).
  change (bounded prec emax mx ex = true) in Hx.
  change (bounded prec emax my ey = true) in Hy.
  assert (HX : (sign_of (xorb sx sy) *
                (inject_Z (Zpos (mx * my)) * pow2 (ex + ey)) ==
                F2Q sx mx ex * F2Q sy my ey)%Q).
  { rewrite !F2Q_sign, Pos2Z.inj_mul, inject_Z_mult, pow2_add.
    destruct sx, sy; cbn [xorb sign_of]; ring. }
  eapply rounds_ext; [exact HX|].
  apply binary_round_aux_rounds; try assumption.
  - lia.
  - reflexivity.
  - pose proof (digits_mul mx my) as Hd.
    destruct (canonical_cases mx ex Hx) as [[Hdx Hex]|[Hex Hdx]],
             (canonical_cases my ey Hy) as [[Hdy Hey]|[Hey Hdy]];
      unfold SpecFloat.fexp, SpecFloat.emin in *;
      pose proof (Pos2Z.is_pos (digits2_pos mx));
      pose proof (Pos2Z.is_pos (digits2_pos my)); lia.
Qed.

Lemma binary_normalize_rounds z e szero :
  rounds (inject_Z z * pow2 e) (binary_normalize prec emax z e szero).
Proof.
  destruct z as [|m|m]; cbn [binary_normalize].
  - left. eapply rounded_ext; [|apply rounded_zero]. ring.
  - apply (binary_round_rounds prec emax prec_gt_1 prec_lt_emax false m e).
  - assert (HX : (F2Q true m e == inject_Z (Zneg m) * pow2 e)%Q) by reflexivity.
    eapply rounds_ext; [exact HX|].
    apply (binary_round_rounds prec emax prec_gt_1 prec_lt_emax true m e).
Qed.

Lemma aligned_value s m e ez :
  ez <= e ->
  (inject_Z (cond_Zopp s (Zpos (fst (shl_align m e ez)))) * pow2 ez == F2Q s m e)%Q.
Proof.
  intros Hle. pose proof (shl_align_value m e ez) as [He Hv].
  replace (Z.min e ez) with ez in He by lia. rewrite He in Hv.
  unfold F2Q.
  assert (Hc : cond_Zopp s (Zpos (fst (shl_align m e ez))) =
               cond_Zopp s (Zpos m) * 2 ^ (e - ez)).
  { rewrite Hv. destruct s; cbn [cond_Zopp]; ring. }
  rewrite Hc, inject_Z_mult, pow2_inject by lia.
  rewrite <- Qmult_assoc, <- pow2_add. replace (e - ez + ez) with e by ring.
  reflexivity.
Qed.

Theorem SFadd_rounds x y :
  finite_valid x -> finite_valid y ->
  rounds (B2Q x + B2Q y) (SFadd prec emax x y).
Proof.
  intros Hx Hy.
  destruct x as [sx|sx| |sx mx ex], y as [sy|sy| |sy my ey]; try contradiction;
    cbn [SFadd B2Q].
  - left. eapply rounded_ext with 0%Q; [ring|]. destruct sx, sy; apply rounded_zero.
  - left. eapply rounded_ext; [|apply (rounded_self prec emax (S754_finite sy my ey) Hy)].
    cbn [B2Q]. ring.
  - left. eapply rounded_ext; [|apply (rounded_self prec emax (S754_finite sx mx ex) Hx)].
    cbn [B2Q]. ring.
  - set (ez := Z.min ex ey).
    assert (HX : ((inject_Z (cond_Zopp sx (Zpos (fst (shl_align mx ex ez))) +
                             cond_Zopp sy (Zpos (fst (shl_align my ey ez))))) * pow2 ez ==
                  F2Q sx mx ex + F2Q sy my ey)%Q).
    { rewrite inject_Z_plus, Qmult_plus_distr_l.
      rewrite !aligned_value by (subst ez; lia). reflexivity. }
    eapply rounds_ext; [exact HX|].
    apply binary_normalize_rounds.
Qed.

Theorem SFsub_rounds x y :
  finite_valid x -> finite_valid y ->
  rounds (B2Q x - B2Q y) (SFsub prec emax x y).
Proof.
  intros Hx Hy.
  destruct x as [sx|sx| |sx mx ex], y as [sy|sy| |sy my ey]; try contradiction;
    cbn [SFsub B2Q].
  - left. eapply rounded_ext with 0%Q; [ring|]. destruct sx, sy; apply rounded_zero.
  - left. eapply rounded_ext;
      [|apply (rounded_self prec emax (S754_finite (negb sy) my ey) Hy)].
    cbn [B2Q]. rewrite F2Q_opp. ring.
  - left. eapply rounded_ext; [|apply (rounded_self prec emax (S754_finite sx mx ex) Hx)].
    cbn [B2Q]. ring.
  - set (ez := Z.min ex ey).
    assert (HX : ((inject_Z (cond_Zopp sx (Zpos (fst (shl_align mx ex ez))) -
                             cond_Zopp sy (Zpos (fst (shl_align my ey ez))))) * pow2 ez ==
                  F2Q sx mx ex - F2Q sy my ey)%Q).
    { unfold Z.sub. rewrite inject_Z_plus, inject_Z_opp.
      setoid_replace ((inject_Z (cond_Zopp sx (Zpos (fst (shl_align mx ex ez)))) +
                       - inject_Z (cond_Zopp sy (Zpos (fst (shl_align my ey ez))))) * pow2 ez)%Q
        with (inject_Z (cond_Zopp sx (Zpos (fst (shl_align mx ex ez)))) * pow2 ez -
              inject_Z (cond_Zopp sy (Zpos (fst (shl_align my ey ez)))) * pow2 ez)%Q using relation Qeq by ring.
      rewrite !aligned_value by (subst ez; lia). reflexivity. }
    eapply rounds_ext; [exact HX|].
    apply binary_normalize_rounds.
Qed.

Lemma new_location_ok (m2 r q : Z) :
  0 < m2 -> 0 <= r < m2 ->
  loc_ok q (new_location m2 r) (inject_Z q + inject_Z r / inject_Z m2).
Proof.
  intros Hm [Hr0 Hr].
  assert (HM : (0 < inject_Z m2)%Q).
  { change 0%Q with (inject_Z 0). rewrite <- Zlt_Qlt. exact Hm. }
  set (t := (inject_Z r / inject_Z m2)%Q).
  assert (Ht : (t * inject_Z m2 == inject_Z r)%Q) by (subst t; field; lra).
  assert (Hcmp : forall c, (2 * r ?= m2) = c ->
            match c with
            | Lt => (2 * t < 1)%Q
            | Eq => (2 * t == 1)%Q
            | Gt => (1 < 2 * t)%Q
            end).
  { intros c Hc. destruct c.
    - apply Z.compare_eq in Hc.
      assert (H2 : (2 * inject_Z r == inject_Z m2)%Q).
      { rewrite <- Hc, inject_Z_mult. reflexivity. }
      apply Qle_antisym; nra.
    - assert (Hlt : 2 * r < m2) by (apply Z.compare_lt_iff; exact Hc).
      rewrite Zlt_Qlt, inject_Z_mult in Hlt.
      change (inject_Z 2) with 2%Q in Hlt. nra.
    - assert (Hgt : m2 < 2 * r) by (apply Z.compare_gt_iff; exact Hc).
      rewrite Zlt_Qlt, inject_Z_mult in Hgt.
      change (inject_Z 2) with 2%Q in Hgt. nra. }
  assert (Ht0 : r <> 0 -> (0 < t)%Q).
  { intros Hne. assert (0 < r) by lia.
    assert (0 < inject_Z r)%Q.
    { change 0%Q with (inject_Z 0). rewrite <- Zlt_Qlt. assumption. }
    nra. }
  assert (Ht1 : (t < 1)%Q).
  { rewrite Zlt_Qlt in Hr. nra. }
  unfold new_location.
  destruct (Z.even m2) eqn:Ev.
  - unfold new_location_even. destruct (Z.eqb_spec r 0) as [->|Hne].
    + cbn. subst t. unfold Qdiv. change (inject_Z 0) with 0%Q. ring.
    + specialize (Ht0 Hne). specialize (Hcmp _ eq_refl).
      destruct (2 * r ?= m2); cbn; lra.
  - unfold new_location_odd. destruct (Z.eqb_spec r 0) as [->|Hne].
    + cbn. subst t. unfold Qdiv. change (inject_Z 0) with 0%Q. ring.
    + specialize (Ht0 Hne).
      assert (Hodd : 2 * r <> m2).
      { intros <-. rewrite Z.even_mul in Ev. discriminate. }
      destruct (2 * r + 1 ?= m2) eqn:Hc.
      * apply Z.compare_eq in Hc.
        assert (Hlt : (2 * r ?= m2) = Lt) by (apply Z.compare_lt_iff; lia).
        specialize (Hcmp _ Hlt). cbn in *. lra.
      * assert (Hc' : 2 * r + 1 < m2) by (apply Z.compare_lt_iff; exact Hc).
        assert (Hlt : (2 * r ?= m2) = Lt) by (apply Z.compare_lt_iff; lia).
        specialize (Hcmp _ Hlt). cbn in *. lra.
      * assert (Hc' : m2 < 2 * r + 1) by (apply Z.compare_gt_iff; exact Hc).
        assert (Hgt : (2 * r ?= m2) = Gt) by (apply Z.compare_gt_iff; lia).
        specialize (Hcmp _ Hgt). cbn in *. lra.
Qed.

(** The quotient computed by [SFdiv_core_binary], its exponent and the
    location of the exact quotient. *)
Lemma SFdiv_core_binary_ok (mx my : positive) (ex ey : Z) :
  let '(q, e', l) := SFdiv_core_binary prec emax (Zpos mx) ex (Zpos my) ey in
  exists Y : Q,
    0 <= q /\ loc_ok q l Y /\
    (Y * pow2 e' == inject_Z (Zpos mx) * pow2 ex / (inject_Z (Zpos my) * pow2 ey))%Q /\
    e' <= fexp (Zdigits2 q + e').
Proof.
  unfold SFdiv_core_binary.
  set (d1 := Zdigits2 (Zpos mx)). set (d2 := Zdigits2 (Zpos my)).
  set (kappa := d1 + ex - (d2 + ey)).
  set (e' := Z.min (fexp kappa) (ex - ey)).
  set (s := ex - ey - e').
  assert (Hs : 0 <= s) by (subst s e'; lia).
  set (m' := match s with
             | 0 => Zpos mx
             | Zpos _ => Z.shiftl (Zpos mx) s
             | Zneg _ => 0
             end).
  assert (Hm' : m' = Zpos mx * 2 ^ s).
  { subst m'. destruct s as [|p|p] eqn:Es; [cbn; lia | | lia].
    rewrite Z.shiftl_mul_pow2 by lia. reflexivity. }
  pose proof (Z_div_mod m' (Zpos my) ltac:(lia)) as Hdm.
  destruct (Z.div_eucl m' (Zpos my)) as [q r]. destruct Hdm as [Hqr Hr].
  assert (Hp : 0 < 2 ^ s) by (apply Z.pow_pos_nonneg; lia).
  assert (Hq : 0 <= q) by nia.
  exists (inject_Z q + inject_Z r / inject_Z (Zpos my))%Q.
  split; [exact Hq|]. split; [apply new_location_ok; lia|]. split.
  - assert (HM : (0 < inject_Z (Zpos my))%Q) by reflexivity.
    pose proof (pow2_pos ey) as Hpe.
    setoid_replace (inject_Z q + inject_Z r / inject_Z (Zpos my))%Q
      with (inject_Z m' / inject_Z (Zpos my))%Q using relation Qeq.
    2:{ rewrite Hqr, inject_Z_plus, inject_Z_mult. field. lra. }
    rewrite Hm', inject_Z_mult, pow2_inject by lia.
    setoid_replace (pow2 ex) with (pow2 s * pow2 e' * pow2 ey)%Q using relation Qeq.
    2:{ rewrite <- !pow2_add. replace (s + e' + ey) with ex by (subst s; ring).
        reflexivity. }
    field. split; lra.
  - (* the quotient has enough digits *)
    pose proof (digits2_pos_bounds mx) as [Hx1 Hx2].
    pose proof (digits2_pos_bounds my) as [Hy1 Hy2].
    fold (Zdigits2 (Zpos mx)) in Hx1, Hx2. fold (Zdigits2 (Zpos my)) in Hy1, Hy2.
    fold d1 in Hx1, Hx2. fold d2 in Hy1, Hy2.
    assert (Hd1 : 0 < d1) by (subst d1; cbn; lia).
    assert (Hd2 : 0 < d2) by (subst d2; cbn; lia).
    assert (Hm'lo : 2 ^ (d1 + s - 1) <= m').
    { rewrite Hm'. replace (d1 + s - 1) with ((d1 - 1) + s) by ring.
      rewrite Z.pow_add_r by lia. nia. }
    destruct (Z.eq_dec q 0) as [Hq0|Hq0].
    + (* the quotient is zero only deep in the subnormal range *)
      subst q. cbn [Zdigits2 Z.add].
      assert (Hlt : 2 ^ (d1 + s - 1) < 2 ^ d2) by lia.
      apply Z.pow_lt_mono_r_iff in Hlt; [|lia|lia].
      unfold SpecFloat.fexp in *. subst s e' kappa. lia.
    + assert (Hqpos : 0 < q) by lia.
      apply Z.le_trans with (fexp kappa); [subst e'; lia|].
      apply fexp_mono.
      pose proof (Zdigits2_bounds q Hqpos) as [_ Hq2].
      pose proof (Zdigits2_pos q Hqpos) as Hdq.
      destruct (Z_le_gt_dec (d1 + s - d2) 0) as [Hsmall|Hbig].
      * subst kappa s. lia.
      * assert (Hqlo : 2 ^ (d1 + s - d2 - 1) <= q).
        { apply Z.lt_succ_r.
          apply Z.mul_lt_mono_pos_l with (Zpos my); [lia|].
          assert (Hpw : 0 < 2 ^ (d1 + s - d2 - 1)) by (apply Z.pow_pos_nonneg; lia).
          assert (Zpos my * 2 ^ (d1 + s - d2 - 1) < 2 ^ d2 * 2 ^ (d1 + s - d2 - 1)) by nia.
          rewrite <- Z.pow_add_r in H by lia.
          replace (d2 + (d1 + s - d2 - 1)) with (d1 + s - 1) in H by ring.
          nia. }
        assert (Hlt : 2 ^ (d1 + s - d2 - 1) < 2 ^ Zdigits2 q) by lia.
        apply Z.pow_lt_mono_r_iff in Hlt; [|lia|lia].
        subst kappa s. lia.
Qed.

Theorem SFdiv_rounds x sy my ey :
  finite_valid x -> bounded prec emax my ey = true ->
  rounds (B2Q x / F2Q sy my ey) (SFdiv prec emax x (S754_finite sy my ey)).
Proof.
  intros Hx Hy.
  destruct x as [sx|sx| |sx mx ex]; try contradiction; cbn [SFdiv B2Q].
  - left. eapply rounded_ext; [|apply rounded_zero]. unfold Qdiv. ring.
  - pose proof (SFdiv_core_binary_ok mx my ex ey) as H.
    destruct (SFdiv_core_binary prec emax (Zpos mx) ex (Zpos my) ey) as [[q e'] l].
    destruct H as (Y & Hq & Hloc & HY & Hbits).
    assert (HM : (0 < inject_Z (Zpos my))%Q) by reflexivity.
    pose proof (pow2_pos ey) as Hpe.
    assert (HX : (sign_of (xorb sx sy) * (Y * pow2 e') ==
                  F2Q sx mx ex / F2Q sy my ey)%Q).
    { rewrite HY, !F2Q_sign.
      destruct sx, sy; cbn [xorb sign_of]; field; split; lra. }
    eapply rounds_ext; [exact HX|].
    apply binary_round_aux_rounds; assumption.
Qed.

(** Canonical floats are ordered by exponent first. *)
Lemma canonical_exponent_lt m1 e1 m2 e2 :
  bounded prec emax m1 e1 = true -> bounded prec emax m2 e2 = true ->
  e1 < e2 ->
  (inject_Z (Zpos m1) * pow2 e1 < inject_Z (Zpos m2) * pow2 e2)%Q.
Proof.
  intros H1 H2 Hlt.
  destruct (canonical_cases m1 e1 H1) as [[Hd1 He1]|[He1 Hd1]];
  destruct (canonical_cases m2 e2 H2) as [[Hd2 He2]|[He2 Hd2]]; try lia.
  all: pose proof (mag_of_mantissa (Zpos m1) e1 (inject_Z (Zpos m1)) ltac:(lia)
                     ltac:(lra) ltac:(lra)) as [_ Hhi];
       pose proof (mag_of_mantissa (Zpos m2) e2 (inject_Z (Zpos m2)) ltac:(lia)
                     ltac:(lra) ltac:(lra)) as [Hlo _];
       cbn [Zdigits2] in Hhi, Hlo;
       assert (pow2 (Zpos (digits2_pos m1) + e1) <=
               pow2 (Zpos (digits2_pos m2) + e2 - 1))%Q by (apply pow2_le; lia);
       lra.
Qed.

Lemma Qcompare_Lt a b : (a < b)%Q -> Qcompare a b = Lt.
Proof. intros H. apply Qlt_alt. exact H. Qed.

Lemma Qcompare_Gt a b : (b < a)%Q -> Qcompare a b = Gt.
Proof. intros H. apply Qgt_alt. exact H. Qed.

Lemma Qcompare_Eq a b : (a == b)%Q -> Qcompare a b = Eq.
Proof. intros H. apply Qeq_alt. exact H. Qed.

Lemma compare_magnitudes m1 e1 m2 e2 :
  bounded prec emax m1 e1 = true -> bounded prec emax m2 e2 = true ->
  match Z.compare e1 e2 with
  | Lt => Lt
  | Gt => Gt
  | Eq => Pos.compare_cont Eq m1 m2
  end = Qcompare (inject_Z (Zpos m1) * pow2 e1) (inject_Z (Zpos m2) * pow2 e2).
Proof.
  intros H1 H2. symmetry. destruct (Z.compare_spec e1 e2) as [->|Hlt|Hgt].
  - pose proof (pow2_pos e2) as Hp. change (Pos.compare_cont Eq m1 m2) with (Pos.compare m1 m2).
    destruct (Pos.compare_spec m1 m2) as [->|Hm|Hm].
    + apply Qcompare_Eq. reflexivity.
    + apply Qcompare_Lt. assert (inject_Z (Zpos m1) < inject_Z (Zpos m2))%Q
        by (rewrite <- Zlt_Qlt; lia). nra.
    + apply Qcompare_Gt. assert (inject_Z (Zpos m2) < inject_Z (Zpos m1))%Q
        by (rewrite <- Zlt_Qlt; lia). nra.
  - apply Qcompare_Lt. apply canonical_exponent_lt; assumption.
  - apply Qcompare_Gt. apply canonical_exponent_lt; assumption.
Qed.

Lemma Qcompare_opp a b : Qcompare (- a) (- b) = CompOpp (Qcompare a b).
Proof.
  destruct (Qcompare a b) eqn:E; cbn [CompOpp].
  - apply Qeq_alt in E. apply Qcompare_Eq. rewrite E. reflexivity.
  - apply Qlt_alt in E. apply Qcompare_Gt. lra.
  - apply Qgt_alt in E. apply Qcompare_Lt. lra.
Qed.

(** On canonical floats [SFcompare] compares the values. *)
Theorem SFcompare_correct x y :
  finite_valid x -> finite_valid y ->
  SFcompare x y = Some (Qcompare (B2Q x) (B2Q y)).
Proof.
  intros Hx Hy.
  destruct x as [sx|sx| |sx mx ex], y as [sy|sy| |sy my ey]; try contradiction;
    cbn [SFcompare B2Q].
  - reflexivity.
  - f_equal. symmetry. pose proof (pow2_pos ey).
    assert (0 < inject_Z (Zpos my))%Q by reflexivity.
    destruct sy; [rewrite F2Q_true; apply Qcompare_Gt | rewrite F2Q_false; apply Qcompare_Lt]; nra.
  - f_equal. symmetry. pose proof (pow2_pos ex).
    assert (0 < inject_Z (Zpos mx))%Q by reflexivity.
    destruct sx; [rewrite F2Q_true; apply Qcompare_Lt | rewrite F2Q_false; apply Qcompare_Gt]; nra.
  - f_equal. pose proof (pow2_pos ex). pose proof (pow2_pos ey).
    assert (0 < inject_Z (Zpos mx))%Q by reflexivity.
    assert (0 < inject_Z (Zpos my))%Q by reflexivity.
    destruct sx, sy.
    + rewrite !F2Q_true, Qcompare_opp. f_equal.
      rewrite <- (compare_magnitudes mx ex my ey Hx Hy).
      destruct (ex ?= ey); reflexivity.
    + rewrite F2Q_true, F2Q_false. symmetry. apply Qcompare_Lt. nra.
    + rewrite F2Q_true, F2Q_false. symmetry. apply Qcompare_Gt. nra.
    + rewrite !F2Q_false. apply compare_magnitudes; assumption.
Qed.

Corollary SFltb_correct x y :
  finite_valid x -> finite_valid y ->
  SFltb x y = true <-> (B2Q x < B2Q y)%Q.
Proof.
  intros Hx Hy. unfold SFltb. rewrite SFcompare_correct by assumption.
  rewrite Qlt_alt. destruct (Qcompare (B2Q x) (B2Q y)); split; congruence.
Qed.

Corollary SFleb_correct x y :
  finite_valid x -> finite_valid y ->
  SFleb x y = true <-> (B2Q x <= B2Q y)%Q.
Proof.
  intros Hx Hy. unfold SFleb. rewrite SFcompare_correct by assumption.
  rewrite Qle_alt. destruct (Qcompare (B2Q x) (B2Q y)); split; congruence.
Qed.

End Operations.

(** ** Rounding next to a float of the format *)

(** A number rounds to the grid point from which it is less than half a
    step away. *)
Lemma round_to_grid_near E X (n e0 : Z) :
  E <= e0 -> (Qabs (X - inject_Z n * pow2 e0) < pow2 (E - 1))%Q ->
  (round_to E X == inject_Z n * pow2 e0)%Q.
Proof.
  intros HE Hnear. unfold round_to.
  assert (Hgrid : (inject_Z (n * 2 ^ (e0 - E)) * pow2 E == inject_Z n * pow2 e0)%Q).
  { rewrite inject_Z_mult, pow2_inject by lia.
    rewrite <- Qmult_assoc, <- pow2_add. replace (e0 - E + E) with e0 by ring. reflexivity. }
  rewrite <- Hgrid in Hnear |- *.
  set (N := inject_Z (n * 2 ^ (e0 - E))) in *.
  assert (HR : RNE (X * pow2 (- E)) = n * 2 ^ (e0 - E)).
  { apply RNE_unique. left. fold N.
    apply Qabs_Qlt_condition in Hnear. rewrite pow2_pred in Hnear.
    pose proof (pow2_pos E) as Hp. pose proof (pow2_pos (- E)) as Hp'.
    pose proof (pow2_cancel E) as Hc.
    set (p := pow2 E) in *. set (p' := pow2 (- E)) in *.
    assert (H1 : ((X - N * p) * p' == X * p' - N)%Q).
    { setoid_replace ((X - N * p) * p')%Q with (X * p' - N * (p' * p))%Q using relation Qeq by ring.
      rewrite Hc. ring. }
    assert (H2 : (p / 2 * p' == 1 # 2)%Q).
    { setoid_replace (p / 2 * p')%Q with ((p' * p) * (1 # 2))%Q using relation Qeq by field.
      rewrite Hc. reflexivity. }
    destruct Hnear as [Hl Hh].
    assert (Hl' : (- (p / 2) * p' < (X - N * p) * p')%Q) by nra.
    assert (Hh' : ((X - N * p) * p' < p / 2 * p')%Q) by nra.
    rewrite H1 in Hl', Hh'.
    setoid_replace (- (p / 2) * p')%Q with (- (p / 2 * p'))%Q using relation Qeq in Hl' by ring.
    rewrite H2 in Hl', Hh'. lra. }
  rewrite HR. reflexivity.
Qed.

Section Near.

Variables prec emax : Z.
Hypothesis prec_gt_1 : 1 < prec.

(** The mantissa of a canonical float leaves room below the next binade. *)
Lemma valid_room s m e :
  bounded prec emax m e = true ->
  (Qabs (F2Q s m e) + pow2 e <= pow2 (e + prec))%Q.
Proof.
  intros Hb. pose proof (valid_cexp prec emax s m e Hb) as (_ & Hhi & _).
  rewrite F2Q_abs in Hhi |- *. rewrite pow2_add in Hhi |- *.
  pose proof (pow2_pos e) as Hp.
  assert (Hm : (inject_Z (Z.pos m) < pow2 prec)%Q) by nra.
  rewrite <- (pow2_inject prec) in Hm |- * by lia. rewrite <- Zlt_Qlt in Hm.
  assert (Hm' : (inject_Z (Z.pos m) + 1 <= inject_Z (2 ^ prec))%Q).
  { change 1%Q with (inject_Z 1). rewrite <- inject_Z_plus, <- Zle_Qle. lia. }
  nra.
Qed.

(** A number within a relative distance [2^-(prec+2)] of a canonical float
    rounds to that float. *)
Lemma round_to_near X E s m e :
  bounded prec emax m e = true ->
  (Qabs (X - F2Q s m e) <= Qabs (F2Q s m e) * pow2 (- (prec + 2)))%Q ->
  cexp_ok prec emax E X ->
  (round_to E X == F2Q s m e)%Q.
Proof.
  intros Hb Hnear (Hmin & Hhi & Hlo).
  pose proof (valid_room s m e Hb) as Hroom.
  pose proof (valid_cexp prec emax s m e Hb) as (Hmin' & _ & _).
  pose proof (Qabs_triangle_reverse X (F2Q s m e)) as Ht1.
  pose proof (Qabs_triangle_reverse (F2Q s m e) X) as Ht2.
  rewrite (Qabs_Qminus (F2Q s m e) X) in Ht2.
  pose proof (Qabs_nonneg (F2Q s m e)) as Hc0.
  set (c := Qabs (F2Q s m e)) in *. set (x := Qabs X) in *.
  set (d := Qabs (X - F2Q s m e)) in *.
  pose proof (pow2_pos e) as Hpe.
  assert (Hu8 : (pow2 (- (prec + 2)) <= 1 # 8)%Q).
  { change (1 # 8)%Q with (pow2 (- 3)). apply pow2_le. lia. }
  pose proof (pow2_pos (- (prec + 2))) as Hu0.
  assert (Hd : (d < pow2 e)%Q).
  { assert (H : (pow2 (e + prec) * pow2 (- (prec + 2)) == pow2 e * (1 # 4))%Q).
    { rewrite <- pow2_add. replace (e + prec + - (prec + 2)) with (e + - 2) by ring.
      rewrite pow2_add. reflexivity. }
    assert (c * pow2 (- (prec + 2)) <= pow2 (e + prec) * pow2 (- (prec + 2)))%Q by nra.
    lra. }
  assert (HE : E <= e).
  { destruct Hlo as [->|Hlo]; [exact Hmin'|].
    assert (Hlt : (pow2 (E + prec - 1) < pow2 (e + prec))%Q) by lra.
    apply pow2_lt_inv in Hlt. lia. }
  apply (round_to_grid_near E X (cond_Zopp s (Z.pos m)) e HE).
  fold (F2Q s m e). fold d.
  assert (Hc2 : (c < 2 * pow2 (E + prec))%Q) by nra.
  assert (H : (2 * pow2 (E + prec) * pow2 (- (prec + 2)) == pow2 (E - 1))%Q).
  { rewrite <- pow2_succ, <- pow2_add.
    replace (E + prec + 1 + - (prec + 2)) with (E - 1) by ring. reflexivity. }
  assert (c * pow2 (- (prec + 2)) < 2 * pow2 (E + prec) * pow2 (- (prec + 2)))%Q by nra.
  lra.
Qed.

Lemma rounds_near X r s m e :
  bounded prec emax m e = true ->
  (Qabs (X - F2Q s m e) <= Qabs (F2Q s m e) * pow2 (- (prec + 2)))%Q ->
  rounds prec emax X r ->
  rounded prec emax X r /\ (B2Q r == F2Q s m e)%Q.
Proof.
  intros Hb Hnear [Hr|[_ (E & Hc & Ho)]].
  - split; [exact Hr|]. destruct Hr as [_ (E & Hc & Hv)].
    rewrite Hv. apply round_to_near; assumption.
  - exfalso. rewrite (round_to_near X E s m e Hb Hnear Hc) in Ho.
    pose proof (valid_lt_emax prec emax (S754_finite s m e) Hb) as Hlt.
    cbn [B2Q] in Hlt. lra.
Qed.

(** There is no overflow below a number that rounds into the format. *)
Lemma rounds_dominated X r X' r' :
  rounds prec emax X r -> rounded prec emax X' r' -> (Qabs X <= Qabs X')%Q ->
  rounded prec emax X r.
Proof.
  intros [Hr|[_ (E & Hc & Hb)]] [Hv (E' & Hc' & Hb')] Hle; [exact Hr|exfalso].
  pose proof (valid_lt_emax prec emax r' Hv) as Hlt.
  assert (Hm : (round_to E (Qabs X) <= round_to E' (Qabs X'))%Q).
  { apply (round_to_mono_cexp prec emax prec_gt_1);
      [apply Qabs_nonneg | exact Hle | apply cexp_ok_abs; exact Hc
      | apply cexp_ok_abs; exact Hc']. }
  rewrite <- !round_to_abs in Hm. rewrite <- Hb' in Hm. lra.
Qed.

Lemma rounds_between X r Xl rl Xh rh :
  rounds prec emax X r -> rounded prec emax Xl rl -> rounded prec emax Xh rh ->
  (Xl <= X)%Q -> (X <= Xh)%Q -> rounded prec emax X r.
Proof.
  intros Hr Hl Hh Hle Hge. destruct (Qlt_le_dec X 0) as [Hneg|Hpos].
  - apply (rounds_dominated X r Xl rl Hr Hl).
    rewrite !Qabs_neg by lra. lra.
  - apply (rounds_dominated X r Xh rh Hr Hh).
    rewrite !Qabs_pos by lra. lra.
Qed.

End Near.

(** * Numbers, lengths and indices *)

(** ** The two formats *)

#[export] Instance rounded_proper prec emax :
  Proper (Qeq ==> eq ==> iff) (rounded prec emax).
Proof.
  intros X X' HX r r' <-. split; apply rounded_ext; [|symmetry]; exact HX.
Qed.

#[export] Instance rounds_proper prec emax :
  Proper (Qeq ==> eq ==> iff) (rounds prec emax).
Proof.
  intros X X' HX r r' <-. split; apply rounds_ext; [|symmetry]; exact HX.
Qed.

Lemma prec64 : 1 < 53. Proof. lia. Qed.
Lemma emax64 : 53 < 1024. Proof. lia. Qed.
Lemma prec32 : 1 < 24. Proof. lia. Qed.
Lemma emax32 : 24 < 128. Proof. lia. Qed.

Lemma valid64_well_formed x : valid64 x -> well_formed x.
Proof. destruct x; unfold well_formed; cbn; trivial. Qed.

Lemma rounds64_well_formed X r : rounds64 X r -> well_formed r.
Proof.
  intros [[Hv _]|[[s ->] _]]; [apply valid64_well_formed; exact Hv | reflexivity].
Qed.

(** *** Integers as numbers *)

Lemma of_Z_rounds z : rounds64 (inject_Z z) (JS.of_Z z).
Proof.
  unfold JS.of_Z. eapply rounds_ext; [|apply (binary_normalize_rounds 53 1024 prec64 emax64)].
  rewrite pow2_0. ring.
Qed.

Lemma pow2_pos_Z k : 0 <= k -> (pow2 k == inject_Z (2 ^ k))%Q.
Proof. intros H. symmetry. apply pow2_inject. exact H. Qed.

Lemma Qabs_inject_Z z : (Qabs (inject_Z z) == inject_Z (Z.abs z))%Q.
Proof.
  destruct (Z_lt_le_dec z 0) as [H|H].
  - rewrite Qabs_neg, Z.abs_neq, inject_Z_opp by (try lia; change 0%Q with (inject_Z 0);
      rewrite <- Zle_Qle; lia). reflexivity.
  - rewrite Qabs_pos, Z.abs_eq by (try lia; change 0%Q with (inject_Z 0);
      rewrite <- Zle_Qle; lia). reflexivity.
Qed.

(** Integers below [2^53] are numbers. *)
Lemma of_Z_exact z :
  Z.abs z < 2 ^ 53 -> valid64 (JS.of_Z z) /\ (B2Q (JS.of_Z z) == inject_Z z)%Q.
Proof.
  intros Hz.
  assert (Habs : (Qabs (inject_Z z) < pow2 53)%Q).
  { rewrite Qabs_inject_Z, pow2_pos_Z by lia. rewrite <- Zlt_Qlt. exact Hz. }
  assert (Hr : rounded64 (inject_Z z) (JS.of_Z z)).
  { apply (rounds_small 53 1024 prec64 emax64); [apply of_Z_rounds|].
    apply Qlt_trans with (pow2 53); [exact Habs | apply pow2_lt; lia]. }
  split; [apply Hr|].
  apply (rounded_exact_grid 53 1024 _ _ z 0 Hr).
  - rewrite pow2_0. ring.
  - unfold emin. lia.
  - exact Habs.
Qed.

(** *** Integer parts *)

Lemma pow2_neg_inv e : e < 0 -> (pow2 e == / inject_Z (2 ^ (- e)))%Q.
Proof.
  intros H. rewrite pow2_inject by lia. rewrite <- pow2_opp.
  replace (- - e) with e by ring. reflexivity.
Qed.

Lemma dyadic_floor_spec n e : JS.dyadic_floor n e = Qfloor (inject_Z n * pow2 e).
Proof.
  unfold JS.dyadic_floor. destruct (Z.leb_spec 0 e) as [He|He].
  - rewrite <- pow2_inject, <- inject_Z_mult by exact He. symmetry. apply Qfloor_Z.
  - rewrite Zdiv_Qdiv. apply Qfloor_comp. unfold Qdiv.
    rewrite pow2_neg_inv by exact He. reflexivity.
Qed.

Lemma dyadic_round_half_up_spec n e :
  JS.dyadic_round_half_up n e = Qfloor (inject_Z n * pow2 e + (1 # 2)).
Proof.
  unfold JS.dyadic_round_half_up. destruct (Z.leb_spec 0 e) as [He|He].
  - rewrite <- pow2_inject, <- inject_Z_mult by exact He.
    symmetry. apply Qfloor_unique; lra.
  - rewrite Zdiv_Qdiv. apply Qfloor_comp.
    rewrite pow2_neg_inv by exact He.
    assert (Hp : 0 < 2 ^ (- e)) by (apply Z.pow_pos_nonneg; lia).
    assert (HP : (0 < inject_Z (2 ^ (- e)))%Q).
    { change 0%Q with (inject_Z 0). rewrite <- Zlt_Qlt. exact Hp. }
    rewrite Z.pow_add_r by lia. change (2 ^ 1) with 2.
    rewrite inject_Z_plus, !inject_Z_mult. change (inject_Z 2) with 2%Q.
    field. lra.
Qed.

Lemma B2Q_finite s m e :
  (B2Q (S754_finite s m e) == inject_Z (JS.signed s m) * pow2 e)%Q.
Proof. reflexivity. Qed.

(** The integer behind a float whose value is whole. *)
Lemma integral_mantissa n e z :
  (inject_Z n * pow2 e == inject_Z z)%Q ->
  if 0 <=? e then n * 2 ^ e = z else n = z * 2 ^ (- e).
Proof.
  intros H. destruct (Z.leb_spec 0 e) as [He|He].
  - apply inject_Z_injective. rewrite inject_Z_mult, pow2_inject by exact He. exact H.
  - apply inject_Z_injective. rewrite inject_Z_mult, pow2_inject by lia.
    rewrite <- H, <- Qmult_assoc, <- pow2_add. replace (e + - e) with 0 by ring.
    rewrite pow2_0. ring.
Qed.

Lemma integer_value_spec x z :
  is_finite x = true -> (B2Q x == inject_Z z)%Q -> JS.integer_value x = Some z.
Proof.
  destruct x as [s|s| |s m e]; try discriminate; intros _ H; cbn [JS.integer_value].
  - cbn [B2Q] in H.
    assert (Hz : z = 0) by (apply inject_Z_injective; rewrite <- H; reflexivity).
    congruence.
  - rewrite B2Q_finite in H. apply integral_mantissa in H.
    destruct (0 <=? e) eqn:He; [congruence|].
    apply Z.leb_gt in He.
    assert (Hp : 0 < 2 ^ (- e)) by (apply Z.pow_pos_nonneg; lia).
    assert (Hm : Zpos m = Z.abs z * 2 ^ (- e)).
    { unfold JS.signed in H. destruct s; cbn [cond_Zopp] in H; nia. }
    rewrite Hm, Z.mod_mul by lia. cbn [Z.eqb].
    rewrite H, Z.div_mul by lia. reflexivity.
Qed.

Lemma ToIndex_spec x z :
  is_finite x = true -> (B2Q x == inject_Z z)%Q ->
  JS.ToIndex x =
    if (0 <=? z) && (z <=? 2 ^ 53 - 1) then JS.Normal z else JS.Throw JS.RangeError.
Proof.
  destruct x as [s|s| |s m e]; try discriminate; intros _ H; cbn [JS.ToIndex].
  - cbn [B2Q] in H.
    assert (Hz : z = 0) by (apply inject_Z_injective; rewrite <- H; reflexivity).
    subst z. reflexivity.
  - rewrite B2Q_finite in H. apply integral_mantissa in H.
    assert (Ht : JS.dyadic_trunc (JS.signed s m) e = z).
    { unfold JS.dyadic_trunc. destruct (0 <=? e) eqn:He; [exact H|].
      apply Z.leb_gt in He.
      assert (Hp : 0 < 2 ^ (- e)) by (apply Z.pow_pos_nonneg; lia).
      rewrite H. apply Z.quot_mul. lia. }
    rewrite Ht. reflexivity.
Qed.

Lemma Math_floor_finite s m e :
  JS.Math_floor (S754_finite s m e) = JS.of_Z (Qfloor (B2Q (S754_finite s m e))).
Proof. cbn [JS.Math_floor]. rewrite dyadic_floor_spec. reflexivity. Qed.

Lemma dyadic_trunc_nonneg n e : 0 <= n -> JS.dyadic_trunc n e = JS.dyadic_floor n e.
Proof.
  intros Hn. unfold JS.dyadic_trunc, JS.dyadic_floor.
  destruct (Z.leb_spec 0 e); [reflexivity|].
  apply Z.quot_div_nonneg; [exact Hn|]. apply Z.pow_pos_nonneg; lia.
Qed.

Lemma dyadic_trunc_neg n e : n < 0 -> JS.dyadic_trunc n e <= 0.
Proof.
  intros Hn. unfold JS.dyadic_trunc. destruct (Z.leb_spec 0 e) as [He|He].
  - assert (0 < 2 ^ e) by (apply Z.pow_pos_nonneg; lia). nia.
  - assert (0 < 2 ^ (- e)) by (apply Z.pow_pos_nonneg; lia).
    assert (Hq : Z.quot (- n) (2 ^ (- e)) = - Z.quot n (2 ^ (- e)))
      by (apply Z.quot_opp_l; lia).
    assert (0 <= Z.quot (- n) (2 ^ (- e))) by (apply Z.quot_pos; lia). lia.
Qed.

(** A positive array length is the integer part of a positive number. *)
Lemma ToIndex_positive x n :
  JS.ToIndex x = JS.Normal n -> 1 <= n ->
  exists m e, x = S754_finite false m e /\ n = Qfloor (B2Q x) /\ n <= 2 ^ 53 - 1.
Proof.
  destruct x as [s|s| |s m e]; cbn [JS.ToIndex]; try (intros [= <-]; lia); try discriminate.
  set (t := JS.dyadic_trunc (JS.signed s m) e).
  destruct (Z.leb_spec 0 t) as [Ht|Ht]; cbn [andb]; [|discriminate].
  destruct (Z.leb_spec t (2 ^ 53 - 1)) as [Ht'|Ht']; [|discriminate].
  intros [= <-] Hn. destruct s.
  - pose proof (dyadic_trunc_neg (JS.signed true m) e ltac:(cbn; lia)). lia.
  - exists m, e. split; [reflexivity|]. split; [|exact Ht'].
    subst t. rewrite dyadic_trunc_nonneg by (cbn; lia).
    rewrite dyadic_floor_spec. reflexivity.
Qed.

Lemma new_length v (a : list spec_float) :
  F32.new v = JS.Normal a ->
  JS.ToIndex v = JS.Normal (Z.of_nat (length a)) /\ 4 * Z.of_nat (length a) <= 2 ^ 53 - 1.
Proof.
  unfold F32.new. destruct (JS.ToIndex v) as [n|e] eqn:E; [|congruence].
  destruct (Z.leb_spec (4 * n) (2 ^ 53 - 1)) as [H4|H4]; [|congruence].
  intros [= <-]. rewrite length_replicate.
  assert (0 <= n).
  { destruct v as [s|s| |s m e]; cbn [JS.ToIndex] in E; try (injection E as <-; lia);
      try discriminate.
    destruct (Z.leb_spec 0 (JS.dyadic_trunc (JS.signed s m) e)); cbn [andb] in E;
      [|discriminate].
    destruct (_ <=? _); [|discriminate]. injection E as <-. assumption. }
  rewrite Z2Nat.id by assumption. split; [reflexivity | exact H4].
Qed.

Lemma valid64_is_finite x : valid64 x -> is_finite x = true.
Proof. destruct x; cbn; trivial; contradiction. Qed.

Lemma Math_round_finite s m e :
  JS.Math_round (S754_finite s m e) =
    if Qfloor (B2Q (S754_finite s m e) + (1 # 2)) =? 0 then S754_zero s
    else JS.of_Z (Qfloor (B2Q (S754_finite s m e) + (1 # 2))).
Proof. cbn [JS.Math_round]. rewrite dyadic_round_half_up_spec. reflexivity. Qed.

(** The length computed by [Math.round], when it is a positive array
    length: the number was positive, and the length is the integer nearest
    to it, ties upwards. *)
Lemma Math_round_positive q n :
  valid64 q -> JS.ToIndex (JS.Math_round q) = JS.Normal n -> 1 <= n -> n < 2 ^ 52 ->
  n = Qfloor (B2Q q + (1 # 2)).
Proof.
  intros Hq Hn H1 H52.
  destruct q as [s|s| |s m e]; try contradiction.
  { cbn in Hn. injection Hn as <-. lia. }
  rewrite Math_round_finite in Hn.
  set (z := Qfloor (B2Q (S754_finite s m e) + (1 # 2))) in *.
  destruct (Z.eqb_spec z 0) as [Hz|Hz].
  { cbn in Hn. injection Hn as <-. lia. }
  destruct (Z_lt_le_dec (Z.abs z) (2 ^ 53)) as [Hsmall|Hbig].
  - destruct (of_Z_exact z Hsmall) as [Hv Hval].
    rewrite (ToIndex_spec _ z) in Hn; [|apply valid64_is_finite; exact Hv|exact Hval].
    destruct ((0 <=? z) && (z <=? 2 ^ 53 - 1)); [|discriminate]. congruence.
  - exfalso.
    destruct (ToIndex_positive _ _ Hn H1) as (m' & e' & Hx & Hfl & _).
    destruct (of_Z_rounds z) as [Hr|[[s' Hinf] _]]; [|congruence].
    destruct (of_Z_exact (2 ^ 52) ltac:(lia)) as [Hv52 Hval52].
    assert (Hzpos : 0 <= z).
    { destruct (Z_lt_le_dec z 0) as [Hneg|]; [|assumption].
      assert (Hle : (B2Q (JS.of_Z z) <= 0)%Q).
      { apply (rounded_nonpos 53 1024 (inject_Z z)); [|exact Hr].
        change 0%Q with (inject_Z 0). rewrite <- Zle_Qle. lia. }
      rewrite Hx in Hle. cbn [B2Q] in Hle. rewrite F2Q_false in Hle.
      pose proof (pow2_pos e'). assert (0 < inject_Z (Zpos m'))%Q by reflexivity. nra. }
    assert (Hge : (B2Q (JS.of_Z (2 ^ 52)) <= B2Q (JS.of_Z z))%Q).
    { apply (rounded_mono 53 1024 prec64 (inject_Z (2 ^ 52)) (inject_Z z)).
      - rewrite <- Zle_Qle. lia.
      - apply (rounded_self 53 1024) in Hv52.
        eapply rounded_ext; [exact Hval52 | exact Hv52].
      - exact Hr. }
    rewrite Hval52 in Hge.
    assert (2 ^ 52 <= n).
    { rewrite Hfl. rewrite <- (Qfloor_Z (2 ^ 52)). apply Qfloor_resp_le. exact Hge. }
    lia.
Qed.

(** *** The loop *)

Lemma resample_loop_length x ratio todo : forall i result,
  length (resample_loop x ratio todo i result) = length result.
Proof.
  induction todo as [|todo IH]; intros i result; cbn [resample_loop]; [reflexivity|].
  rewrite IH. unfold F32.set. apply length_insert.
Qed.

Lemma resample_loop_lookup x ratio todo : forall i result j,
  (i + todo <= length result)%nat ->
  resample_loop x ratio todo i result !! j =
    if decide (i <= j < i + todo)%nat
    then Some (F32.of_number (resample_at x ratio j))
    else result !! j.
Proof.
  induction todo as [|todo IH]; intros i result j Hlen; cbn [resample_loop].
  - case_decide; [lia | reflexivity].
  - rewrite IH by (unfold F32.set; rewrite length_insert; lia).
    unfold F32.set.
    destruct (decide (j = i)) as [->|Hne].
    + rewrite list_lookup_insert_eq by lia.
      repeat case_decide; try lia; reflexivity.
    + rewrite list_lookup_insert_ne by congruence.
      repeat case_decide; try lia; reflexivity.
Qed.

(** *** Error bounds of one rounding *)

Lemma rounded_error_abs prec emax X r :
  rounded prec emax X r ->
  (X - (Qabs X * pow2 (- prec) + pow2 (emin prec emax - 1)) <= B2Q r /\
   B2Q r <= X + (Qabs X * pow2 (- prec) + pow2 (emin prec emax - 1)))%Q.
Proof.
  intros Hr. destruct (rounded_error prec emax X r Hr) as (E & (Hmin & Hhi & Hlo) & He).
  assert (Hb : (pow2 (E - 1) <= Qabs X * pow2 (- prec) + pow2 (emin prec emax - 1))%Q).
  { pose proof (pow2_pos (- prec)). pose proof (pow2_pos (emin prec emax - 1)).
    pose proof (Qabs_nonneg X).
    destruct Hlo as [->|Hlo].
    - nra.
    - replace (E - 1) with ((E + prec - 1) + - prec) by ring. rewrite pow2_add. nra. }
  lra.
Qed.

Lemma pow2_m53 : (pow2 (-53) == 1 # 9007199254740992)%Q.
Proof. reflexivity. Qed.

Lemma pow2_m1075_small : (pow2 (-1075) <= 1 # 1606938044258990275541962092341162602522202993782792835301376)%Q.
Proof. apply Qle_bool_imp_le. vm_compute. reflexivity. Qed.

(** One binary64 rounding of a non-negative number. *)
Lemma rounded64_error X r :
  rounded64 X r -> (0 <= X)%Q ->
  (X - X * (1 # 9007199254740992) - (1 # 1606938044258990275541962092341162602522202993782792835301376) <= B2Q r /\
   B2Q r <= X + X * (1 # 9007199254740992) + (1 # 1606938044258990275541962092341162602522202993782792835301376))%Q.
Proof.
  intros Hr HX. pose proof (rounded_error_abs 53 1024 X r Hr) as H.
  change (emin 53 1024 - 1) with (-1075) in H. change (- 53) with (-53) in H.
  rewrite Qabs_pos, pow2_m53 in H by exact HX.
  pose proof pow2_m1075_small. lra.
Qed.

(** A result whose exact value is an integer below [2^53] is that integer. *)
Lemma rounds64_integer X r z :
  rounds64 X r -> (X == inject_Z z)%Q -> Z.abs z < 2 ^ 53 ->
  valid64 r /\ (B2Q r == inject_Z z)%Q.
Proof.
  intros Hr HX Hz. destruct (of_Z_exact z Hz) as [Hv Hval].
  assert (Hr' : rounded64 X r).
  { apply (rounds_below 53 1024 prec64 X r (JS.of_Z z)); [exact Hr | exact Hv|].
    rewrite Hval, HX. apply Qle_refl. }
  split; [apply Hr'|]. rewrite <- HX.
  apply (rounded_exact 53 1024 X r (JS.of_Z z) Hr' Hv). rewrite Hval, HX. reflexivity.
Qed.

(** *** The length of the result and the positions read *)

Lemma inject_Z_floor_bounds y : (inject_Z (Qfloor y) <= y /\ y < inject_Z (Qfloor y) + 1)%Q.
Proof.
  split; [apply Qfloor_le|]. pose proof (Qlt_floor y) as H.
  rewrite inject_Z_plus in H. exact H.
Qed.

Section Positions.

Variables (x : list spec_float) (R : spec_float) (out : list spec_float).
Hypothesis x_nonempty : x <> [].
Hypothesis x_length : Z.of_nat (length x) < 2 ^ 53.
Hypothesis R_well_formed : well_formed R.
Hypothesis out_new :
  F32.new (JS.Math_round (JS.div (F32.length x) R)) = JS.Normal out.

Lemma length_number :
  exists m e, F32.length x = S754_finite false m e /\ bounded 53 1024 m e = true /\
    (F2Q false m e == inject_Z (Z.of_nat (length x)))%Q.
Proof.
  assert (H1 : 1 <= Z.of_nat (length x)) by (destruct x; [contradiction | cbn; lia]).
  destruct (of_Z_exact (Z.of_nat (length x)) ltac:(lia)) as [Hv Hval].
  assert (Hpos : (0 < B2Q (JS.of_Z (Z.of_nat (length x))))%Q).
  { rewrite Hval. change 0%Q with (inject_Z 0). rewrite <- Zlt_Qlt. lia. }
  unfold F32.length. destruct (JS.of_Z (Z.of_nat (length x))) as [s|s| |s m e];
    try contradiction; cbn [B2Q] in *; [lra|].
  destruct s.
  - exfalso. unfold F2Q in Hpos. cbn [cond_Zopp] in Hpos. pose proof (pow2_pos e).
    assert (inject_Z (- Z.pos m) < 0)%Q by reflexivity. nra.
  - exists m, e. auto.
Qed.

(** When the result has an element, the ratio is a positive number, and
    the length of the result is tied to it. *)
Lemma ratio_positive :
  out <> [] ->
  exists m e, R = S754_finite false m e /\ bounded 53 1024 m e = true /\
    (0 < B2Q R)%Q /\
    (inject_Z (Z.of_nat (length out)) * B2Q R <=
       inject_Z (Z.of_nat (length x)) * (1 + (1 # 9007199254740992)) +
       ((1 # 2) + (1 # 1606938044258990275541962092341162602522202993782792835301376)) * B2Q R)%Q /\
    (inject_Z (Z.of_nat (length x)) * (1 - (1 # 9007199254740992)) <
       (2251799813685248 - (1 # 2) + (1 # 1606938044258990275541962092341162602522202993782792835301376)) * B2Q R)%Q /\
    Z.of_nat (length out) < 2 ^ 51.
Proof.
  intros Hout.
  assert (Hn1 : 1 <= Z.of_nat (length out)) by (destruct out; [contradiction | cbn; lia]).
  assert (HL1 : 1 <= Z.of_nat (length x)) by (destruct x; [contradiction | cbn; lia]).
  destruct (new_length _ _ out_new) as [Hidx H4].
  destruct length_number as (mL & eL & HL & HbL & HvalL).
  unfold JS.div in Hidx. rewrite HL in Hidx.
  destruct R as [s|s| |s m e].
  - cbn in Hidx. discriminate.
  - cbn in Hidx. injection Hidx as Hidx. lia.
  - cbn in Hidx. injection Hidx as Hidx. lia.
  - pose proof (SFdiv_rounds 53 1024 prec64 emax64 (S754_finite false mL eL) s m e HbL
        R_well_formed) as Hq.
    set (q := SFdiv 53 1024 (S754_finite false mL eL) (S754_finite s m e)) in *.
    cbn [B2Q] in Hq. rewrite HvalL in Hq.
    destruct Hq as [Hr|[[s' Hinf] _]]; [|rewrite Hinf in Hidx; cbn in Hidx; discriminate].
    pose proof (Math_round_positive q _ (proj1 Hr) Hidx Hn1 ltac:(lia)) as Hn.
    destruct (inject_Z_floor_bounds (B2Q q + (1 # 2))) as [Hlo Hhi]. rewrite <- Hn in Hlo, Hhi.
    assert (Hn1q : (1 <= inject_Z (Z.of_nat (length out)))%Q).
    { change 1%Q with (inject_Z 1). rewrite <- Zle_Qle. exact Hn1. }
    assert (Hn51 : (inject_Z (Z.of_nat (length out)) <= 2251799813685248 - 1)%Q).
    { change (2251799813685248 - 1)%Q with (inject_Z (2 ^ 51 - 1)). rewrite <- Zle_Qle. lia. }
    assert (HL1q : (1 <= inject_Z (Z.of_nat (length x)))%Q).
    { change 1%Q with (inject_Z 1). rewrite <- Zle_Qle. exact HL1. }
    pose proof (pow2_pos e) as Hpe.
    assert (Hm : (0 < inject_Z (Z.pos m))%Q) by reflexivity.
    destruct s.
    + exfalso.
      assert (HX : (inject_Z (Z.of_nat (length x)) / F2Q true m e <= 0)%Q).
      { unfold F2Q. cbn [cond_Zopp]. rewrite inject_Z_opp.
        assert (HXeq : (inject_Z (Z.of_nat (length x)) / (- inject_Z (Z.pos m) * pow2 e) ==
                  - (inject_Z (Z.of_nat (length x)) * / (inject_Z (Z.pos m) * pow2 e)))%Q)
          by (field; nra).
        rewrite HXeq.
        assert (0 < / (inject_Z (Z.pos m) * pow2 e))%Q by (apply Qinv_lt_0_compat; nra).
        nra. }
      pose proof (rounded_nonpos 53 1024 _ _ HX Hr). lra.
    + exists m, e. split; [reflexivity|]. split; [exact R_well_formed|].
      cbn [B2Q]. set (Rq := F2Q false m e) in *.
      assert (HR : (0 < Rq)%Q) by (unfold Rq, F2Q; cbn [cond_Zopp]; nra).
      set (X := (inject_Z (Z.of_nat (length x)) / Rq)%Q) in *.
      assert (HXR : (X * Rq == inject_Z (Z.of_nat (length x)))%Q) by (unfold X; field; lra).
      assert (HX0 : (0 <= X)%Q).
      { unfold X, Qdiv. assert (0 < / Rq)%Q by (apply Qinv_lt_0_compat; exact HR). nra. }
      destruct (rounded64_error X q Hr HX0) as [Hql Hqh].
      split; [exact HR|]. split; [nra|]. split; [nra | lia].
Qed.

(** The position computed for an output index lies inside the input. *)
Lemma position_in_range (i : nat) :
  (i < length out)%nat ->
  valid64 (JS.mul (JS.of_Z (Z.of_nat i)) R) /\
  (0 <= B2Q (JS.mul (JS.of_Z (Z.of_nat i)) R))%Q /\
  (B2Q (JS.mul (JS.of_Z (Z.of_nat i)) R) < inject_Z (Z.of_nat (length x)))%Q.
Proof.
  intros Hi.
  assert (Hout : out <> []) by (destruct out; [cbn in Hi; lia | discriminate]).
  destruct (ratio_positive Hout) as (m & e & HR & Hb & HRpos & HA1 & HA2 & Hn51).
  assert (HL1 : 1 <= Z.of_nat (length x)) by (destruct x; [contradiction | cbn; lia]).
  assert (HL1q : (1 <= inject_Z (Z.of_nat (length x)))%Q).
  { change 1%Q with (inject_Z 1). rewrite <- Zle_Qle. exact HL1. }
  destruct (of_Z_exact (Z.of_nat i) ltac:(lia)) as [Hvi Hvali].
  destruct (of_Z_exact (Z.of_nat (length x)) ltac:(lia)) as [HvL HvalL].
  pose proof (SFmul_rounds 53 1024 prec64 emax64 (JS.of_Z (Z.of_nat i)) R Hvi
    ltac:(rewrite HR; exact Hb)) as Hp.
  fold JS.mul in Hp. set (p := JS.mul (JS.of_Z (Z.of_nat i)) R) in *.
  rewrite Hvali in Hp.
  assert (Hi0 : (0 <= inject_Z (Z.of_nat i))%Q).
  { change 0%Q with (inject_Z 0). rewrite <- Zle_Qle. lia. }
  assert (Hin : (inject_Z (Z.of_nat i) <= inject_Z (Z.of_nat (length out)) - 1)%Q).
  { assert (H : (inject_Z (Z.of_nat i) + 1 <= inject_Z (Z.of_nat (length out)))%Q).
    { change 1%Q with (inject_Z 1). rewrite <- inject_Z_plus, <- Zle_Qle. lia. }
    lra. }
  set (t := (inject_Z (Z.of_nat i) * B2Q R)%Q) in *.
  assert (Ht0 : (0 <= t)%Q) by (unfold t; nra).
  assert (Ht : (t <= inject_Z (Z.of_nat (length out)) * B2Q R - B2Q R)%Q) by (unfold t; nra).
  assert (Hr : rounded64 t p).
  { apply (rounds_below 53 1024 prec64 t p (JS.of_Z (Z.of_nat (length x)))); [exact Hp|exact HvL|].
    rewrite HvalL, !Qabs_pos by lra. lra. }
  split; [apply Hr|].
  destruct (rounded64_error t p Hr Ht0) as [Hlo Hhi].
  split; [apply (rounded_nonneg 53 1024 t); assumption | lra].
Qed.

(** The index: the integer part of the position, a valid element index. *)
Lemma index_in_range (i : nat) :
  (i < length out)%nat ->
  exists z : Z,
    0 <= z < Z.of_nat (length x) /\
    valid64 (JS.Math_floor (JS.mul (JS.of_Z (Z.of_nat i)) R)) /\
    (B2Q (JS.Math_floor (JS.mul (JS.of_Z (Z.of_nat i)) R)) == inject_Z z)%Q /\
    (inject_Z z <= B2Q (JS.mul (JS.of_Z (Z.of_nat i)) R))%Q /\
    (B2Q (JS.mul (JS.of_Z (Z.of_nat i)) R) < inject_Z z + 1)%Q.
Proof.
  intros Hi. destruct (position_in_range i Hi) as (Hv & H0 & HL).
  set (p := JS.mul (JS.of_Z (Z.of_nat i)) R) in *.
  destruct (inject_Z_floor_bounds (B2Q p)) as [Hlo Hhi].
  assert (Hz0 : 0 <= Qfloor (B2Q p)).
  { rewrite <- (Qfloor_Z 0). apply Qfloor_resp_le. exact H0. }
  assert (HzL : Qfloor (B2Q p) < Z.of_nat (length x)).
  { rewrite Zlt_Qlt. lra. }
  exists (Qfloor (B2Q p)). split; [lia|].
  destruct p as [s|s| |s m e] eqn:Hp; try contradiction.
  - cbn [JS.Math_floor B2Q] in *. change (Qfloor 0) with 0. repeat split; try lra; trivial.
  - rewrite Math_floor_finite.
    destruct (of_Z_exact (Qfloor (B2Q (S754_finite s m e))) ltac:(lia)) as [Hvz Hvalz].
    repeat split; assumption.
Qed.

(** Both reads of an iteration hit an element of the input. *)
Lemma reads_in_range (i : nat) :
  (i < length out)%nat ->
  let position := JS.mul (JS.of_Z (Z.of_nat i)) R in
  let index := JS.Math_floor position in
  exists (z : Z) (a : spec_float),
    0 <= z /\ x !! Z.to_nat z = Some a /\
    valid64 position /\ valid64 index /\
    (B2Q index == inject_Z z)%Q /\
    (inject_Z z <= B2Q position)%Q /\ (B2Q position < inject_Z z + 1)%Q /\
    JS.integer_value index = Some z /\
    F32.get x index = Some (F32.to_number a) /\
    (JS.lt (JS.add index (JS.of_Z 1)) (F32.length x) = true ->
     exists b : spec_float,
       x !! Z.to_nat (z + 1) = Some b /\
       JS.integer_value (JS.add index (JS.of_Z 1)) = Some (z + 1) /\
       F32.get x (JS.add index (JS.of_Z 1)) = Some (F32.to_number b)).
Proof.
  intros Hi position index.
  destruct (index_in_range i Hi) as (z & Hz & Hvx & Hvalx & Hlo & Hhi).
  destruct (position_in_range i Hi) as (Hvp & _ & _).
  fold position in Hvp, Hvx, Hvalx, Hlo, Hhi. fold index in Hvx, Hvalx.
  destruct (lookup_lt_is_Some_2 x (Z.to_nat z) ltac:(lia)) as [a Ha].
  assert (Hint : JS.integer_value index = Some z).
  { apply integer_value_spec; [apply valid64_is_finite|]; assumption. }
  exists z, a. repeat (split; [first [assumption | lia]|]). split.
  { unfold F32.get. rewrite Hint. destruct (Z.ltb_spec z 0); [lia|]. rewrite Ha. reflexivity. }
  intros Hlt.
  destruct (of_Z_exact 1 ltac:(lia)) as [Hv1 Hval1].
  destruct (of_Z_exact (Z.of_nat (length x)) ltac:(lia)) as [HvL HvalL].
  pose proof (SFadd_rounds 53 1024 prec64 emax64 index (JS.of_Z 1) Hvx Hv1) as Hs.
  fold JS.add in Hs.
  destruct (rounds64_integer _ _ (z + 1) Hs) as [Hvs Hvals]; [|lia|].
  { rewrite Hvalx, Hval1, inject_Z_plus. reflexivity. }
  apply (SFltb_correct 53 1024 _ _ Hvs HvL) in Hlt. fold (F32.length x) in Hlt.
  unfold F32.length in Hlt. rewrite Hvals, HvalL, <- Zlt_Qlt in Hlt.
  destruct (lookup_lt_is_Some_2 x (Z.to_nat (z + 1)) ltac:(lia)) as [b Hb].
  assert (Hint' : JS.integer_value (JS.add index (JS.of_Z 1)) = Some (z + 1)).
  { apply integer_value_spec; [apply valid64_is_finite|]; assumption. }
  exists b. split; [exact Hb|]. split; [exact Hint'|].
  unfold F32.get. rewrite Hint'. destruct (Z.ltb_spec (z + 1) 0); [lia|]. rewrite Hb. reflexivity.
Qed.

End Positions.

Lemma div_well_formed a b : well_formed a -> well_formed b -> well_formed (JS.div a b).
Proof.
  intros Ha Hb. destruct b as [s|s| |s m e].
  1-3: destruct a; reflexivity.
  destruct a as [s'|s'| |s' m' e']; try reflexivity.
  apply (rounds64_well_formed (B2Q (S754_finite s' m' e') / F2Q s m e)).
  apply (SFdiv_rounds 53 1024 prec64 emax64); assumption.
Qed.

Lemma resampleAudio_resampled x r_in r_out out :
  JS.strict_eq r_in r_out = false ->
  resampleAudio x r_in r_out = JS.Normal out ->
  exists result,
    F32.new (JS.Math_round (JS.div (F32.length x) (JS.div r_in r_out))) = JS.Normal result /\
    length out = length result /\
    forall i, (i < length out)%nat ->
      out !! i = Some (F32.of_number (resample_at x (JS.div r_in r_out) i)).
Proof.
  intros Hne H. unfold resampleAudio in H. rewrite Hne in H.
  destruct (F32.new _) as [result|e] eqn:E; [|discriminate].
  injection H as <-. exists result. split; [reflexivity|].
  rewrite resample_loop_length. split; [reflexivity|].
  intros i Hi. rewrite resample_loop_lookup by lia.
  case_decide; [reflexivity | lia].
Qed.

(** C10.  Every read of the resampler is within the bounds of the input. *)
Theorem resample_reads_in_bounds (x out : F32.Float32Array) (r_in r_out : JS.number)
    (i : nat) :
  x <> [] -> Z.of_nat (length x) < 2 ^ 53 ->
  well_formed r_in -> well_formed r_out ->
  JS.strict_eq r_in r_out = false ->
  resampleAudio x r_in r_out = JS.Normal out ->
  (i < length out)%nat ->
  let ratio := JS.div r_in r_out in
  let position := JS.mul (JS.of_Z (Z.of_nat i)) ratio in
  let index := JS.Math_floor position in
  exists z : Z,
    JS.integer_value index = Some z /\
    0 <= z < Z.of_nat (length x) /\
    is_Some (F32.get x index) /\
    (JS.lt (JS.add index (JS.of_Z 1)) (F32.length x) = true ->
       JS.integer_value (JS.add index (JS.of_Z 1)) = Some (z + 1) /\
       z + 1 < Z.of_nat (length x) /\
       is_Some (F32.get x (JS.add index (JS.of_Z 1)))).
Proof.
  intros Hx HL Hin Hout Hne Hres Hi ratio position index.
  destruct (resampleAudio_resampled x r_in r_out out Hne Hres) as (result & Hnew & Hlen & _).
  rewrite Hlen in Hi.
  destruct (reads_in_range x ratio result Hx HL (div_well_formed _ _ Hin Hout) Hnew i Hi)
    as (z & a & Hz0 & Ha & _ & _ & _ & _ & _ & Hint & Hget & Hnext).
  fold position in Hint, Hget, Hnext. fold index in Hint, Hget, Hnext.
  exists z. split; [exact Hint|].
  apply lookup_lt_Some in Ha. split; [lia|]. split; [rewrite Hget; eauto|].
  intros Hlt. destruct (Hnext Hlt) as (b & Hb & Hint' & Hget').
  apply lookup_lt_Some in Hb. split; [exact Hint'|]. split; [lia | rewrite Hget'; eauto].
Qed.

(** * Interpolation *)

(** *** Reading and storing samples *)

Lemma valid32_emin (m : positive) e : bounded 24 128 m e = true -> -149 <= e.
Proof.
  intros Hb. apply (bounded_elim 24 128) in Hb as [Hc _].
  unfold fexp, emin in Hc. lia.
Qed.

Lemma valid32_magnitude a : valid32 a -> (Qabs (B2Q a) < pow2 128)%Q.
Proof. apply (valid_lt_emax 24 128). Qed.

(** Every sample is a number. *)
Lemma to_number_exact a :
  valid32 a -> valid64 (F32.to_number a) /\ (B2Q (F32.to_number a) == B2Q a)%Q.
Proof.
  intros Hv. destruct a as [s|s| |s m e]; try contradiction.
  - split; [exact I | reflexivity].
  - cbn [F32.to_number B2Q].
    destruct (binary_round_rounds 53 1024 prec64 emax64 s m e) as [Hr _].
    pose proof (valid32_magnitude _ Hv) as Hmag. cbn [B2Q] in Hmag.
    pose proof (valid_cexp 24 128 s m e Hv) as (_ & Hhi & _).
    assert (Hr' : rounded64 (F2Q s m e) (binary_round 53 1024 s m e)).
    { apply (rounds_small 53 1024 prec64 emax64); [exact Hr|].
      apply Qlt_trans with (pow2 128); [exact Hmag | apply pow2_lt; lia]. }
    split; [apply Hr'|].
    apply (rounded_exact_grid 53 1024 _ _ (cond_Zopp s (Z.pos m)) e Hr').
    + reflexivity.
    + pose proof (valid32_emin m e Hv). unfold emin. lia.
    + apply Qlt_trans with (pow2 (e + 24)); [exact Hhi | apply pow2_lt; lia].
Qed.

Lemma of_number_rounds v : valid64 v -> rounds32 (B2Q v) (F32.of_number v).
Proof.
  intros Hv. destruct v as [s|s| |s m e]; try contradiction.
  - left. apply rounded_zero.
  - apply (binary_round_rounds 24 128 prec32 emax32).
Qed.

(** Storing a sample that was read gives the sample back. *)
Lemma of_number_to_number a :
  valid32 a ->
  valid32 (F32.of_number (F32.to_number a)) /\
  (B2Q (F32.of_number (F32.to_number a)) == B2Q a)%Q.
Proof.
  intros Hv. destruct (to_number_exact a Hv) as [Hv' Hval].
  pose proof (of_number_rounds _ Hv') as Hr. rewrite Hval in Hr.
  assert (Hr' : rounded32 (B2Q a) (F32.of_number (F32.to_number a))).
  { apply (rounds_below 24 128 prec32 _ _ a); [exact Hr | exact Hv | apply Qle_refl]. }
  split; [apply Hr'|].
  apply (rounded_exact 24 128 _ _ a Hr' Hv). reflexivity.
Qed.

(** *** The interpolation weights *)

Lemma rounded64_one : rounded64 1 (JS.of_Z 1).
Proof.
  destruct (of_Z_exact 1 ltac:(lia)) as [Hv Hval].
  rewrite <- Hval. apply rounded_self. exact Hv.
Qed.

Lemma unit_interval_rounded X r :
  rounds64 X r -> (0 <= X)%Q -> (X <= 1)%Q ->
  rounded64 X r /\ (0 <= B2Q r)%Q /\ (B2Q r <= 1)%Q.
Proof.
  intros Hr H0 H1.
  assert (Hr' : rounded64 X r).
  { apply (rounds_small 53 1024 prec64 emax64); [exact Hr|].
    rewrite Qabs_pos by exact H0.
    apply Qle_lt_trans with (pow2 0); [exact H1 | apply pow2_lt; lia]. }
  split; [exact Hr'|]. split.
  - apply (rounded_nonneg 53 1024 X); assumption.
  - destruct (of_Z_exact 1 ltac:(lia)) as [_ Hval]. rewrite <- Hval.
    apply (rounded_mono 53 1024 prec64 X 1); [exact H1 | exact Hr' | apply rounded64_one].
Qed.

(** [fraction = position - index] and [1 - fraction]. *)
Lemma weights position index z :
  valid64 position -> valid64 index -> (B2Q index == inject_Z z)%Q ->
  (inject_Z z <= B2Q position)%Q -> (B2Q position < inject_Z z + 1)%Q ->
  let fraction := JS.sub position index in
  valid64 fraction /\ (0 <= B2Q fraction)%Q /\ (B2Q fraction <= 1)%Q /\
  rounded64 (1 - B2Q fraction) (JS.sub (JS.of_Z 1) fraction) /\
  (0 <= B2Q (JS.sub (JS.of_Z 1) fraction))%Q /\
  (B2Q (JS.sub (JS.of_Z 1) fraction) <= 1)%Q.
Proof.
  intros Hvp Hvi Hval Hlo Hhi fraction.
  pose proof (SFsub_rounds 53 1024 prec64 emax64 position index Hvp Hvi) as Hf.
  fold JS.sub in Hf. fold fraction in Hf.
  destruct (unit_interval_rounded _ _ Hf ltac:(lra) ltac:(lra)) as (Hrf & Hf0 & Hf1).
  destruct (of_Z_exact 1 ltac:(lia)) as [Hv1 Hval1].
  pose proof (SFsub_rounds 53 1024 prec64 emax64 (JS.of_Z 1) fraction Hv1 (proj1 Hrf)) as Hg.
  fold JS.sub in Hg. rewrite Hval1 in Hg. change (inject_Z 1) with 1%Q in Hg.
  destruct (unit_interval_rounded _ _ Hg ltac:(lra) ltac:(lra)) as (Hrg & Hg0 & Hg1).
  repeat split; solve [assumption | apply Hrf | apply Hrg].
Qed.

(** *** The interpolated value *)

Lemma pow2_m1075_tiny : (pow2 (-1075) <= pow2 (-149) * (1 # 9007199254740992))%Q.
Proof. apply Qle_bool_imp_le. vm_compute. reflexivity. Qed.

Lemma pow2_m149_le_1 : (pow2 (-149) <= 1)%Q.
Proof. change 1%Q with (pow2 0). apply pow2_le. lia. Qed.

Lemma rounded64_error_within X r c :
  rounded64 X r -> (- c <= X)%Q -> (X <= c)%Q ->
  (X - (c * (1 # 9007199254740992) + pow2 (-1075)) <= B2Q r /\
   B2Q r <= X + (c * (1 # 9007199254740992) + pow2 (-1075)))%Q.
Proof.
  intros Hr Hl Hh. pose proof (rounded_error_abs 53 1024 X r Hr) as H.
  change (emin 53 1024 - 1) with (-1075) in H. change (- 53) with (-53) in H.
  rewrite pow2_m53 in H.
  assert (Qabs X <= c)%Q by (apply Qabs_Qle_condition; split; assumption).
  lra.
Qed.

Section Interpolation.

Variables f g : spec_float.
Hypothesis f_valid : valid64 f.
Hypothesis g_valid : valid64 g.
Hypothesis f_range : (0 <= B2Q f)%Q /\ (B2Q f <= 1)%Q.
Hypothesis g_range : (0 <= B2Q g)%Q /\ (B2Q g <= 1)%Q.
Hypothesis g_weight : rounded64 (1 - B2Q f) g.

Local Abbreviation mix A B := (JS.add (JS.mul A g) (JS.mul B f)).

Lemma product_rounded A w c :
  valid64 A -> valid64 w -> (0 <= B2Q w)%Q -> (B2Q w <= 1)%Q ->
  (- c <= B2Q A)%Q -> (B2Q A <= c)%Q -> (c <= pow2 128)%Q ->
  rounded64 (B2Q A * B2Q w) (JS.mul A w) /\
  (- c <= B2Q A * B2Q w)%Q /\ (B2Q A * B2Q w <= c)%Q.
Proof.
  intros HA Hw Hw0 Hw1 Hl Hh Hc.
  assert (Hb : (- c <= B2Q A * B2Q w)%Q /\ (B2Q A * B2Q w <= c)%Q) by (split; nra).
  split; [|exact Hb].
  apply (rounds_small 53 1024 prec64 emax64); [apply SFmul_rounds; auto using prec64, emax64|].
  apply Qabs_Qlt_condition.
  assert (pow2 128 < pow2 (1024 - 1))%Q by (apply pow2_lt; lia). lra.
Qed.

Lemma mix_rounded A B c :
  valid64 A -> valid64 B ->
  (- c <= B2Q A)%Q -> (B2Q A <= c)%Q -> (- c <= B2Q B)%Q -> (B2Q B <= c)%Q ->
  (c <= pow2 128)%Q ->
  rounded64 (B2Q A * B2Q g) (JS.mul A g) /\
  rounded64 (B2Q B * B2Q f) (JS.mul B f) /\
  rounded64 (B2Q (JS.mul A g) + B2Q (JS.mul B f)) (mix A B).
Proof.
  intros HA HB HAl HAh HBl HBh Hc.
  destruct (product_rounded A g c HA g_valid (proj1 g_range) (proj2 g_range) HAl HAh Hc)
    as (H1 & H1l & H1h).
  destruct (product_rounded B f c HB f_valid (proj1 f_range) (proj2 f_range) HBl HBh Hc)
    as (H2 & H2l & H2h).
  split; [exact H1|]. split; [exact H2|].
  destruct (rounded64_error_within _ _ c H1 H1l H1h) as [E1l E1h].
  destruct (rounded64_error_within _ _ c H2 H2l H2h) as [E2l E2h].
  apply (rounds_small 53 1024 prec64 emax64);
    [apply SFadd_rounds; [exact prec64 | exact emax64 | apply H1 | apply H2]|].
  apply Qabs_Qlt_condition.
  pose proof pow2_m1075_tiny. pose proof pow2_m149_le_1.
  assert (H130 : (4 * pow2 128 + 1 < pow2 (1024 - 1))%Q).
  { apply Qlt_le_trans with (pow2 131); [|apply pow2_le; lia].
    replace 131 with (128 + 3) by reflexivity. rewrite pow2_add.
    change (pow2 3) with 8%Q. assert (1 <= pow2 128)%Q by (change 1%Q with (pow2 0); apply pow2_le; lia).
    lra. }
  lra.
Qed.

(** The interpolated value grows with the two samples. *)
Lemma mix_mono A B A' B' c :
  valid64 A -> valid64 B -> valid64 A' -> valid64 B' ->
  (- c <= B2Q A)%Q -> (B2Q A <= B2Q A')%Q -> (B2Q A' <= c)%Q ->
  (- c <= B2Q B)%Q -> (B2Q B <= B2Q B')%Q -> (B2Q B' <= c)%Q ->
  (c <= pow2 128)%Q ->
  (B2Q (mix A B) <= B2Q (mix A' B'))%Q.
Proof.
  intros HA HB HA' HB' HAl HAA HAh HBl HBB HBh Hc.
  destruct (mix_rounded A B c HA HB ltac:(lra) ltac:(lra) ltac:(lra) ltac:(lra) Hc)
    as (H1 & H2 & H3).
  destruct (mix_rounded A' B' c HA' HB' ltac:(lra) ltac:(lra) ltac:(lra) ltac:(lra) Hc)
    as (H1' & H2' & H3').
  assert (M1 : (B2Q (JS.mul A g) <= B2Q (JS.mul A' g))%Q).
  { refine (rounded_mono 53 1024 prec64 _ _ _ _ _ H1 H1'). nra. }
  assert (M2 : (B2Q (JS.mul B f) <= B2Q (JS.mul B' f))%Q).
  { refine (rounded_mono 53 1024 prec64 _ _ _ _ _ H2 H2'). nra. }
  refine (rounded_mono 53 1024 prec64 _ _ _ _ _ H3 H3'). lra.
Qed.

(** Interpolating between two copies of a sample gives, up to a relative
    error far below the precision of the samples, the sample itself. *)
Lemma mix_constant s m e :
  bounded 24 128 m e = true ->
  let C := F32.to_number (S754_finite s m e) in
  (Qabs (B2Q (mix C C) - F2Q s m e) <= Qabs (F2Q s m e) * pow2 (- (24 + 2)))%Q.
Proof.
  intros Hb C.
  destruct (to_number_exact (S754_finite s m e) Hb) as [HvC HvalC].
  fold C in HvC, HvalC. cbn [B2Q] in HvalC.
  pose proof (valid32_magnitude (S754_finite s m e) Hb) as Hmag. cbn [B2Q] in Hmag.
  assert (Hmin : (pow2 (-149) <= Qabs (F2Q s m e))%Q).
  { rewrite F2Q_abs. pose proof (valid32_emin m e Hb) as He.
    apply (pow2_le (-149) e) in He. pose proof (pow2_pos e).
    assert (1 <= inject_Z (Z.pos m))%Q.
    { change 1%Q with (inject_Z 1). rewrite <- Zle_Qle. lia. }
    nra. }
  assert (Hself : (- Qabs (F2Q s m e) <= F2Q s m e)%Q /\ (F2Q s m e <= Qabs (F2Q s m e))%Q).
  { apply Qabs_Qle_condition. apply Qle_refl. }
  set (Cq := F2Q s m e) in *. set (c := Qabs Cq) in *.
  destruct Hself as [Hcl Hch].
  destruct (mix_rounded C C c HvC HvC) as (H1 & H2 & H3); try lra.
  rewrite HvalC in H1, H2.
  destruct f_range as [Hf0 Hf1]. destruct g_range as [Hg0 Hg1].
  assert (Hgl : (- (1) <= 1 - B2Q f)%Q) by lra.
  assert (Hgh : (1 - B2Q f <= 1)%Q) by lra.
  destruct (rounded64_error_within _ _ 1 g_weight Hgl Hgh) as [Egl Egh].
  pose proof pow2_m1075_tiny as Heta. pose proof pow2_m149_le_1 as H149.
  pose proof (pow2_pos (-1075)) as Heta0.
  set (F := B2Q f) in *. set (G := B2Q g) in *.
  assert (HD : (- (c * (2 # 9007199254740992)) <= Cq * (G + F - 1))%Q /\
               (Cq * (G + F - 1) <= c * (2 # 9007199254740992))%Q).
  { apply Qabs_Qle_condition. rewrite Qabs_Qmult. fold c.
    assert (Hd : (Qabs (G + F - 1) <= 2 # 9007199254740992)%Q).
    { apply Qabs_Qle_condition. lra. }
    pose proof (Qabs_nonneg (G + F - 1)). pose proof (Qabs_nonneg Cq). fold c in H0.
    nra. }
  destruct HD as [HDl HDh].
  assert (HX1 : (- c <= Cq * G)%Q /\ (Cq * G <= c)%Q) by (split; nra).
  assert (HX2 : (- c <= Cq * F)%Q /\ (Cq * F <= c)%Q) by (split; nra).
  destruct (rounded64_error_within _ _ c H1 (proj1 HX1) (proj2 HX1)) as [E1l E1h].
  destruct (rounded64_error_within _ _ c H2 (proj1 HX2) (proj2 HX2)) as [E2l E2h].
  set (T1 := B2Q (JS.mul C g)) in *. set (T2 := B2Q (JS.mul C f)) in *.
  assert (Hsum : (Cq * G + Cq * F == Cq + Cq * (G + F - 1))%Q) by ring.
  assert (HSl : (- (2 * c) <= T1 + T2)%Q) by lra.
  assert (HSh : (T1 + T2 <= 2 * c)%Q) by lra.
  destruct (rounded64_error_within _ _ (2 * c) H3 HSl HSh) as [E3l E3h].
  change (pow2 (- (24 + 2))) with (1 # 67108864)%Q.
  apply Qabs_Qle_condition. lra.
Qed.

(** Stored, that value is the sample. *)
Lemma of_number_mix_constant c :
  valid32 c ->
  let C := F32.to_number c in
  rounded32 (B2Q (mix C C)) (F32.of_number (mix C C)) /\
  (B2Q (F32.of_number (mix C C)) == B2Q c)%Q.
Proof.
  intros Hv C. destruct (to_number_exact c Hv) as [HvC HvalC]. fold C in HvC, HvalC.
  pose proof (valid32_magnitude c Hv) as Hmag.
  assert (Hself : (- Qabs (B2Q c) <= B2Q c)%Q /\ (B2Q c <= Qabs (B2Q c))%Q).
  { apply Qabs_Qle_condition. apply Qle_refl. }
  destruct (mix_rounded C C (Qabs (B2Q c)) HvC HvC) as (H1 & H2 & H3); try lra.
  pose proof (of_number_rounds (mix C C) (proj1 H3)) as Hr.
  destruct c as [s|s| |s m e]; try contradiction.
  - cbn [B2Q] in *. rewrite HvalC in H1, H2.
    assert (Z1 : (B2Q (JS.mul C g) == 0)%Q).
    { rewrite (rounded_exact 53 1024 _ _ (S754_zero false) H1 I); [ring|].
      cbn [B2Q]. ring. }
    assert (Z2 : (B2Q (JS.mul C f) == 0)%Q).
    { rewrite (rounded_exact 53 1024 _ _ (S754_zero false) H2 I); [ring|].
      cbn [B2Q]. ring. }
    assert (Z3 : (B2Q (mix C C) == 0)%Q).
    { rewrite (rounded_exact 53 1024 _ _ (S754_zero false) H3 I); [lra|].
      cbn [B2Q]. lra. }
    rewrite Z3 in Hr |- *.
    assert (Hr' : rounded32 0 (F32.of_number (mix C C))).
    { apply (rounds_small 24 128 prec32 emax32); [exact Hr|]. apply pow2_pos. }
    split; [exact Hr'|].
    apply (rounded_exact 24 128 _ _ (S754_zero false) Hr' I). reflexivity.
  - apply (rounds_near 24 128 prec32 _ _ s m e Hv); [|exact Hr].
    apply mix_constant. exact Hv.
Qed.

(** The stored interpolated value lies between any two bounds of the two
    samples that are themselves samples. *)
Lemma interpolation_bounded lo hi a b :
  valid32 lo -> valid32 hi -> valid32 a -> valid32 b ->
  (B2Q lo <= B2Q a)%Q -> (B2Q a <= B2Q hi)%Q ->
  (B2Q lo <= B2Q b)%Q -> (B2Q b <= B2Q hi)%Q ->
  let v := F32.of_number (mix (F32.to_number a) (F32.to_number b)) in
  valid32 v /\ (B2Q lo <= B2Q v)%Q /\ (B2Q v <= B2Q hi)%Q.
Proof.
  intros Hlo Hhi Ha Hb Hla Hah Hlb Hbh v.
  destruct (to_number_exact lo Hlo) as [HvL HvalL].
  destruct (to_number_exact hi Hhi) as [HvH HvalH].
  destruct (to_number_exact a Ha) as [HvA HvalA].
  destruct (to_number_exact b Hb) as [HvB HvalB].
  destruct (of_number_mix_constant lo Hlo) as [HrL HeL].
  destruct (of_number_mix_constant hi Hhi) as [HrH HeH].
  pose proof (valid32_magnitude lo Hlo) as HmL. apply Qabs_Qlt_condition in HmL.
  pose proof (valid32_magnitude hi Hhi) as HmH. apply Qabs_Qlt_condition in HmH.
  assert (M1 : (B2Q (mix (F32.to_number lo) (F32.to_number lo)) <=
                B2Q (mix (F32.to_number a) (F32.to_number b)))%Q).
  { apply (mix_mono _ _ _ _ (pow2 128)); try assumption; lra. }
  assert (M2 : (B2Q (mix (F32.to_number a) (F32.to_number b)) <=
                B2Q (mix (F32.to_number hi) (F32.to_number hi)))%Q).
  { apply (mix_mono _ _ _ _ (pow2 128)); try assumption; lra. }
  destruct (mix_rounded (F32.to_number a) (F32.to_number b) (pow2 128) HvA HvB)
    as (_ & _ & H3); try lra.
  pose proof (of_number_rounds _ (proj1 H3)) as Hr. fold v in Hr.
  assert (Hr' : rounded32 (B2Q (mix (F32.to_number a) (F32.to_number b))) v).
  { apply (rounds_between 24 128 prec32 _ _ _ _ _ _ Hr HrL HrH M1 M2). }
  split; [apply Hr'|]. split.
  - rewrite <- HeL. apply (rounded_mono 24 128 prec32 _ _ _ _ M1 HrL Hr').
  - rewrite <- HeH. apply (rounded_mono 24 128 prec32 _ _ _ _ M2 Hr' HrH).
Qed.

End Interpolation.

(** *** Boundedness *)

Lemma is_sample_valid32 a : is_sample a = true -> valid32 a.
Proof. destruct a; cbn; intros H; try discriminate; trivial. Qed.

Lemma forallb_lookup {A} (P : A -> bool) (l : list A) k a :
  forallb P l = true -> l !! k = Some a -> P a = true.
Proof.
  revert k. induction l as [|b l IH]; intros k H Hk; [discriminate Hk|].
  cbn [forallb] in H. apply andb_prop in H as [Hb Hl].
  destruct k as [|k]; cbn in Hk; [congruence | eauto].
Qed.

Lemma resampleAudio_empty (r_in r_out : JS.number) : resampleAudio [] r_in r_out = JS.Normal [].
Proof.
  unfold resampleAudio. destruct (JS.strict_eq r_in r_out); [reflexivity|].
  change (F32.length []) with (S754_zero false).
  destruct (JS.div r_in r_out) as [s|s| |s m e]; try destruct s; reflexivity.
Qed.

(** The value stored by an iteration lies between any two binary32 bounds
    of the input. *)
Lemma resample_at_bounded x R result lo hi i :
  x <> [] -> Z.of_nat (length x) < 2 ^ 53 -> well_formed R ->
  F32.new (JS.Math_round (JS.div (F32.length x) R)) = JS.Normal result ->
  (i < length result)%nat ->
  forallb is_sample x = true ->
  is_sample lo = true -> is_sample hi = true ->
  forallb (fun a => SFleb lo a && SFleb a hi) x = true ->
  let y := F32.of_number (resample_at x R i) in
  valid32 y /\ (B2Q lo <= B2Q y)%Q /\ (B2Q y <= B2Q hi)%Q.
Proof.
  intros Hx HL HR Hnew Hi Hs Hlo Hhi Hb y.
  apply is_sample_valid32 in Hlo, Hhi.
  assert (Hin : forall k a, x !! k = Some a ->
            valid32 a /\ (B2Q lo <= B2Q a)%Q /\ (B2Q a <= B2Q hi)%Q).
  { intros k a Hk.
    pose proof (forallb_lookup _ _ _ _ Hs Hk) as Ha. apply is_sample_valid32 in Ha.
    pose proof (forallb_lookup _ _ _ _ Hb Hk) as Hab. cbn beta in Hab.
    apply andb_prop in Hab as [H1 H2].
    apply (SFleb_correct 24 128 lo a Hlo Ha) in H1.
    apply (SFleb_correct 24 128 a hi Ha Hhi) in H2. auto. }
  destruct (reads_in_range x R result Hx HL HR Hnew i Hi)
    as (z & a & Hz0 & Ha & Hvp & Hvi & Hvali & Hzl & Hzh & Hint & Hget & Hnext).
  destruct (Hin _ _ Ha) as (Hva & Hla & Hah).
  subst y. unfold resample_at. cbv zeta.
  destruct (JS.lt _ _) eqn:Hlt.
  - destruct (Hnext eq_refl) as (b & Hb' & _ & Hget').
    destruct (Hin _ _ Hb') as (Hvb & Hlb & Hbh).
    rewrite Hget, Hget'. cbn [ToNumber].
    destruct (weights _ _ z Hvp Hvi Hvali Hzl Hzh) as (Hvf & Hf0 & Hf1 & Hg & Hg0 & Hg1).
    apply (interpolation_bounded _ _ Hvf (proj1 Hg) (conj Hf0 Hf1) (conj Hg0 Hg1) Hg
             lo hi a b); assumption.
  - rewrite Hget. cbn [ToNumber].
    destruct (of_number_to_number a Hva) as [Hv Hval].
    split; [exact Hv|]. rewrite Hval. auto.
Qed.

(** C8.  Every output sample lies between any two binary32 bounds of the
    input samples, in particular between their minimum and maximum. *)
Theorem resample_bounded (x out : F32.Float32Array) (r_in r_out : JS.number)
    (lo hi y : F32.f32) (i : nat) :
  forallb is_sample x = true ->
  Z.of_nat (length x) < 2 ^ 53 ->
  well_formed r_in -> well_formed r_out ->
  is_sample lo = true -> is_sample hi = true ->
  forallb (fun a => SFleb lo a && SFleb a hi) x = true ->
  resampleAudio x r_in r_out = JS.Normal out ->
  out !! i = Some y ->
  SFleb lo y = true /\ SFleb y hi = true.
Proof.
  intros Hs HL Hin Hout Hlo Hhi Hb Hres Hy.
  destruct (JS.strict_eq r_in r_out) eqn:Heq.
  { unfold resampleAudio in Hres. rewrite Heq in Hres. injection Hres as <-.
    pose proof (forallb_lookup _ _ _ _ Hb Hy) as H. cbn beta in H.
    apply andb_prop in H. exact H. }
  destruct x as [|x0 x'] eqn:Hx.
  { rewrite resampleAudio_empty in Hres. injection Hres as <-. discriminate Hy. }
  rewrite <- Hx in *.
  destruct (resampleAudio_resampled x r_in r_out out Heq Hres) as (result & Hnew & Hlen & Hlook).
  pose proof (lookup_lt_Some _ _ _ Hy) as Hi.
  rewrite (Hlook i Hi) in Hy. injection Hy as <-.
  destruct (resample_at_bounded x (JS.div r_in r_out) result lo hi i) as (Hv & Hl & Hh);
    try assumption.
  - rewrite Hx. discriminate.
  - apply div_well_formed; assumption.
  - lia.
  - apply is_sample_valid32 in Hlo, Hhi.
    split; [apply (SFleb_correct 24 128 _ _ Hlo Hv) | apply (SFleb_correct 24 128 _ _ Hv Hhi)];
      assumption.
Qed.

(** *** Canonical floats are determined by their value and sign *)

Lemma canonical_unique prec emax s m e s' m' e' :
  bounded prec emax m e = true -> bounded prec emax m' e' = true ->
  (F2Q s m e == F2Q s' m' e')%Q ->
  S754_finite s m e = S754_finite s' m' e'.
Proof.
  intros Hb Hb' Heq.
  pose proof (SFcompare_correct prec emax (S754_finite s m e) (S754_finite s' m' e') Hb Hb')
    as Hc.
  cbn [B2Q] in Hc. rewrite (proj1 (Qeq_alt _ _) Heq) in Hc.
  cbn [SFcompare] in Hc. injection Hc as Hc.
  destruct s, s'; try discriminate.
  - destruct (Z.compare_spec e e') as [He|He|He]; try discriminate.
    subst e'. f_equal. apply Pos.compare_eq.
    destruct (Pos.compare_cont Eq m m') eqn:E; try discriminate. exact E.
  - destruct (Z.compare_spec e e') as [He|He|He]; try discriminate.
    subst e'. f_equal. apply Pos.compare_eq. exact Hc.
Qed.

(** Storing a sample that was read gives back the very same float, special
    values included. *)
Lemma of_number_to_number_eq a :
  valid_binary 24 128 a = true -> F32.of_number (F32.to_number a) = a.
Proof.
  intros Hv. destruct a as [s|s| |s m e]; try reflexivity.
  cbn [valid_binary] in Hv.
  destruct (of_number_to_number (S754_finite s m e) Hv) as [Hv' Hval].
  cbn [B2Q] in Hval. cbn [F32.to_number] in *.
  destruct (binary_round_rounds 53 1024 prec64 emax64 s m e) as [_ Hs].
  destruct (binary_round 53 1024 s m e) as [s1|s1| |s1 m1 e1] eqn:E1; try contradiction.
  - subst s1. exfalso. cbn [F32.of_number B2Q] in Hval.
    assert (Habs : (0 < Qabs (F2Q s m e))%Q).
    { rewrite F2Q_abs. pose proof (pow2_pos e).
      assert (0 < inject_Z (Z.pos m))%Q by reflexivity. nra. }
    rewrite <- Hval in Habs. discriminate Habs.
  - subst s1. cbn [F32.of_number] in *.
    destruct (binary_round_rounds 24 128 prec32 emax32 s m1 e1) as [_ Hs2].
    destruct (binary_round 24 128 s m1 e1) as [s2|s2| |s2 m2 e2] eqn:E2; try contradiction.
    + exfalso. cbn [B2Q] in Hval.
      assert (Habs : (0 < Qabs (F2Q s m e))%Q).
      { rewrite F2Q_abs. pose proof (pow2_pos e).
        assert (0 < inject_Z (Z.pos m))%Q by reflexivity. nra. }
      rewrite <- Hval in Habs. discriminate Habs.
    + subst s2. cbn [B2Q] in Hval.
      apply (canonical_unique 24 128); assumption.
Qed.

(** *** The length of the result, in general *)

Lemma ToIndex_nonneg v n : JS.ToIndex v = JS.Normal n -> 0 <= n.
Proof.
  destruct v as [s|s| |s m e]; cbn [JS.ToIndex]; try congruence.
  - intros [= <-]. lia.
  - intros [= <-]. lia.
  - set (z := JS.dyadic_trunc (JS.signed s m) e).
    destruct (0 <=? z) eqn:E; cbn [andb]; [|congruence].
    destruct (z <=? 2 ^ 53 - 1); [|congruence].
    intros [= <-]. apply Z.leb_le. exact E.
Qed.

Lemma dyadic_trunc_zero s m e :
  JS.dyadic_trunc (JS.signed s m) e = 0 -> (Qabs (F2Q s m e) < 1)%Q.
Proof.
  unfold JS.dyadic_trunc. rewrite F2Q_abs.
  destruct (Z.leb_spec 0 e) as [He|He]; intros H.
  - exfalso. assert (0 < 2 ^ e) by (apply Z.pow_pos_nonneg; lia).
    unfold JS.signed in H. destruct s; cbn [cond_Zopp] in H; nia.
  - assert (Hp : 0 < 2 ^ (- e)) by (apply Z.pow_pos_nonneg; lia).
    apply Z.quot_small_iff in H; [|lia].
    assert (Hm : Z.pos m < 2 ^ (- e)).
    { unfold JS.signed in H. destruct s; cbn [cond_Zopp] in H; lia. }
    rewrite Zlt_Qlt, pow2_inject in Hm by lia.
    pose proof (pow2_cancel e) as Hc. pose proof (pow2_pos e). pose proof (pow2_pos (- e)).
    nra.
Qed.

Lemma ToIndex_zero r : valid64 r -> JS.ToIndex r = JS.Normal 0 -> (Qabs (B2Q r) < 1)%Q.
Proof.
  destruct r as [s|s| |s m e]; try contradiction; intros _ H.
  - reflexivity.
  - cbn [JS.ToIndex] in H. cbn [B2Q]. apply dyadic_trunc_zero.
    destruct (_ && _); [|discriminate]. congruence.
Qed.

(** [new Float32Array(Math.round(q))] has [⌊q + 1/2⌋] elements. *)
Lemma ToIndex_Math_round q n :
  valid64 q -> JS.ToIndex (JS.Math_round q) = JS.Normal n -> n < 2 ^ 52 ->
  n = Qfloor (B2Q q + (1 # 2)).
Proof.
  intros Hq Hn H52. pose proof (ToIndex_nonneg _ _ Hn) as H0.
  destruct (Z_le_gt_dec 1 n) as [H1|H1]; [apply Math_round_positive; assumption|].
  assert (n = 0) by lia. subst n.
  destruct q as [s|s| |s m e]; try contradiction; [reflexivity|].
  rewrite Math_round_finite in Hn.
  set (z := Qfloor (B2Q (S754_finite s m e) + (1 # 2))) in *.
  destruct (Z.eqb_spec z 0) as [Hz|Hz]; [congruence|exfalso].
  destruct (of_Z_rounds z) as [Hr|[[s' Hinf] _]]; [|rewrite Hinf in Hn; discriminate Hn].
  pose proof (ToIndex_zero _ (proj1 Hr) Hn) as Habs.
  apply Qabs_Qlt_condition in Habs.
  destruct (Z_le_gt_dec 1 z) as [Hpos|Hneg].
  - assert (H : (B2Q (JS.of_Z 1) <= B2Q (JS.of_Z z))%Q).
    { refine (rounded_mono 53 1024 prec64 1 (inject_Z z) _ _ _ rounded64_one Hr).
      change 1%Q with (inject_Z 1). rewrite <- Zle_Qle. exact Hpos. }
    destruct (of_Z_exact 1 ltac:(lia)) as [_ Hval]. rewrite Hval in H.
    change (inject_Z 1) with 1%Q in H. lra.
  - destruct (of_Z_exact (-1) ltac:(lia)) as [Hv Hval].
    assert (H : (B2Q (JS.of_Z z) <= B2Q (JS.of_Z (-1)))%Q).
    { refine (rounded_mono 53 1024 prec64 (inject_Z z) (inject_Z (-1)) _ _ _ Hr _).
      - rewrite <- Zle_Qle. lia.
      - rewrite <- Hval. apply rounded_self. exact Hv. }
    rewrite Hval in H. change (inject_Z (-1)) with (-1)%Q in H. lra.
Qed.

Lemma of_Z_well_formed z : well_formed (JS.of_Z z).
Proof. apply (rounds64_well_formed (inject_Z z)). apply of_Z_rounds. Qed.

Lemma new_Math_round_length q result :
  well_formed q -> F32.new (JS.Math_round q) = JS.Normal result ->
  Z.of_nat (length result) = spec_round_half_up (B2Q q).
Proof.
  intros Hq Hnew. destruct (new_length _ _ Hnew) as [Hidx H4].
  destruct q as [s|s| |s m e].
  - apply ToIndex_Math_round; [exact I | exact Hidx | lia].
  - discriminate Hidx.
  - cbn in Hidx. injection Hidx as <-. reflexivity.
  - apply ToIndex_Math_round; [exact Hq | exact Hidx | lia].
Qed.

(** C6.  The length of the result is the binary64 quotient
    [length / (inputRate / outputRate)] rounded to the nearest integer, ties
    upwards; an empty input gives an empty result. *)
Theorem resample_length (x out : F32.Float32Array) (r_in r_out : JS.number) :
  well_formed r_in -> well_formed r_out ->
  resampleAudio x r_in r_out = JS.Normal out ->
  (if JS.strict_eq r_in r_out then out = x
   else Z.of_nat (length out) =
        spec_round_half_up (B2Q (JS.div (F32.length x) (JS.div r_in r_out))))
  /\ (x = [] -> out = []).
Proof.
  intros Hin Hout H. split.
  - destruct (JS.strict_eq r_in r_out) eqn:Heq.
    + unfold resampleAudio in H. rewrite Heq in H. congruence.
    + destruct (resampleAudio_resampled x r_in r_out out Heq H) as (result & Hnew & Hlen & _).
      rewrite Hlen. apply new_Math_round_length; [|exact Hnew].
      apply div_well_formed; [apply of_Z_well_formed | apply div_well_formed; assumption].
  - intros ->. rewrite resampleAudio_empty in H. congruence.
Qed.

Lemma resample_length_counterexample :
  exists out : F32.Float32Array,
    resampleAudio (map F32.of_Z [0; 1; 0]) (JS.of_Z 6) (JS.of_Z 59) = JS.Normal out /\
    length out = 29%nat /\
    spec_length 3 6 59 = 30.
Proof.
  eexists. split; [vm_compute; reflexivity|]. split; reflexivity.
Qed.

(** *** The samples of the result *)

(** C5.  Each element of the result is the sample at the integer part of
    its position or, when that sample has a successor, the interpolation
    between the two, computed in binary64 and rounded to binary32 when it
    is stored. *)
Theorem resample_interpolates (x out : F32.Float32Array) (r_in r_out : JS.number)
    (i : nat) :
  x <> [] -> Z.of_nat (length x) < 2 ^ 53 ->
  forallb (valid_binary 24 128) x = true ->
  well_formed r_in -> well_formed r_out ->
  JS.strict_eq r_in r_out = false ->
  resampleAudio x r_in r_out = JS.Normal out ->
  (i < length out)%nat ->
  let ratio := JS.div r_in r_out in
  let position := JS.mul (JS.of_Z (Z.of_nat i)) ratio in
  let index := JS.Math_floor position in
  let fraction := JS.sub position index in
  (exists (z : Z) (a : F32.f32),
     JS.integer_value index = Some z /\ 0 <= z /\ x !! Z.to_nat z = Some a /\
     if JS.lt (JS.add index (JS.of_Z 1)) (F32.length x)
     then exists b : F32.f32,
            x !! Z.to_nat (z + 1) = Some b /\
            out !! i = Some (F32.of_number
              (JS.add (JS.mul (F32.to_number a) (JS.sub (JS.of_Z 1) fraction))
                      (JS.mul (F32.to_number b) fraction)))
     else out !! i = Some a)
  /\ resampleAudio (map F32.of_Z [0; 1; 0; -1]) (JS.of_Z 4) (JS.of_Z 2)
     = JS.Normal (map F32.of_Z [0; 0]).
Proof.
  intros Hx HL Hs Hin Hout Hne Hres Hi ratio position index fraction.
  split; [|vm_compute; reflexivity].
  destruct (resampleAudio_resampled x r_in r_out out Hne Hres) as (result & Hnew & Hlen & Hlook).
  rewrite (Hlook i Hi). rewrite Hlen in Hi.
  destruct (reads_in_range x ratio result Hx HL (div_well_formed _ _ Hin Hout) Hnew i Hi)
    as (z & a & Hz0 & Ha & _ & _ & _ & _ & _ & Hint & Hget & Hnext).
  fold position in Hint, Hget, Hnext. fold index in Hint, Hget, Hnext.
  exists z, a. split; [exact Hint|]. split; [exact Hz0|]. split; [exact Ha|].
  unfold resample_at. cbv zeta. fold ratio. fold position. fold index. fold fraction.
  destruct (JS.lt (JS.add index (JS.of_Z 1)) (F32.length x)) eqn:Hlt.
  - destruct (Hnext eq_refl) as (b & Hb & _ & Hget').
    exists b. split; [exact Hb|]. rewrite Hget, Hget'. reflexivity.
  - rewrite Hget. cbn [ToNumber]. f_equal. apply of_number_to_number_eq.
    exact (forallb_lookup _ _ _ _ Hs Ha).
Qed.

Lemma resample_interpolates_counterexample :
  let x := map F32.of_Z [0; 1] in
  let ratio := JS.div (JS.of_Z 3) (JS.of_Z 10) in
  let position := JS.mul (JS.of_Z 1) ratio in
  let index := JS.Math_floor position in
  let fraction := JS.sub position index in
  let interpolated :=
    JS.add (JS.mul (ToNumber (F32.get x index)) (JS.sub (JS.of_Z 1) fraction))
           (JS.mul (ToNumber (F32.get x (JS.add index (JS.of_Z 1)))) fraction) in
  exists out y,
    resampleAudio x (JS.of_Z 3) (JS.of_Z 10) = JS.Normal out /\
    JS.lt (JS.add index (JS.of_Z 1)) (F32.length x) = true /\
    out !! 1%nat = Some y /\
    JS.strict_eq (F32.to_number y) interpolated = false.
Proof.
  cbv zeta. eexists. eexists. split; [vm_compute; reflexivity|].
  split; [vm_compute; reflexivity|]. split; [reflexivity|]. vm_compute. reflexivity.
Qed.

(** * The transcription service *)

Lemma initialize_when_loading lp modelName w :
  loading lp w ->
  initialize modelName w =
    (length (promises w),
     {| this := this w; promises := promises w ++ [Pending];
        parked := parked w ++ [(lp, After_wait (length (promises w)))];
        loads := loads w; jobs := jobs w; log := log w |}).
Proof.
  intros (Ht & Hl & Hp & Hlp).
  unfold initialize, new_promise. cbn [this promises].
  rewrite Ht, Hl, Hp. unfold await. cbn [promises].
  rewrite lookup_app_l by (eapply lookup_lt_Some; eauto).
  rewrite Hlp. reflexivity.
Qed.

Lemma initialize_all_when_loading lp modelNames : forall w,
  loading lp w ->
  initialize_all modelNames w =
    (seq (length (promises w)) (length modelNames),
     {| this := this w;
        promises := promises w ++ replicate (length modelNames) Pending;
        parked := parked w ++
          map (fun q => (lp, After_wait q)) (seq (length (promises w)) (length modelNames));
        loads := loads w; jobs := jobs w; log := log w |}).
Proof.
  induction modelNames as [|m ms IH]; intros w Hw.
  - cbn. rewrite !app_nil_r. destruct w; reflexivity.
  - cbn [initialize_all]. rewrite (initialize_when_loading lp) by assumption.
    rewrite IH.
    + cbn [this promises parked loads jobs log length seq map replicate].
      rewrite length_app. cbn [length]. rewrite Nat.add_1_r.
      rewrite <- !app_assoc. reflexivity.
    + destruct Hw as (Ht & Hl & Hp & Hlp). repeat split; cbn; try assumption.
      rewrite lookup_app_l by (eapply lookup_lt_Some; eauto). assumption.
Qed.

(** The first call on an unloaded service starts the load. *)
Lemma initialize_when_unloaded modelName w :
  transcriber (this w) = None -> isLoading (this w) = false ->
  initialize modelName w =
    (length (promises w),
     {| this := {| transcriber := None; isLoading := true;
                   loadingPromise := Some (S (length (promises w))) |};
        promises := promises w ++ [Pending; Pending];
        parked := parked w ++
          [(S (length (promises w)), After_load (length (promises w)))];
        loads := loads w ++
          [{| load_model := modelName;
              load_waiter := S (length (promises w));
              load_settled := false |}];
        jobs := jobs w;
        log := log w ++ ["Loading Whisper model: " +:+ modelName] |}).
Proof.
  intros Ht Hl.
  unfold initialize, new_promise, _loadModel, new_promise, console_log, set_this.
  cbn [this promises parked loads jobs log transcriber isLoading loadingPromise
       set_isLoading set_loadingPromise].
  rewrite Ht, Hl.
  cbn [this promises parked loads jobs log transcriber isLoading loadingPromise
       set_isLoading set_loadingPromise].
  unfold await. cbn [this promises parked loads jobs log loadingPromise].
  rewrite length_app. cbn [length]. rewrite Nat.add_1_r.
  rewrite <- app_assoc. cbn [app].
  rewrite lookup_app_r by lia.
  replace (S (length (promises w)) - length (promises w))%nat with 1%nat by lia.
  cbn [lookup list_lookup]. unfold park, set_loadingPromise, set_isLoading.
  cbn [this promises parked loads jobs log transcriber isLoading loadingPromise].
  rewrite Ht. reflexivity.
Qed.

Lemma drain_waiters callers : forall w rest,
  parked w = [] -> jobs w = waiter_jobs callers ++ rest ->
  drain (length callers) w =
    {| this := this w;
       promises := foldl (fun ps q => <[ q := Fulfilled ]> ps) (promises w) callers;
       parked := []; loads := loads w; jobs := rest; log := log w |}.
Proof.
  induction callers as [|q qs IH]; intros w rest Hp Hj.
  - cbn in *. destruct w; cbn in *; subst; reflexivity.
  - cbn [length drain]. rewrite Hj. cbn [waiter_jobs map app].
    unfold next_job. rewrite Hj. cbn [waiter_jobs map app run_job].
    unfold settle. cbn [this promises parked loads jobs log]. rewrite Hp.
    cbn [List.filter map]. rewrite app_nil_r.
    rewrite IH with (rest := rest); [reflexivity | reflexivity | reflexivity].
Qed.

Lemma filter_parked_on_all lp (ks : list continuation) :
  List.filter (parked_on lp) (map (fun k => (lp, k)) ks) = map (fun k => (lp, k)) ks.
Proof.
  induction ks as [|k ks IH]; [reflexivity|].
  cbn. unfold parked_on at 1. cbn. rewrite Nat.eqb_refl. f_equal. exact IH.
Qed.

Lemma filter_parked_on_none lp (ks : list continuation) :
  List.filter (fun entry => negb (parked_on lp entry)) (map (fun k => (lp, k)) ks) = [].
Proof.
  induction ks as [|k ks IH]; [reflexivity|].
  cbn. unfold parked_on at 1. cbn. rewrite Nat.eqb_refl. exact IH.
Qed.

Lemma lookup_foldl_fulfil_other (qs : list nat) p : forall ps : list promise_state,
  p ∉ qs ->
  foldl (fun ps q => <[ q := Fulfilled ]> ps) ps qs !! p = ps !! p.
Proof.
  induction qs as [|q qs IH]; intros ps Hp; cbn; [reflexivity|].
  rewrite IH by (intros H; apply Hp; right; exact H).
  apply list_lookup_insert_ne. intros ->. apply Hp. left.
Qed.

Lemma lookup_foldl_fulfil (qs : list nat) p : forall ps : list promise_state,
  p ∈ qs -> (p < length ps)%nat ->
  foldl (fun ps q => <[ q := Fulfilled ]> ps) ps qs !! p = Some Fulfilled.
Proof.
  induction qs as [|q qs IH]; intros ps Hp Hlen; cbn.
  - inversion Hp.
  - destruct (decide (p ∈ qs)) as [Hin|Hnin].
    + apply IH; [exact Hin | rewrite length_insert; exact Hlen].
    + rewrite lookup_foldl_fulfil_other by exact Hnin.
      apply elem_of_cons in Hp as [->|Hp]; [|contradiction].
      apply list_lookup_insert_eq. exact Hlen.
Qed.

(** Only the continuation of [_loadModel] writes [this.transcriber]. *)
Lemma drain_keeps_transcriber fuel : forall w,
  Forall resumes_initialize (jobs w) ->
  transcriber (this (drain fuel w)) = transcriber (this w).
Proof.
  induction fuel as [|fuel IH]; intros w Hj; [reflexivity|].
  cbn [drain]. destruct (jobs w) as [|j rest] eqn:Ej; [reflexivity|].
  unfold next_job. rewrite Ej.
  inversion Hj as [|? ? Hhd Htl]; subst.
  assert (Hq : forall p st w0, Forall resumes_initialize (jobs w0) ->
             Forall resumes_initialize (jobs (settle p st w0))).
  { intros p st w0 H0. unfold settle. cbn [jobs].
    apply Forall_app. split; [exact H0|].
    apply Forall_forall. intros x Hx. apply list_elem_of_In, in_map_iff in Hx.
    destruct Hx as (entry & <- & _). exact I. }
  destruct j as [self o|k o]; [destruct Hhd|].
  destruct k as [self|self], o as [[]|e]; cbn [run_job];
    rewrite IH by (apply Hq; exact Htl); reflexivity.
Qed.

Lemma drain_step fuel w j rest :
  jobs w = j :: rest ->
  drain (S fuel) w =
    drain fuel
      (run_job j {| this := this w; promises := promises w; parked := parked w;
                    loads := loads w; jobs := rest; log := log w |}).
Proof. intros H. cbn [drain]. unfold next_job. rewrite H. reflexivity. Qed.

Section SingleFlight.

Variable w : World.
Variables (first : string) (others : list string).
Hypothesis Hnone : transcriber (this w) = None.
Hypothesis Hidle : isLoading (this w) = false.
Hypothesis Hparked : parked w = [].
Hypothesis Hjobs : jobs w = [].

Let P := length (promises w).
Let n := length others.

(** The world once all the calls have been made. *)
Lemma initialize_all_unloaded :
  initialize_all (first :: others) w =
    (P :: seq (S (S P)) n,
     {| this := {| transcriber := None; isLoading := true;
                   loadingPromise := Some (S P) |};
        promises := promises w ++ replicate (S (S n)) Pending;
        parked := map (fun k => (S P, k))
                    (After_load P :: map After_wait (seq (S (S P)) n));
        loads := loads w ++
          [{| load_model := first; load_waiter := S P; load_settled := false |}];
        jobs := [];
        log := log w ++ ["Loading Whisper model: " +:+ first] |}).
Proof.
  cbn [initialize_all].
  rewrite initialize_when_unloaded by assumption.
  rewrite (initialize_all_when_loading (S P)).
  - cbn [this promises parked loads jobs log].
    rewrite Hparked, Hjobs. rewrite !length_app. cbn [length].
    replace (length (promises w) + 2)%nat with (S (S P)) by (subst P; lia).
    rewrite <- app_assoc. cbn [app map replicate]. rewrite map_map. reflexivity.
  - repeat split; cbn [this promises transcriber isLoading loadingPromise]; try reflexivity.
    rewrite lookup_app_r by lia.
    replace (S P - length (promises w))%nat with 1%nat by (subst P; lia).
    reflexivity.
Qed.

Variable pipe : Pipeline.

(** The world once the load has succeeded and the queue has run dry. *)
Lemma drain_after_load :
  drain (S (S n))
    (pipeline_settles (length (loads w)) (JS.Normal pipe)
       (snd (initialize_all (first :: others) w))) =
    {| this := {| transcriber := Some pipe; isLoading := false;
                  loadingPromise := Some (S P) |};
       promises :=
         foldl (fun ps q => <[ q := Fulfilled ]> ps)
           (<[ P := Fulfilled ]>
              (<[ S P := Fulfilled ]> (promises w ++ replicate (S (S n)) Pending)))
           (seq (S (S P)) n);
       parked := [];
       loads := loads w ++
         [{| load_model := first; load_waiter := S P; load_settled := true |}];
       jobs := [];
       log := log w ++ ["Loading Whisper model: " +:+ first;
                        "Whisper model loaded successfully"] |}.
Proof.
  rewrite initialize_all_unloaded. cbn [snd].
  unfold pipeline_settles. cbn [loads].
  rewrite lookup_app_r by lia. rewrite Nat.sub_diag. cbn [lookup list_lookup load_settled].
  cbn [this promises parked loads jobs log load_model load_waiter app].
  rewrite insert_app_r_alt by lia. rewrite Nat.sub_diag. cbn [insert list_insert].
  (* the continuation of _loadModel *)
  erewrite drain_step by reflexivity. cbn [run_job].
  unfold settle at 1, console_log, set_this, set_transcriber.
  cbn [this promises parked loads jobs log transcriber isLoading loadingPromise].
  rewrite filter_parked_on_all, filter_parked_on_none. cbn [app].
  rewrite map_map. cbn [map snd outcome_of].
  (* the continuation of the call that started the load *)
  erewrite drain_step by reflexivity. cbn [run_job].
  unfold settle at 1, set_this, set_isLoading.
  cbn [this promises parked loads jobs log transcriber isLoading loadingPromise
       List.filter map app].
  rewrite app_nil_r.
  (* the continuations of the calls that waited *)
  rewrite map_map.
  pose proof (drain_waiters (seq (S (S P)) n)) as Hdrain.
  rewrite length_seq in Hdrain.
  rewrite (Hdrain _ []).
  - cbn [this promises parked loads jobs log]. rewrite <- app_assoc. reflexivity.
  - reflexivity.
  - cbn [jobs]. rewrite app_nil_r. unfold waiter_jobs. reflexivity.
Qed.

End SingleFlight.

(** C3.  Any number of [initialize] calls made on an unloaded service
    before the load settles start exactly one [pipeline] call, for the model
    of the first caller; every caller is left pending, and once the load
    succeeds every caller's promise is fulfilled while [this.transcriber]
    holds the one loaded pipeline, from the first job on. *)
Theorem single_flight (w : World) (first : string) (others : list string)
    (pipe : Pipeline) :
  transcriber (this w) = None -> isLoading (this w) = false ->
  parked w = [] -> jobs w = [] ->
  let callers := fst (initialize_all (first :: others) w) in
  let w1 := snd (initialize_all (first :: others) w) in
  let settled := pipeline_settles (length (loads w)) (JS.Normal pipe) w1 in
  let w2 := drain (S (length callers)) settled in
  length callers = S (length others) /\
  (exists lp, loads w1 = loads w ++
     [{| load_model := first; load_waiter := lp; load_settled := false |}]) /\
  length (loads w2) = S (length (loads w)) /\
  jobs w2 = [] /\
  (forall j, (1 <= j)%nat -> transcriber (this (drain j settled)) = Some pipe) /\
  (forall p, p ∈ callers ->
     promises w1 !! p = Some Pending /\ promises w2 !! p = Some Fulfilled).
Proof.
  intros Hnone Hidle Hparked Hjobs callers w1 settled w2.
  assert (Hlen : length callers = S (length others)).
  { subst callers. rewrite initialize_all_unloaded by assumption.
    cbn [fst length]. rewrite length_seq. reflexivity. }
  assert (Hw2 := drain_after_load w first others Hnone Hidle Hparked Hjobs pipe).
  fold w1 in Hw2. fold settled in Hw2. rewrite <- Hlen in Hw2. fold w2 in Hw2.
  assert (Hw1 := initialize_all_unloaded w first others Hnone Hidle Hparked Hjobs).
  assert (Hw1' : w1 = snd (initialize_all (first :: others) w)) by reflexivity.
  assert (Hc : callers = fst (initialize_all (first :: others) w)) by reflexivity.
  rewrite Hw1 in Hw1', Hc. cbn [fst snd] in Hw1', Hc.
  split; [exact Hlen|]. split; [|split; [|split; [|split]]].
  - exists (S (length (promises w))). rewrite Hw1'. reflexivity.
  - rewrite Hw2. cbn [loads]. rewrite length_app. cbn [length]. lia.
  - rewrite Hw2. reflexivity.
  - intros [|j] Hj; [lia|].
    subst settled. rewrite Hw1'. unfold pipeline_settles. cbn [loads].
    rewrite lookup_app_r by lia. rewrite Nat.sub_diag.
    cbn [lookup list_lookup load_settled this promises parked loads jobs log
         load_waiter app].
    erewrite drain_step by reflexivity. cbn [run_job].
    rewrite drain_keeps_transcriber; [reflexivity|].
    unfold settle, console_log, set_this. cbn [jobs app].
    apply Forall_forall. intros x Hx. apply list_elem_of_In, in_map_iff in Hx.
    destruct Hx as (entry & <- & _). exact I.
  - intros p Hp. rewrite Hc in Hp.
    assert (Hrange : (length (promises w) <= p < length (promises w) + S (S (length others)))%nat
                     /\ p <> S (length (promises w))).
    { apply elem_of_cons in Hp as [->|Hp]; [lia|].
      apply list_elem_of_In, in_seq in Hp. lia. }
    split.
    + rewrite Hw1'. cbn [promises]. rewrite lookup_app_r by lia.
      apply lookup_replicate. split; [reflexivity|lia].
    + rewrite Hw2. cbn [promises].
      apply elem_of_cons in Hp as [->|Hp].
      * rewrite lookup_foldl_fulfil_other
          by (intros H; apply list_elem_of_In, in_seq in H; lia).
        apply list_lookup_insert_eq. rewrite length_insert, length_app, length_replicate. lia.
      * apply lookup_foldl_fulfil; [exact Hp|].
        rewrite !length_insert, length_app, length_replicate. lia.
Qed.

(** C1.  A failed load is not undone: after the promise of [pipeline]
    is rejected, [isLoading] is still set, [loadingPromise] still holds the
    rejected promise, and a later [initialize] starts no new load and is
    itself rejected with the old reason. *)
Theorem failed_load_is_not_reset (first second : string) (e : JS.exn) :
  let failed :=
    run [Call_initialize first; Pipeline_settles 0 (JS.Throw e); Run_job; Run_job]
        initial_world in
  let retry := initialize second failed in
  this failed = {| transcriber := None; isLoading := true; loadingPromise := Some 1%nat |} /\
  promises failed = [Rejected e; Rejected e] /\
  jobs failed = [] /\
  loads (snd retry) = loads failed /\
  length (loads (snd retry)) = 1%nat /\
  promises (drain 1 (snd retry)) !! fst retry = Some (Rejected e).
Proof. cbv zeta. repeat split. Qed.

(** C4.  Once a model is loaded, [initialize], for any model name,
    fulfils its promise at once, makes no [pipeline] call and leaves the
    service and its pipeline as they were. *)
Theorem initialize_idempotent_when_loaded (w : World) (pipe : Pipeline)
    (modelName : string) :
  transcriber (this w) = Some pipe ->
  let self := fst (initialize modelName w) in
  let w' := snd (initialize modelName w) in
  this w' = this w /\ loads w' = loads w /\ log w' = log w /\
  promises w' !! self = Some Fulfilled.
Proof.
  intros Hloaded. unfold initialize, new_promise. cbn [this]. rewrite Hloaded.
  cbn [fst snd settle this loads log promises]. repeat split.
  apply list_lookup_insert_eq. rewrite length_app. cbn. lia.
Qed.

Lemma dispose_unloads (w : World) : transcriber (this (snd (dispose w))) = None.
Proof.
  unfold dispose, new_promise. cbn [this].
  destruct (transcriber (this w)) eqn:E; cbn; [reflexivity | exact E].
Qed.

(** C2.  While no model is loaded, before [initialize] or after
    [dispose], both transcription methods throw the not-initialised error
    without any call to the network, the decoder or the model, and
    [isReady] answers [false]. *)
Theorem transcribe_not_initialized {Response ArrayBuffer Blob : Type}
    (fetch : string -> JS.completion Response)
    (Response_arrayBuffer : Response -> JS.completion ArrayBuffer)
    (Blob_arrayBuffer : Blob -> JS.completion ArrayBuffer)
    (decodeAudioData : ArrayBuffer -> JS.completion AudioBuffer)
    (run_pipeline : Pipeline -> F32.Float32Array -> JS.completion string)
    (w : World) (audioUrl : string) (audioBlob : Blob) :
  transcriber (this w) = None \/ (exists w0, w = snd (dispose w0)) ->
  transcribeFromUrl fetch Response_arrayBuffer decodeAudioData run_pipeline
    (this w) audioUrl = ([], JS.Throw NotInitialized) /\
  transcribeFromBlob Blob_arrayBuffer decodeAudioData run_pipeline
    (this w) audioBlob = ([], JS.Throw NotInitialized) /\
  isReady (this w) = false.
Proof.
  intros H.
  assert (Hnone : transcriber (this w) = None).
  { destruct H as [H|[w0 ->]]; [exact H | apply dispose_unloads]. }
  unfold transcribeFromUrl, transcribeFromBlob, isReady. rewrite Hnone.
  repeat split.
Qed.

(** * The resampler *)

Lemma SFeqb_refl_pos (r : spec_float) : SFltb (JS.of_Z 0) r = true -> SFeqb r r = true.
Proof.
  destruct r as [s|s| |s m e]; try discriminate.
  - destruct s; [discriminate | reflexivity].
  - destruct s; [discriminate|]. intros _.
    unfold SFeqb, SFcompare. rewrite Z.compare_refl, Pos.compare_cont_refl. reflexivity.
Qed.

(** C7.  Resampling to the same positive rate returns the input itself. *)
Theorem resample_identity (x : F32.Float32Array) (r : JS.number) :
  JS.lt (JS.of_Z 0) r = true -> resampleAudio x r r = JS.Normal x.
Proof.
  intros Hpos. unfold resampleAudio, JS.strict_eq.
  rewrite (SFeqb_refl_pos r Hpos). reflexivity.
Qed.

(** * The loaders *)

(** C9.  Both loaders decode the bytes, take channel 0 and resample
    it exactly when the decoded rate differs from the requested one;
    otherwise channel 0 is returned as it is. *)
Theorem loaders_select_channel_0 {Response ArrayBuffer Blob : Type}
    (fetch : string -> JS.completion Response)
    (Response_arrayBuffer : Response -> JS.completion ArrayBuffer)
    (Blob_arrayBuffer : Blob -> JS.completion ArrayBuffer)
    (decodeAudioData : ArrayBuffer -> JS.completion AudioBuffer)
    (url : string) (blob : Blob) (response : Response) (bytes : ArrayBuffer)
    (native target : JS.number) (channel0 : F32.Float32Array)
    (others : list F32.Float32Array) :
  fetch url = JS.Normal response ->
  Response_arrayBuffer response = JS.Normal bytes ->
  Blob_arrayBuffer blob = JS.Normal bytes ->
  decodeAudioData bytes =
    JS.Normal {| sampleRate := native; channelData := channel0 :: others |} ->
  let loaded :=
    if JS.strict_eq native target then JS.Normal channel0
    else resampleAudio channel0 native target in
  read_audio fetch Response_arrayBuffer decodeAudioData url target =
    ([Ev_fetch url; Ev_arrayBuffer; Ev_decodeAudioData], loaded) /\
  read_audio_from_blob Blob_arrayBuffer decodeAudioData blob target =
    ([Ev_arrayBuffer; Ev_decodeAudioData], loaded).
Proof.
  intros Hf Hr Hb Hd loaded. subst loaded.
  unfold read_audio, read_audio_from_blob, io_call, io_lift, getChannelData,
    Float32Array_from, JS.strict_ne, JS.strict_eq.
  rewrite Hf, Hb. cbn [mbind io_bind]. rewrite Hr. cbn [mbind io_bind app].
  rewrite Hd. cbn [mbind io_bind app channelData sampleRate lookup list_lookup].
  destruct (SFeqb native target); cbn [negb]; split; reflexivity.
Qed.

(** * Samples that are hit exactly *)

(** [===] on finite floats compares the values. *)
Lemma SFeqb_correct prec emax x y :
  finite_valid prec emax x -> finite_valid prec emax y ->
  SFeqb x y = true <-> (B2Q x == B2Q y)%Q.
Proof.
  intros Hx Hy. unfold SFeqb. rewrite (SFcompare_correct prec emax x y Hx Hy).
  rewrite Qeq_alt. destruct (B2Q x ?= B2Q y)%Q; split; congruence.
Qed.

(** With weights [1] and [0] the interpolation returns the first sample. *)
Lemma interpolation_at_sample f g a b :
  valid64 f -> valid64 g -> (B2Q f == 0)%Q -> (B2Q g == 1)%Q ->
  valid32 a -> valid32 b ->
  let v := F32.of_number
             (JS.add (JS.mul (F32.to_number a) g) (JS.mul (F32.to_number b) f)) in
  valid32 v /\ (B2Q v == B2Q a)%Q.
Proof.
  intros Hf Hg HF HG Ha Hb v.
  destruct (to_number_exact a Ha) as [HvA HvalA].
  destruct (to_number_exact b Hb) as [HvB HvalB].
  pose proof (valid32_magnitude a Ha) as HmA. apply Qabs_Qlt_condition in HmA.
  pose proof (valid32_magnitude b Hb) as HmB. apply Qabs_Qlt_condition in HmB.
  destruct (mix_rounded f g Hf Hg ltac:(rewrite HF; split; lra) ltac:(rewrite HG; split; lra)
              (F32.to_number a) (F32.to_number b) (pow2 128) HvA HvB)
    as (H1 & H2 & H3); try lra.
  assert (E1 : (B2Q (JS.mul (F32.to_number a) g) == B2Q a)%Q).
  { rewrite (rounded_exact 53 1024 _ _ (F32.to_number a) H1 HvA); [rewrite HG, HvalA; ring|].
    rewrite HG. ring. }
  assert (E2 : (B2Q (JS.mul (F32.to_number b) f) == 0)%Q).
  { rewrite (rounded_exact 53 1024 _ _ (S754_zero false) H2 I); [rewrite HF; ring|].
    rewrite HF. cbn [B2Q]. ring. }
  assert (E3 : (B2Q (JS.add (JS.mul (F32.to_number a) g) (JS.mul (F32.to_number b) f))
                == B2Q a)%Q).
  { rewrite (rounded_exact 53 1024 _ _ (F32.to_number a) H3 HvA); [rewrite E1, E2; ring|].
    rewrite E1, E2, HvalA. ring. }
  pose proof (of_number_rounds _ (proj1 H3)) as Hr. fold v in Hr. rewrite E3 in Hr.
  assert (Hr' : rounded32 (B2Q a) v).
  { apply (rounds_below 24 128 prec32 _ _ a); [exact Hr | exact Ha | apply Qle_refl]. }
  split; [apply Hr'|]. apply (rounded_exact 24 128 _ _ a Hr' Ha). reflexivity.
Qed.

(** When the position of an output index is a whole number, the element
    stored is the input sample at that position. *)
Lemma resample_at_on_sample x R result i z :
  x <> [] -> Z.of_nat (length x) < 2 ^ 53 -> well_formed R ->
  F32.new (JS.Math_round (JS.div (F32.length x) R)) = JS.Normal result ->
  (i < length result)%nat ->
  forallb is_sample x = true ->
  (B2Q (JS.mul (JS.of_Z (Z.of_nat i)) R) == inject_Z z)%Q ->
  exists a, x !! Z.to_nat z = Some a /\
    valid32 (F32.of_number (resample_at x R i)) /\
    (B2Q (F32.of_number (resample_at x R i)) == B2Q a)%Q.
Proof.
  intros Hx HL HR Hnew Hi Hs HP.
  destruct (reads_in_range x R result Hx HL HR Hnew i Hi)
    as (z' & a & Hz0 & Ha & Hvp & Hvi & Hvali & Hzl & Hzh & Hint & Hget & Hnext).
  assert (z' = z).
  { rewrite HP in Hzl, Hzh.
    assert (Hlt : (inject_Z z < inject_Z (z' + 1))%Q)
      by (rewrite inject_Z_plus; exact Hzh).
    rewrite <- Zle_Qle in Hzl. rewrite <- Zlt_Qlt in Hlt. lia. }
  subst z'. exists a. split; [exact Ha|].
  pose proof (is_sample_valid32 _ (forallb_lookup _ _ _ _ Hs Ha)) as Hva.
  unfold resample_at. cbv zeta.
  destruct (JS.lt _ _) eqn:Hlt.
  - destruct (Hnext eq_refl) as (b & Hb & _ & Hget').
    pose proof (is_sample_valid32 _ (forallb_lookup _ _ _ _ Hs Hb)) as Hvb.
    rewrite Hget, Hget'. cbn [ToNumber].
    pose proof (SFsub_rounds 53 1024 prec64 emax64 _ _ Hvp Hvi) as Hf. fold JS.sub in Hf.
    destruct (rounds64_integer _ _ 0 Hf) as [Hvf HF]; [rewrite HP, Hvali; ring | lia|].
    destruct (of_Z_exact 1 ltac:(lia)) as [Hv1 Hval1].
    pose proof (SFsub_rounds 53 1024 prec64 emax64 _ _ Hv1 Hvf) as Hg. fold JS.sub in Hg.
    destruct (rounds64_integer _ _ 1 Hg) as [Hvg HG]; [rewrite Hval1, HF; ring | lia|].
    apply interpolation_at_sample; assumption.
  - rewrite Hget. cbn [ToNumber]. apply of_number_to_number. exact Hva.
Qed.

Lemma positive_number z :
  0 < z < 2 ^ 53 ->
  exists m e, JS.of_Z z = S754_finite false m e /\ bounded 53 1024 m e = true /\
    (F2Q false m e == inject_Z z)%Q.
Proof.
  intros Hz. destruct (of_Z_exact z ltac:(lia)) as [Hv Hval].
  assert (Hpos : (0 < B2Q (JS.of_Z z))%Q).
  { rewrite Hval. change 0%Q with (inject_Z 0). rewrite <- Zlt_Qlt. lia. }
  destruct (JS.of_Z z) as [s|s| |s m e]; try contradiction; cbn [B2Q] in *; [lra|].
  destruct s.
  - exfalso. unfold F2Q in Hpos. cbn [cond_Zopp] in Hpos. pose proof (pow2_pos e).
    assert (inject_Z (- Z.pos m) < 0)%Q by reflexivity. nra.
  - exists m, e. auto.
Qed.

(** X1.  Whenever the result is not empty, its first element is the first
    sample of the input, whatever the two rates are. *)
Theorem resample_first_sample (x out : F32.Float32Array) (r_in r_out : JS.number)
    (a0 y : F32.f32) :
  forallb is_sample x = true ->
  Z.of_nat (length x) < 2 ^ 53 ->
  well_formed r_in -> well_formed r_out ->
  resampleAudio x r_in r_out = JS.Normal out ->
  x !! 0%nat = Some a0 -> out !! 0%nat = Some y ->
  SFeqb y a0 = true.
Proof.
  intros Hs HL Hin Hout Hres Ha0 Hy.
  pose proof (is_sample_valid32 _ (forallb_lookup _ _ _ _ Hs Ha0)) as Hva0.
  destruct (JS.strict_eq r_in r_out) eqn:Heq.
  { unfold resampleAudio in Hres. rewrite Heq in Hres. injection Hres as <-.
    assert (y = a0) by congruence. subst y.
    apply (SFeqb_correct 24 128); [assumption | assumption | reflexivity]. }
  assert (Hx : x <> []) by (intros ->; discriminate Ha0).
  destruct (resampleAudio_resampled x r_in r_out out Heq Hres) as (result & Hnew & Hlen & Hlook).
  pose proof (lookup_lt_Some _ _ _ Hy) as Hi.
  rewrite (Hlook 0%nat Hi) in Hy. injection Hy as <-.
  pose proof (div_well_formed _ _ Hin Hout) as HR.
  assert (Hne : result <> []) by (destruct result; [cbn in Hlen; lia | discriminate]).
  destruct (ratio_positive x _ result Hx HL HR Hnew Hne) as (m & e & HRf & Hb & _).
  destruct (resample_at_on_sample x (JS.div r_in r_out) result 0%nat 0 Hx HL HR Hnew
              ltac:(lia) Hs) as (a & Ha & Hv & Hval).
  { rewrite HRf. reflexivity. }
  change (Z.to_nat 0) with 0%nat in Ha.
  assert (a = a0) by congruence. subst a.
  apply (SFeqb_correct 24 128); assumption.
Qed.


(** Half-integers below [2^52] are numbers. *)
Lemma half_integer_number (m : Z) :
  Z.abs (2 * m - 1) < 2 ^ 53 ->
  exists c, rounded64 (inject_Z m - (1 # 2)) c /\ (B2Q c == inject_Z m - (1 # 2))%Q.
Proof.
  intros Hm. exists (binary_normalize 53 1024 (2 * m - 1) (-1) false).
  pose proof (binary_normalize_rounds 53 1024 prec64 emax64 (2 * m - 1) (-1) false) as Hr.
  assert (HX : (inject_Z (2 * m - 1) * pow2 (-1) == inject_Z m - (1 # 2))%Q).
  { unfold Z.sub. rewrite inject_Z_plus, inject_Z_mult.
    change (pow2 (-1)) with (1 # 2)%Q. change (inject_Z 2) with 2%Q.
    change (inject_Z (- (1))) with (-1)%Q. ring. }
  assert (Habs : (Qabs (inject_Z (2 * m - 1) * pow2 (-1)) < pow2 52)%Q).
  { rewrite Qabs_Qmult, Qabs_inject_Z. change (Qabs (pow2 (-1))) with (1 # 2)%Q.
    assert (H : (inject_Z (Z.abs (2 * m - 1)) < inject_Z (2 ^ 53))%Q)
      by (rewrite <- Zlt_Qlt; exact Hm).
    change (inject_Z (2 ^ 53)) with (2 * pow2 52)%Q in H. lra. }
  assert (Hr' : rounded64 (inject_Z (2 * m - 1) * pow2 (-1))
                  (binary_normalize 53 1024 (2 * m - 1) (-1) false)).
  { apply (rounds_small 53 1024 prec64 emax64); [exact Hr|].
    apply Qlt_trans with (pow2 52); [exact Habs | apply pow2_lt; lia]. }
  pose proof (rounded_exact_grid 53 1024 _ _ (2 * m - 1) (-1) Hr' ltac:(reflexivity)
                ltac:(unfold emin; lia) Habs) as Hval.
  rewrite HX in Hr', Hval. split; assumption.
Qed.

(** X3.  When the input rate is [k] times the output rate, both whole
    numbers, the length of the result is the length of the input divided
    by [k] and rounded to the nearest integer, ties upwards. *)
Theorem resample_decimation_length (x out : F32.Float32Array) (k r : Z) :
  Z.of_nat (length x) < 2 ^ 52 ->
  0 < r -> 1 <= k -> k * r < 2 ^ 53 ->
  resampleAudio x (JS.of_Z (k * r)) (JS.of_Z r) = JS.Normal out ->
  Z.of_nat (length out) = spec_length (length x) (k * r) r.
Proof.
  intros HL Hr Hk Hkr Hres.
  assert (Hr53 : r < 2 ^ 53) by nia.
  assert (Hk53 : k < 2 ^ 53) by nia.
  set (L := Z.of_nat (length x)) in *.
  assert (HL0 : 0 <= L) by (subst L; lia).
  assert (HK : (0 < inject_Z k)%Q).
  { change 0%Q with (inject_Z 0). rewrite <- Zlt_Qlt. lia. }
  assert (HK53 : (inject_Z k <= 9007199254740992)%Q).
  { change 9007199254740992%Q with (inject_Z (2 ^ 53)). rewrite <- Zle_Qle. lia. }
  assert (HLq : (0 <= inject_Z L)%Q).
  { change 0%Q with (inject_Z 0). rewrite <- Zle_Qle. lia. }
  assert (HL52 : (inject_Z L <= 4503599627370496 - 1)%Q).
  { change (4503599627370496 - 1)%Q with (inject_Z (2 ^ 52 - 1)). rewrite <- Zle_Qle. lia. }
  (* the exact quotient and its rounding *)
  set (Y := (inject_Z L / inject_Z k)%Q).
  assert (HYK : (Y * inject_Z k == inject_Z L)%Q) by (unfold Y; field; lra).
  assert (HY0 : (0 <= Y)%Q).
  { unfold Y, Qdiv. assert (0 < / inject_Z k)%Q by (apply Qinv_lt_0_compat; exact HK). nra. }
  assert (HYL : (Y <= inject_Z L)%Q).
  { assert (1 <= inject_Z k)%Q by (change 1%Q with (inject_Z 1); rewrite <- Zle_Qle; lia).
    nra. }
  assert (Hspec : spec_length (length x) (k * r) r = Qfloor (Y + (1 # 2))).
  { unfold spec_length, spec_round_half_up. apply Qfloor_comp. fold L. unfold Y.
    rewrite inject_Z_mult. field.
    assert (Hr0 : (0 < inject_Z r)%Q).
    { change 0%Q with (inject_Z 0). rewrite <- Zlt_Qlt. lia. }
    repeat split; lra. }
  rewrite Hspec. set (m := Qfloor (Y + (1 # 2))).
  destruct (inject_Z_floor_bounds (Y + (1 # 2))) as [Hmlo Hmhi]. fold m in Hmlo, Hmhi.
  assert (Hm0 : 0 <= m).
  { subst m. rewrite <- (Qfloor_Z 0). apply Qfloor_resp_le. change (inject_Z 0) with 0%Q. lra. }
  assert (HmL : m <= L).
  { assert (H : m < L + 1); [|lia].
    rewrite Zlt_Qlt, inject_Z_plus. change (inject_Z 1) with 1%Q. lra. }
  (* the tie is decided on integers *)
  assert (Hint : (2 * inject_Z L + inject_Z k + 1 <= 2 * (inject_Z m + 1) * inject_Z k)%Q).
  { assert (H2 : 2 * L + k < 2 * (m + 1) * k).
    { rewrite Zlt_Qlt, inject_Z_plus, !inject_Z_mult, inject_Z_plus.
      change (inject_Z 2) with 2%Q. change (inject_Z 1) with 1%Q.
      assert (Hmul : ((Y + (1 # 2)) * inject_Z k < (inject_Z m + 1) * inject_Z k)%Q)
        by (apply Qmult_lt_compat_r; assumption).
      lra. }
    assert (H3 : 2 * L + k + 1 <= 2 * (m + 1) * k) by lia.
    rewrite Zle_Qle, !inject_Z_plus, !inject_Z_mult, inject_Z_plus in H3.
    exact H3. }
  destruct (JS.strict_eq (JS.of_Z (k * r)) (JS.of_Z r)) eqn:Heq.
  { (* equal rates *)
    unfold resampleAudio in Hres. rewrite Heq in Hres. injection Hres as <-.
    destruct (of_Z_exact (k * r) ltac:(nia)) as [Hvin Hvalin].
    destruct (of_Z_exact r ltac:(lia)) as [Hvr Hvalr].
    apply (SFeqb_correct 53 1024 _ _ Hvin Hvr) in Heq. rewrite Hvalin, Hvalr in Heq.
    apply (proj1 (inject_Z_injective _ _)) in Heq. assert (k = 1) by nia. subst k.
    fold L. symmetry. change (inject_Z 1) with 1%Q in HYK.
    assert (HYL' : (Y == inject_Z L)%Q) by lra.
    subst m. apply Qfloor_unique; lra. }
  destruct (resampleAudio_resampled x _ _ out Heq Hres) as (result & Hnew & Hlen & _).
  rewrite Hlen.
  destruct (Z.eq_dec L 0) as [HLz|HLnz].
  { assert (Hnil : x = []) by (destruct x; [reflexivity | subst L; cbn in HLz; lia]).
    assert (Hout : out = []).
    { rewrite Hnil, resampleAudio_empty in Hres. congruence. }
    rewrite <- Hlen, Hout. change (Z.of_nat (length [])) with 0.
    rewrite HLz in HYL. change (inject_Z 0) with 0%Q in HYL.
    symmetry. subst m. apply Qfloor_unique; change (inject_Z 0) with 0%Q; lra. }
  assert (Hx : x <> []) by (intros ->; subst L; cbn in HLnz; lia).
  destruct (of_Z_exact (k * r) ltac:(nia)) as [Hvin Hvalin].
  destruct (positive_number r ltac:(lia)) as (mr & er & Hrf & Hbr & Hvalr).
  set (R := JS.div (JS.of_Z (k * r)) (JS.of_Z r)) in *.
  assert (HRk : valid64 R /\ (B2Q R == inject_Z k)%Q).
  { apply (rounds64_integer (B2Q (JS.of_Z (k * r)) / F2Q false mr er)); [| |lia].
    - unfold R, JS.div. rewrite Hrf. apply (SFdiv_rounds 53 1024 prec64 emax64); assumption.
    - rewrite Hvalin, Hvalr, inject_Z_mult. field.
      change 0%Q with (inject_Z 0). intros H. apply (proj1 (inject_Z_injective _ _)) in H. lia. }
  destruct HRk as [HvR HvalR].
  destruct (of_Z_exact L ltac:(lia)) as [HvL HvalL].
  assert (Hq : rounds64 Y (JS.div (F32.length x) R)).
  { destruct R as [s|s| |s mR eR] eqn:ER; try contradiction.
    - exfalso. cbn [B2Q] in HvalR. lra.
    - unfold JS.div, F32.length. fold L.
      pose proof (SFdiv_rounds 53 1024 prec64 emax64 (JS.of_Z L) s mR eR HvL HvR) as H.
      cbn [B2Q] in HvalR. rewrite HvalL, HvalR in H. exact H. }
  set (q := JS.div (F32.length x) R) in *.
  assert (Hq' : rounded64 Y q).
  { apply (rounds_below 53 1024 prec64 Y q (JS.of_Z L)); [exact Hq | exact HvL|].
    rewrite HvalL. rewrite (Qabs_pos Y) by exact HY0.
    rewrite (Qabs_pos (inject_Z L)) by exact HLq. exact HYL. }
  rewrite (new_Math_round_length q result (valid64_well_formed _ (proj1 Hq')) Hnew).
  unfold spec_round_half_up. apply Qfloor_unique.
  - (* not below: rounding does not cross the half-integer [m - 1/2] *)
    destruct (half_integer_number m ltac:(lia)) as (c & Hc & Hvalc).
    assert (Hle : (inject_Z m - (1 # 2) <= Y)%Q) by lra.
    pose proof (rounded_mono 53 1024 prec64 _ _ _ _ Hle Hc Hq') as Hm.
    rewrite Hvalc in Hm. lra.
  - (* not above: the quotient stays away from [m + 1/2] by [1 / 2k] *)
    destruct (rounded64_error Y q Hq' HY0) as [_ Hup].
    destruct (Qlt_le_dec (B2Q q + (1 # 2)) (inject_Z m + 1)) as [|Hge]; [assumption|exfalso].
    assert (H1 : (B2Q q * inject_Z k <=
                  inject_Z L + inject_Z L * (1 # 9007199254740992) +
                  (1 # 1606938044258990275541962092341162602522202993782792835301376) * inject_Z k)%Q)
      by nra.
    assert (H2 : ((inject_Z m + (1 # 2)) * inject_Z k <= B2Q q * inject_Z k)%Q) by nra.
    nra.
Qed.

(** * The direction of the length *)

Lemma positive_finite r :
  valid64 r -> JS.lt (JS.of_Z 0) r = true ->
  exists m e, r = S754_finite false m e /\ bounded 53 1024 m e = true /\ (0 < B2Q r)%Q.
Proof.
  intros Hv Hpos. destruct r as [s|s| |s m e]; try contradiction.
  - destruct s; discriminate Hpos.
  - destruct s; [discriminate Hpos|]. exists m, e. split; [reflexivity|]. split; [exact Hv|].
    cbn [B2Q]. unfold F2Q. cbn [cond_Zopp]. pose proof (pow2_pos e).
    assert (0 < inject_Z (Z.pos m))%Q by reflexivity. nra.
Qed.

(** X4.  For positive rates, resampling to a lower rate never lengthens
    the signal, and resampling to a higher rate never shortens it. *)
Theorem resample_length_direction (x out : F32.Float32Array) (r_in r_out : JS.number) :
  Z.of_nat (length x) < 2 ^ 53 ->
  valid64 r_in -> valid64 r_out ->
  JS.lt (JS.of_Z 0) r_in = true -> JS.lt (JS.of_Z 0) r_out = true ->
  resampleAudio x r_in r_out = JS.Normal out ->
  (SFleb r_out r_in = true -> (length out <= length x)%nat) /\
  (SFleb r_in r_out = true -> (length x <= length out)%nat).
Proof.
  intros HL Hvin Hvout Hpin Hpout Hres.
  destruct (JS.strict_eq r_in r_out) eqn:Heq.
  { unfold resampleAudio in Hres. rewrite Heq in Hres. injection Hres as <-. split; lia. }
  destruct x as [|x0 x'] eqn:Ex.
  { rewrite resampleAudio_empty in Hres. injection Hres as <-. split; cbn; lia. }
  rewrite <- Ex in *. assert (Hx : x <> []) by (rewrite Ex; discriminate).
  assert (HL1 : 1 <= Z.of_nat (length x)) by (rewrite Ex; cbn [length]; lia).
  destruct (resampleAudio_resampled x r_in r_out out Heq Hres) as (result & Hnew & Hlen & _).
  rewrite Hlen.
  destruct (positive_finite r_in Hvin Hpin) as (mi & ei & Ein & Hbin & Hin0).
  destruct (positive_finite r_out Hvout Hpout) as (mo & eo & Eout & Hbout & Hout0).
  destruct (positive_number (Z.of_nat (length x)) ltac:(lia)) as (mL & eL & EL & HbL & HvalL).
  destruct (of_Z_exact (Z.of_nat (length x)) ltac:(lia)) as [HvL HvalL'].
  assert (HLq : (1 <= inject_Z (Z.of_nat (length x)))%Q).
  { change 1%Q with (inject_Z 1). rewrite <- Zle_Qle. exact HL1. }
  pose proof (SFdiv_rounds 53 1024 prec64 emax64 r_in false mo eo Hvin Hbout) as HR.
  rewrite <- Eout in HR. fold (JS.div r_in r_out) in HR.
  change (F2Q false mo eo) with (B2Q (S754_finite false mo eo)) in HR. rewrite <- Eout in HR.
  set (R := JS.div r_in r_out) in *.
  set (X := (B2Q r_in / B2Q r_out)%Q) in *.
  assert (HXmul : (X * B2Q r_out == B2Q r_in)%Q) by (unfold X; field; lra).
  assert (HX0 : (0 < X)%Q).
  { unfold X, Qdiv. assert (0 < / B2Q r_out)%Q by (apply Qinv_lt_0_compat; exact Hout0). nra. }
  split; intros Hle.
  - (* to a lower rate *)
    apply (SFleb_correct 53 1024 _ _ Hvout Hvin) in Hle.
    assert (HX1 : (1 <= X)%Q) by nra.
    destruct HR as [HR|[[s HRinf] _]].
    2:{ rewrite HRinf in Hnew. unfold F32.length in Hnew. rewrite EL in Hnew. cbn in Hnew.
        injection Hnew as <-. cbn. lia. }
    pose proof (rounded_mono 53 1024 prec64 _ _ _ _ HX1 rounded64_one HR) as HR1.
    destruct (of_Z_exact 1 ltac:(lia)) as [_ Hval1]. rewrite Hval1 in HR1.
    change (inject_Z 1) with 1%Q in HR1.
    destruct R as [s|s| |s mR eR] eqn:ER;
      [cbn in HR1; lra | destruct (proj1 HR) | destruct (proj1 HR) |].
    pose proof (SFdiv_rounds 53 1024 prec64 emax64 (JS.of_Z (Z.of_nat (length x))) s mR eR
                  HvL (proj1 HR)) as Hq.
    change (SFdiv 53 1024 (JS.of_Z (Z.of_nat (length x))) (S754_finite s mR eR))
      with (JS.div (F32.length x) (S754_finite s mR eR)) in Hq.
    change (F2Q s mR eR) with (B2Q (S754_finite s mR eR)) in Hq.
    set (rho := B2Q (S754_finite s mR eR)) in *.
    rewrite HvalL' in Hq.
    set (Y := (inject_Z (Z.of_nat (length x)) / rho)%Q) in *.
    assert (HY : (0 <= Y)%Q /\ (Y <= inject_Z (Z.of_nat (length x)))%Q).
    { assert (HYm : (Y * rho == inject_Z (Z.of_nat (length x)))%Q) by (unfold Y; field; lra).
      assert (0 < / rho)%Q by (apply Qinv_lt_0_compat; lra).
      assert (0 <= Y)%Q by (unfold Y, Qdiv; nra).
      split; [assumption | nra]. }
    destruct HY as [HY0 HYL].
    assert (Hq' : rounded64 Y (JS.div (F32.length x) (S754_finite s mR eR))).
    { apply (rounds_below 53 1024 prec64 _ _ (JS.of_Z (Z.of_nat (length x))));
        [exact Hq | exact HvL|].
      rewrite HvalL', (Qabs_pos Y), Qabs_pos by lra. exact HYL. }
    assert (HqL : (B2Q (JS.div (F32.length x) (S754_finite s mR eR)) <=
                   inject_Z (Z.of_nat (length x)))%Q).
    { assert (H : (B2Q (JS.div (F32.length x) (S754_finite s mR eR)) <=
                   B2Q (JS.of_Z (Z.of_nat (length x))))%Q).
      { refine (rounded_mono 53 1024 prec64 _ _ _ _ HYL Hq' _).
        rewrite <- HvalL'. apply rounded_self. exact HvL. }
      rewrite HvalL' in H. exact H. }
    pose proof (new_Math_round_length _ result (valid64_well_formed _ (proj1 Hq')) Hnew) as Hn.
    unfold spec_round_half_up in Hn.
    destruct (inject_Z_floor_bounds
                (B2Q (JS.div (F32.length x) (S754_finite s mR eR)) + (1 # 2))) as [Hlo _].
    rewrite <- Hn in Hlo.
    assert (Hlt : (inject_Z (Z.of_nat (length result)) <
                   inject_Z (Z.of_nat (length x) + 1))%Q).
    { rewrite inject_Z_plus. change (inject_Z 1) with 1%Q. lra. }
    rewrite <- Zlt_Qlt in Hlt. lia.
  - (* to a higher rate *)
    apply (SFleb_correct 53 1024 _ _ Hvin Hvout) in Hle.
    assert (HX1 : (X <= 1)%Q) by nra.
    destruct (unit_interval_rounded X R HR ltac:(lra) HX1) as (HR' & HR0 & HR1).
    destruct R as [s|s| |s mR eR] eqn:ER;
      [| destruct (proj1 HR') | destruct (proj1 HR') |].
    { exfalso. unfold F32.length in Hnew. rewrite EL in Hnew. cbn in Hnew. discriminate Hnew. }
    set (rho := B2Q (S754_finite s mR eR)) in *.
    assert (Hrho : (0 < rho)%Q).
    { unfold rho. cbn [B2Q]. rewrite F2Q_sign. 
      unfold rho in HR0. cbn [B2Q] in HR0. rewrite F2Q_sign in HR0.
      pose proof (pow2_pos eR). assert (0 < inject_Z (Z.pos mR))%Q by reflexivity.
      destruct s; [exfalso; nra | nra]. }
    pose proof (SFdiv_rounds 53 1024 prec64 emax64 (JS.of_Z (Z.of_nat (length x))) s mR eR
                  HvL (proj1 HR')) as Hq.
    change (SFdiv 53 1024 (JS.of_Z (Z.of_nat (length x))) (S754_finite s mR eR))
      with (JS.div (F32.length x) (S754_finite s mR eR)) in Hq.
    change (F2Q s mR eR) with rho in Hq. rewrite HvalL' in Hq.
    set (Y := (inject_Z (Z.of_nat (length x)) / rho)%Q) in *.
    assert (HYL : (inject_Z (Z.of_nat (length x)) <= Y)%Q).
    { assert (HYm : (Y * rho == inject_Z (Z.of_nat (length x)))%Q) by (unfold Y; field; lra).
      assert (0 < / rho)%Q by (apply Qinv_lt_0_compat; lra).
      assert (0 <= Y)%Q by (unfold Y, Qdiv; nra).
      nra. }
    destruct Hq as [Hq'|[[s' Hinf] _]].
    2:{ exfalso. rewrite Hinf in Hnew. cbn in Hnew. discriminate Hnew. }
    assert (HqL : (inject_Z (Z.of_nat (length x)) <=
                   B2Q (JS.div (F32.length x) (S754_finite s mR eR)))%Q).
    { assert (H : (B2Q (JS.of_Z (Z.of_nat (length x))) <=
                   B2Q (JS.div (F32.length x) (S754_finite s mR eR)))%Q).
      { refine (rounded_mono 53 1024 prec64 _ _ _ _ HYL _ Hq').
        rewrite <- HvalL'. apply rounded_self. exact HvL. }
      rewrite HvalL' in H. exact H. }
    pose proof (new_Math_round_length _ result (valid64_well_formed _ (proj1 Hq')) Hnew) as Hn.
    unfold spec_round_half_up in Hn.
    destruct (inject_Z_floor_bounds
                (B2Q (JS.div (F32.length x) (S754_finite s mR eR)) + (1 # 2))) as [_ Hhi].
    rewrite <- Hn in Hhi.
    assert (Hlt : (inject_Z (Z.of_nat (length x)) <
                   inject_Z (Z.of_nat (length result) + 1))%Q).
    { rewrite inject_Z_plus. change (inject_Z 1) with 1%Q. lra. }
    rewrite <- Zlt_Qlt in Hlt. lia.
Qed.

(** * Rates that are not positive numbers *)

(** X5.  A [NaN] rate is not an error: the result is empty, whatever the
    input and the other rate are. *)
Theorem resample_nan_rate (x : F32.Float32Array) (r : JS.number) :
  resampleAudio x r JS.NaN = JS.Normal [] /\ resampleAudio x JS.NaN r = JS.Normal [].
Proof.
  unfold resampleAudio, JS.NaN. split.
  - replace (JS.strict_eq r S754_nan) with false by (destruct r; reflexivity).
    replace (JS.div r S754_nan) with S754_nan by (destruct r; reflexivity).
    replace (JS.div (F32.length x) S754_nan) with S754_nan
      by (destruct (F32.length x); reflexivity).
    reflexivity.
  - replace (JS.div S754_nan r) with S754_nan by reflexivity.
    replace (JS.div (F32.length x) S754_nan) with S754_nan
      by (destruct (F32.length x); reflexivity).
    reflexivity.
Qed.

(** The length of a non-empty array is not zero. *)
Lemma length_not_zero (x : F32.Float32Array) :
  x <> [] ->
  match F32.length x with
  | S754_finite _ _ _ | S754_infinity _ => True
  | _ => False
  end.
Proof.
  intros Hx. unfold F32.length.
  assert (H1 : 1 <= Z.of_nat (length x)) by (destruct x; [contradiction | cbn [length]; lia]).
  destruct (of_Z_rounds (Z.of_nat (length x))) as [Hr|[[s Hinf] _]]; [|rewrite Hinf; exact I].
  assert (Hge : (1 <= B2Q (JS.of_Z (Z.of_nat (length x))))%Q).
  { destruct (of_Z_exact 1 ltac:(lia)) as [_ Hval1].
    change 1%Q with (inject_Z 1). rewrite <- Hval1.
    refine (rounded_mono 53 1024 prec64 1 _ _ _ _ rounded64_one Hr).
    change 1%Q with (inject_Z 1). rewrite <- Zle_Qle. exact H1. }
  destruct (JS.of_Z (Z.of_nat (length x))) as [s|s| |s m e]; try exact I.
  - cbn [B2Q] in Hge. lra.
  - destruct (proj1 Hr).
Qed.

(** X6.  A zero rate is not rejected as such.  With input rate [0] the
    length of the result would be infinite and the allocation throws a
    [RangeError]; with output rate [0] the result is empty. *)
Theorem resample_zero_rate (x : F32.Float32Array) (r : JS.number) (s : bool) :
  JS.lt (JS.of_Z 0) r = true ->
  (x <> [] -> resampleAudio x (S754_zero s) r = JS.Throw JS.RangeError) /\
  resampleAudio x r (S754_zero s) = JS.Normal [].
Proof.
  intros Hpos. unfold resampleAudio. split.
  - intros Hx. pose proof (length_not_zero x Hx) as HL.
    destruct r as [s'|s'| |s' m e]; try discriminate Hpos;
      destruct s'; try discriminate Hpos;
      destruct (F32.length x) as [sl|sl| |sl ml el]; try contradiction;
      destruct s; reflexivity.
  - destruct r as [s'|s'| |s' m e]; try discriminate Hpos;
      destruct s'; try discriminate Hpos;
      destruct (F32.length x) as [sl|sl| |sl ml el]; destruct s; reflexivity.
Qed.

(** * A load that fails *)

Lemma drain_rejected_waiters e callers : forall w rest,
  parked w = [] ->
  jobs w = map (fun q => Resume_initialize (After_wait q) (JS.Throw e)) callers ++ rest ->
  drain (length callers) w =
    {| this := this w;
       promises := foldl (fun ps q => <[ q := Rejected e ]> ps) (promises w) callers;
       parked := []; loads := loads w; jobs := rest; log := log w |}.
Proof.
  induction callers as [|q qs IH]; intros w rest Hp Hj.
  - cbn in *. destruct w; cbn in *; subst; reflexivity.
  - cbn [length]. erewrite drain_step by (rewrite Hj; reflexivity).
    cbn [run_job]. unfold settle. cbn [this promises parked loads jobs log]. rewrite Hp.
    cbn [List.filter map]. rewrite app_nil_r.
    rewrite IH with (rest := rest); reflexivity.
Qed.

Lemma lookup_foldl_reject_other e (qs : list nat) p : forall ps : list promise_state,
  p ∉ qs ->
  foldl (fun ps q => <[ q := Rejected e ]> ps) ps qs !! p = ps !! p.
Proof.
  induction qs as [|q qs IH]; intros ps Hp; cbn; [reflexivity|].
  rewrite IH by (intros H; apply Hp; right; exact H).
  apply list_lookup_insert_ne. intros ->. apply Hp. left.
Qed.

Lemma lookup_foldl_reject e (qs : list nat) p : forall ps : list promise_state,
  p ∈ qs -> (p < length ps)%nat ->
  foldl (fun ps q => <[ q := Rejected e ]> ps) ps qs !! p = Some (Rejected e).
Proof.
  induction qs as [|q qs IH]; intros ps Hp Hlen; cbn.
  - inversion Hp.
  - destruct (decide (p ∈ qs)) as [Hin|Hnin].
    + apply IH; [exact Hin | rewrite length_insert; exact Hlen].
    + rewrite lookup_foldl_reject_other by exact Hnin.
      apply elem_of_cons in Hp as [->|Hp]; [|contradiction].
      apply list_lookup_insert_eq. exact Hlen.
Qed.

(** The world once the load has failed and the queue has run dry. *)
Lemma drain_after_failed_load w first others e :
  transcriber (this w) = None -> isLoading (this w) = false ->
  parked w = [] -> jobs w = [] ->
  drain (S (S (length others)))
    (pipeline_settles (length (loads w)) (JS.Throw e)
       (snd (initialize_all (first :: others) w))) =
    {| this := {| transcriber := None; isLoading := true;
                  loadingPromise := Some (S (length (promises w))) |};
       promises :=
         foldl (fun ps q => <[ q := Rejected e ]> ps)
           (<[ length (promises w) := Rejected e ]>
              (<[ S (length (promises w)) := Rejected e ]>
                 (promises w ++ replicate (S (S (length others))) Pending)))
           (seq (S (S (length (promises w)))) (length others));
       parked := [];
       loads := loads w ++
         [{| load_model := first; load_waiter := S (length (promises w));
             load_settled := true |}];
       jobs := [];
       log := log w ++ ["Loading Whisper model: " +:+ first] |}.
Proof.
  intros Hnone Hidle Hparked Hjobs.
  rewrite (initialize_all_unloaded w first others Hnone Hidle Hparked Hjobs). cbn [snd].
  unfold pipeline_settles. cbn [loads].
  rewrite lookup_app_r by lia. rewrite Nat.sub_diag. cbn [lookup list_lookup load_settled].
  cbn [this promises parked loads jobs log load_model load_waiter app].
  rewrite insert_app_r_alt by lia. rewrite Nat.sub_diag. cbn [insert list_insert].
  erewrite drain_step by reflexivity. cbn [run_job].
  unfold settle at 1.
  cbn [this promises parked loads jobs log transcriber isLoading loadingPromise].
  rewrite filter_parked_on_all, filter_parked_on_none. cbn [app].
  rewrite map_map. cbn [map snd outcome_of].
  erewrite drain_step by reflexivity. cbn [run_job].
  unfold settle at 1.
  cbn [this promises parked loads jobs log transcriber isLoading loadingPromise
       List.filter map app].
  rewrite app_nil_r. rewrite map_map.
  pose proof (drain_rejected_waiters e (seq (S (S (length (promises w)))) (length others)))
    as Hdrain.
  rewrite length_seq in Hdrain.
  rewrite (Hdrain _ []); [reflexivity | reflexivity|].
  cbn [jobs]. rewrite app_nil_r. reflexivity.
Qed.

(** X7.  When the load fails, every caller that was waiting for it is
    rejected with the reason of the failure; one load was started, and
    the service is left without a model and with [isLoading] set. *)
Theorem failed_load_rejects_every_caller (w : World) (first : string)
    (others : list string) (e : JS.exn) :
  transcriber (this w) = None -> isLoading (this w) = false ->
  parked w = [] -> jobs w = [] ->
  let callers := fst (initialize_all (first :: others) w) in
  let w1 := snd (initialize_all (first :: others) w) in
  let settled := pipeline_settles (length (loads w)) (JS.Throw e) w1 in
  let w2 := drain (S (length callers)) settled in
  length (loads w2) = S (length (loads w)) /\
  jobs w2 = [] /\
  transcriber (this w2) = None /\
  isLoading (this w2) = true /\
  (forall p, p ∈ callers -> promises w2 !! p = Some (Rejected e)).
Proof.
  intros Hnone Hidle Hparked Hjobs callers w1 settled w2.
  assert (Hc : callers = length (promises w) :: seq (S (S (length (promises w)))) (length others)).
  { subst callers. rewrite (initialize_all_unloaded w first others Hnone Hidle Hparked Hjobs).
    reflexivity. }
  assert (Hlen : length callers = S (length others)).
  { rewrite Hc. cbn [length]. rewrite length_seq. reflexivity. }
  assert (Hw2 := drain_after_failed_load w first others e Hnone Hidle Hparked Hjobs).
  fold w1 in Hw2. fold settled in Hw2. rewrite <- Hlen in Hw2. fold w2 in Hw2.
  rewrite Hw2. cbn [this loads jobs promises transcriber isLoading].
  split; [rewrite length_app; cbn [length]; lia|].
  split; [reflexivity|]. split; [reflexivity|]. split; [reflexivity|].
  intros p Hp. rewrite Hc in Hp.
  apply elem_of_cons in Hp as [->|Hp].
  - rewrite lookup_foldl_reject_other
      by (intros H; apply list_elem_of_In, in_seq in H; lia).
    apply list_lookup_insert_eq. rewrite length_insert, length_app, length_replicate. lia.
  - apply lookup_foldl_reject; [exact Hp|].
    apply list_elem_of_In, in_seq in Hp.
    rewrite !length_insert, length_app, length_replicate. lia.
Qed.

(** * [dispose] and loading *)

Lemma initialize_all_one modelName w :
  snd (initialize_all [modelName] w) = snd (initialize modelName w).
Proof. cbn [initialize_all]. destruct (initialize modelName w). reflexivity. Qed.

(** [dispose] on a service without a model only settles its own promise. *)
Lemma dispose_when_unloaded w :
  transcriber (this w) = None ->
  dispose w =
    (length (promises w),
     settle (length (promises w)) Fulfilled
       {| this := this w; promises := promises w ++ [Pending]; parked := parked w;
          loads := loads w; jobs := jobs w; log := log w |}).
Proof. intros H. unfold dispose, new_promise. cbn [this]. rewrite H. reflexivity. Qed.

(** X9.  [dispose] does not cancel a load in progress: called while the
    model is loading it changes no field and logs nothing, and the model is
    installed when the load completes. *)
Theorem dispose_does_not_cancel_load (w : World) (modelName : string) (pipe : Pipeline) :
  transcriber (this w) = None -> isLoading (this w) = false ->
  parked w = [] -> jobs w = [] ->
  let w1 := snd (initialize modelName w) in
  let w2 := snd (dispose w1) in
  let w3 := drain 2 (pipeline_settles (length (loads w)) (JS.Normal pipe) w2) in
  this w2 = this w1 /\ loads w2 = loads w1 /\ log w2 = log w1 /\
  promises w2 !! fst (dispose w1) = Some Fulfilled /\
  transcriber (this w3) = Some pipe /\ isLoading (this w3) = false.
Proof.
  intros Hnone Hidle Hparked Hjobs w1 w2 w3.
  assert (Hw1 := initialize_when_unloaded modelName w Hnone Hidle).
  assert (E1 : w1 = snd (initialize modelName w)) by reflexivity.
  rewrite Hw1 in E1. cbn [snd] in E1. rewrite Hparked, Hjobs in E1. cbn [app] in E1.
  assert (E2 : dispose w1 = dispose w1) by reflexivity.
  rewrite (dispose_when_unloaded w1) in E2 at 2 by (rewrite E1; reflexivity).
  assert (Hneq : forall n : nat, (S n =? n + 2)%nat = false)
    by (intros n; apply Nat.eqb_neq; lia).
  assert (E3 : w2 = snd (dispose w1)) by reflexivity.
  rewrite E2 in E3. cbn [snd] in E3. unfold settle in E3.
  rewrite E1 in E3. cbn [this promises parked loads jobs log] in E3.
  rewrite !length_app in E3. cbn [length] in E3.
  cbn [List.filter] in E3. unfold parked_on in E3. cbn [fst] in E3. rewrite Hneq in E3.
  cbn [negb List.filter map app] in E3.
  split; [rewrite E3, E1; reflexivity|].
  split; [rewrite E3, E1; reflexivity|].
  split; [rewrite E3, E1; reflexivity|].
  split.
  { rewrite E2. cbn [fst]. rewrite E3. cbn [promises]. rewrite E1. cbn [promises].
    rewrite !length_app. cbn [length]. apply list_lookup_insert_eq.
    rewrite !length_app. cbn [length]. lia. }
  assert (E4 : this w3 = {| transcriber := Some pipe; isLoading := false;
                            loadingPromise := Some (S (length (promises w))) |});
    [|rewrite E4; split; reflexivity].
  subst w3. rewrite E3. unfold pipeline_settles. cbn [loads].
  rewrite lookup_app_r by lia. rewrite Nat.sub_diag. cbn [lookup list_lookup load_settled].
  cbn [this promises parked loads jobs log load_model load_waiter app].
  erewrite drain_step by reflexivity. cbn [run_job].
  unfold settle at 1, console_log, set_this, set_transcriber.
  cbn [this promises parked loads jobs log transcriber isLoading loadingPromise
       List.filter].
  unfold parked_on. cbn [fst]. rewrite Nat.eqb_refl.
  cbn [negb List.filter map app snd outcome_of].
  erewrite drain_step by reflexivity. cbn [run_job drain].
  reflexivity.
Qed.

(** X10.  After [dispose] the service can be loaded again: the next
    [initialize] starts a new load, for the model it names, and installs
    the pipeline that load delivers. *)
Theorem dispose_then_initialize_reloads (w : World) (pipe pipe' : Pipeline)
    (modelName : string) :
  transcriber (this w) = Some pipe -> isLoading (this w) = false ->
  parked w = [] -> jobs w = [] ->
  let w1 := snd (dispose w) in
  let w2 := snd (initialize modelName w1) in
  let w3 := drain 2 (pipeline_settles (length (loads w)) (JS.Normal pipe') w2) in
  isReady (this w1) = false /\
  log w1 = log w ++ ["Whisper model disposed"] /\
  (exists lp, loads w2 = loads w ++
     [{| load_model := modelName; load_waiter := lp; load_settled := false |}]) /\
  transcriber (this w3) = Some pipe' /\ jobs w3 = [].
Proof.
  intros Hsome Hidle Hparked Hjobs w1 w2 w3.
  assert (E1 : w1 =
    {| this := {| transcriber := None; isLoading := false;
                  loadingPromise := loadingPromise (this w) |};
       promises := <[ length (promises w) := Fulfilled ]> (promises w ++ [Pending]);
       parked := []; loads := loads w; jobs := [];
       log := log w ++ ["Whisper model disposed"] |}).
  { subst w1. unfold dispose, new_promise. cbn [this]. rewrite Hsome.
    unfold settle, console_log, set_this, set_transcriber.
    cbn [snd this promises parked loads jobs log isLoading loadingPromise].
    rewrite Hparked, Hjobs, Hidle. reflexivity. }
  assert (H1none : transcriber (this w1) = None) by (rewrite E1; reflexivity).
  assert (H1idle : isLoading (this w1) = false) by (rewrite E1; reflexivity).
  assert (H1parked : parked w1 = []) by (rewrite E1; reflexivity).
  assert (H1jobs : jobs w1 = []) by (rewrite E1; reflexivity).
  assert (H1loads : loads w1 = loads w) by (rewrite E1; reflexivity).
  split; [unfold isReady; rewrite H1none; reflexivity|].
  split; [rewrite E1; reflexivity|].
  split.
  { exists (S (length (promises w1))). subst w2.
    rewrite (initialize_when_unloaded modelName w1 H1none H1idle). cbn [snd loads].
    rewrite H1loads. reflexivity. }
  pose proof (drain_after_load w1 modelName [] H1none H1idle H1parked H1jobs pipe') as Hd.
  rewrite initialize_all_one in Hd. cbn [length] in Hd. rewrite H1loads in Hd.
  fold w2 in Hd. fold w3 in Hd. rewrite Hd. split; reflexivity.
Qed.

Lemma initialize_when_load_failed e modelName w :
  load_failed e w ->
  initialize modelName w =
    (length (promises w),
     {| this := this w; promises := promises w ++ [Pending]; parked := parked w;
        loads := loads w;
        jobs := jobs w ++
          [Resume_initialize (After_wait (length (promises w))) (JS.Throw e)];
        log := log w |}).
Proof.
  intros (Ht & Hl & (lp & Hp & Hlp) & _).
  unfold initialize, new_promise. cbn [this promises].
  rewrite Ht, Hl, Hp. unfold await. cbn [promises].
  rewrite lookup_app_l by (eapply lookup_lt_Some; eauto).
  rewrite Hlp. reflexivity.
Qed.

Lemma step_load_failed e a w :
  load_failed e w -> load_failed e (step a w) /\ loads (step a w) = loads w.
Proof.
  intros Hw. pose proof Hw as (Ht & Hl & (lp & Hp & Hlp) & Hloads & Hparked & callers & Hjobs).
  pose proof (lookup_lt_Some _ _ _ Hlp) as Hlt.
  destruct a as [modelName| |n outcome|]; cbn [step].
  - rewrite (initialize_when_load_failed e modelName w Hw). cbn [snd].
    split; [|reflexivity].
    repeat split; cbn [this promises parked loads jobs]; try assumption.
    + exists lp. split; [exact Hp|]. rewrite lookup_app_l by exact Hlt. exact Hlp.
    + exists (callers ++ [length (promises w)]). rewrite Hjobs, map_app. reflexivity.
  - unfold dispose, new_promise. cbn [this]. rewrite Ht. cbn [snd].
    unfold settle. cbn [this promises parked loads jobs log]. rewrite Hparked.
    cbn [List.filter map]. rewrite app_nil_r.
    split; [|reflexivity].
    repeat split; cbn [this promises parked loads jobs]; try assumption.
    + exists lp. split; [exact Hp|].
      rewrite list_lookup_insert_ne by lia.
      rewrite lookup_app_l by exact Hlt. exact Hlp.
    + exists callers. exact Hjobs.
  - unfold pipeline_settles. destruct (loads w !! n) as [l|] eqn:El; [|split; [exact Hw | reflexivity]].
    assert (Hs : load_settled l = true).
    { rewrite Forall_forall in Hloads. apply Hloads. eapply list_elem_of_lookup_2. exact El. }
    rewrite Hs. split; [exact Hw | reflexivity].
  - unfold next_job. destruct callers as [|q qs]; rewrite Hjobs; cbn [map];
      [split; [exact Hw | reflexivity]|].
    cbn [run_job]. unfold settle. cbn [this promises parked loads jobs log]. rewrite Hparked.
    cbn [List.filter map]. rewrite app_nil_r.
    split; [|reflexivity].
    repeat split; cbn [this promises parked loads jobs]; try assumption.
    + exists lp. split; [exact Hp|].
      destruct (decide (q = lp)) as [->|Hne].
      * apply list_lookup_insert_eq. exact Hlt.
      * rewrite list_lookup_insert_ne by exact Hne. exact Hlp.
    + exists qs. reflexivity.
Qed.

Lemma run_load_failed e schedule : forall w,
  load_failed e w ->
  load_failed e (run schedule w) /\ loads (run schedule w) = loads w.
Proof.
  induction schedule as [|a rest IH]; intros w Hw; [split; [exact Hw | reflexivity]|].
  cbn [run fold_left]. destruct (step_load_failed e a w Hw) as [Hs Hl].
  destruct (IH _ Hs) as [Hr Hlr]. split; [exact Hr|]. unfold run in Hlr. rewrite Hlr. exact Hl.
Qed.

Lemma length_foldl_reject e (qs : list nat) : forall ps : list promise_state,
  length (foldl (fun ps q => <[ q := Rejected e ]> ps) ps qs) = length ps.
Proof.
  induction qs as [|q qs IH]; intros ps; cbn; [reflexivity|].
  rewrite IH. apply length_insert.
Qed.

(** X8.  A failed load is never recovered from.  Whatever is done
    afterwards, in any order ([initialize], [dispose], jobs, settlements),
    the service is not ready, no further [pipeline] call is made, and a
    new call of [initialize] is rejected with the reason of the first
    failure once the queue has run. *)
Theorem failed_load_is_permanent (w : World) (first : string) (others : list string)
    (e : JS.exn) (schedule : list action) (modelName : string) :
  transcriber (this w) = None -> isLoading (this w) = false ->
  parked w = [] -> jobs w = [] ->
  forallb load_settled (loads w) = true ->
  let w1 := snd (initialize_all (first :: others) w) in
  let w2 := drain (S (S (length others)))
              (pipeline_settles (length (loads w)) (JS.Throw e) w1) in
  let w3 := run schedule w2 in
  let retry := initialize modelName w3 in
  isReady (this w3) = false /\
  loads w3 = loads w2 /\
  loads (snd retry) = loads w2 /\
  promises (drain (S (length (jobs w3))) (snd retry)) !! fst retry = Some (Rejected e).
Proof.
  intros Hnone Hidle Hparked Hjobs Hloads w1 w2 w3 retry.
  assert (H2 : load_failed e w2).
  { subst w2 w1. rewrite (drain_after_failed_load w first others e Hnone Hidle Hparked Hjobs).
    repeat split; cbn [this promises parked loads jobs transcriber isLoading loadingPromise].
    - exists (S (length (promises w))). split; [reflexivity|].
      rewrite lookup_foldl_reject_other
        by (intros H; apply list_elem_of_In, in_seq in H; lia).
      rewrite list_lookup_insert_ne by lia.
      apply list_lookup_insert_eq. rewrite length_app, length_replicate. lia.
    - apply Forall_app. split.
      + apply Forall_forall. intros l Hl.
        rewrite forallb_forall in Hloads. apply Hloads, list_elem_of_In, Hl.
      + repeat constructor.
    - exists []. reflexivity. }
  destruct (run_load_failed e schedule w2 H2) as [H3 Hl3]. fold w3 in H3, Hl3.
  pose proof H3 as (Ht & Hl & _ & _ & Hp3 & callers & Hj3).
  split; [unfold isReady; rewrite Ht; reflexivity|].
  split; [exact Hl3|].
  subst retry. rewrite (initialize_when_load_failed e modelName w3 H3). cbn [fst snd loads].
  split; [exact Hl3|].
  pose proof (drain_rejected_waiters e (callers ++ [length (promises w3)])) as Hd.
  rewrite length_app in Hd. cbn [length] in Hd. rewrite Nat.add_1_r in Hd.
  rewrite Hj3, length_map.
  rewrite (Hd _ []); cbn [parked jobs promises].
  - rewrite foldl_app. cbn [foldl].
    apply list_lookup_insert_eq. rewrite length_foldl_reject, length_app. cbn [length]. lia.
  - exact Hp3.
  - rewrite map_app, app_nil_r. reflexivity.
Qed.

(** * At most one load at a time *)

Lemma unsettled_nil_lookup ls n l :
  unsettled ls = [] -> ls !! n = Some l -> load_settled l = true.
Proof.
  intros Hu Hl. apply list_elem_of_lookup_2, list_elem_of_In in Hl.
  destruct (load_settled l) eqn:E; [reflexivity|].
  assert (Hin : In l (unsettled ls)) by (apply filter_In; rewrite E; auto).
  rewrite Hu in Hin. destruct Hin.
Qed.

Lemma unsettled_insert l' : forall ls n l,
  ls !! n = Some l -> load_settled l = false -> load_settled l' = true ->
  S (length (unsettled (<[ n := l' ]> ls))) = length (unsettled ls).
Proof.
  induction ls as [|a ls IH]; intros n l Hl Hu Hs; [destruct n; discriminate|].
  destruct n as [|n]; cbn in Hl.
  - injection Hl as ->. cbn. rewrite Hu, Hs. reflexivity.
  - cbn [insert list_insert]. unfold unsettled. cbn [List.filter].
    specialize (IH n l Hl Hu Hs). unfold unsettled in *.
    destruct (negb (load_settled a)); cbn [length]; [f_equal|]; exact IH.
Qed.

Lemma filter_parked_other s n lp (pk : list (promise * continuation)) :
  Forall (entry_ok n lp) pk -> Some s <> lp ->
  List.filter (fun entry => negb (parked_on s entry)) pk = pk /\
  List.filter (parked_on s) pk = [].
Proof.
  intros Hpk Hs. induction Hpk as [|entry pk (_ & _ & Hk) _ [IH1 IH2]]; [split; reflexivity|].
  assert (E : parked_on s entry = false).
  { unfold parked_on. apply Nat.eqb_neq. intros E. rewrite E in Hk. contradiction. }
  cbn [List.filter]. rewrite E. cbn [negb]. rewrite IH1, IH2. split; reflexivity.
Qed.

Lemma filter_parked_same n q (pk : list (promise * continuation)) :
  Forall (entry_ok n (Some q)) pk ->
  List.filter (fun entry => negb (parked_on q entry)) pk = [] /\
  List.filter (parked_on q) pk = pk.
Proof.
  intros Hpk. induction Hpk as [|entry pk (_ & _ & Hk) _ [IH1 IH2]]; [split; reflexivity|].
  assert (E : parked_on q entry = true).
  { unfold parked_on. apply Nat.eqb_eq. congruence. }
  cbn [List.filter]. rewrite E. cbn [negb]. rewrite IH1, IH2. split; reflexivity.
Qed.

(** Settling the promise of a call of [initialize] or [dispose]. *)
Lemma settle_other s st w :
  Forall (entry_ok (length (promises w)) (loadingPromise (this w))) (parked w) ->
  Some s <> loadingPromise (this w) ->
  settle s st w =
    {| this := this w; promises := <[ s := st ]> (promises w); parked := parked w;
       loads := loads w; jobs := jobs w; log := log w |}.
Proof.
  intros Hpk Hs. unfold settle.
  destruct (filter_parked_other s _ _ _ Hpk Hs) as [-> ->].
  cbn [map]. rewrite app_nil_r. reflexivity.
Qed.

Lemma job_ok_weaken n m lp j : (n <= m)%nat -> job_ok n lp j -> job_ok m lp j.
Proof. intros Hnm. destruct j as [q o|k o]; cbn; [auto|]. intros [H1 H2]. split; [lia | exact H2]. Qed.

Lemma entry_ok_weaken n m lp entry : (n <= m)%nat -> entry_ok n lp entry -> entry_ok m lp entry.
Proof. intros Hnm (H1 & H2 & H3). repeat split; [lia | exact H2 | exact H3]. Qed.

Lemma consistent_insert isL lp ps pk ls js s st :
  consistent_of isL lp ps pk ls js -> Some s <> lp ->
  consistent_of isL lp (<[ s := st ]> ps) pk ls js.
Proof.
  intros (Hj & Hp & Hlp & Hph) Hs. unfold consistent_of. rewrite length_insert.
  repeat split; try assumption.
  destruct Hph as [H1 H2 H3 H4 H5 | q H1 H2 H3 H4 H5 H6 H7 | q H1 H2 H3 H4 H5 H6 H7].
  - apply Idle; assumption.
  - apply (Loading _ _ _ _ _ _ q); try assumption.
    rewrite list_lookup_insert_ne by congruence. exact H3.
  - apply (Settled _ _ _ _ _ _ q); try assumption.
    rewrite list_lookup_insert_ne by congruence. exact H3.
Qed.

Lemma consistent_fresh isL lp ps pk ls js :
  consistent_of isL lp ps pk ls js ->
  consistent_of isL lp (ps ++ [Pending]) pk ls js.
Proof.
  intros (Hj & Hp & Hlp & Hph). unfold consistent_of. rewrite length_app. cbn [length].
  split; [eapply Forall_impl; [exact Hj | intros j; apply job_ok_weaken; lia]|].
  split; [eapply Forall_impl; [exact Hp | intros j; apply entry_ok_weaken; lia]|].
  split; [intros q Hq; specialize (Hlp q Hq); lia|].
  destruct Hph as [H1 H2 H3 H4 H5 | q H1 H2 H3 H4 H5 H6 H7 | q H1 H2 H3 H4 H5 H6 H7].
  - apply Idle; assumption.
  - apply (Loading _ _ _ _ _ _ q); try assumption.
    rewrite lookup_app_l by (apply Hlp; exact H2). exact H3.
  - apply (Settled _ _ _ _ _ _ q); try assumption.
    rewrite lookup_app_l by (apply Hlp; exact H2). exact H3.
Qed.

Lemma consistent_enqueue isL lp ps pk ls js s o :
  consistent_of isL lp ps pk ls js -> (s < length ps)%nat -> Some s <> lp ->
  consistent_of isL lp ps pk ls (js ++ [Resume_initialize (After_wait s) o]).
Proof.
  intros (Hj & Hp & Hlp & Hph) Hs Hne. unfold consistent_of.
  split; [apply Forall_app; split; [exact Hj | repeat constructor; assumption]|].
  split; [exact Hp|]. split; [exact Hlp|].
  destruct Hph as [H1 H2 H3 H4 H5 | q H1 H2 H3 H4 H5 H6 H7 | q H1 H2 H3 H4 H5 H6 H7].
  - apply Idle; try assumption; rewrite List.filter_app; cbn [List.filter resumes_load resumes_after_load];
      rewrite app_nil_r; assumption.
  - apply (Loading _ _ _ _ _ _ q); try assumption;
      rewrite List.filter_app; cbn [List.filter resumes_load resumes_after_load];
      rewrite app_nil_r; assumption.
  - apply (Settled _ _ _ _ _ _ q); try assumption;
      rewrite List.filter_app; cbn [List.filter resumes_load resumes_after_load];
      rewrite app_nil_r; assumption.
Qed.

Lemma consistent_park lp q ps pk ls js s :
  consistent_of true lp ps pk ls js -> lp = Some q -> ps !! q = Some Pending ->
  (s < length ps)%nat -> s <> q ->
  consistent_of true lp ps (pk ++ [(q, After_wait s)]) ls js.
Proof.
  intros (Hj & Hp & Hlp & Hph) Hq Hpend Hs Hne. unfold consistent_of.
  split; [exact Hj|].
  split; [apply Forall_app; split; [exact Hp|]; repeat constructor; cbn; congruence|].
  split; [exact Hlp|].
  destruct Hph as [H1 H2 H3 H4 H5 | q' H1 H2 H3 H4 H5 H6 H7 | q' H1 H2 H3 H4 H5 H6 H7].
  - discriminate.
  - apply (Loading _ _ _ _ _ _ q'); try assumption.
    rewrite List.filter_app. cbn [List.filter parked_after_load snd]. rewrite app_nil_r. exact H4.
  - exfalso. apply H3. congruence.
Qed.

(** A call that returns at once: its promise is new, and fulfilled. *)
Lemma consistent_settle_fresh w t l :
  consistent w ->
  consistent
    (settle (length (promises w)) Fulfilled
       {| this := {| transcriber := t; isLoading := isLoading (this w);
                     loadingPromise := loadingPromise (this w) |};
          promises := promises w ++ [Pending]; parked := parked w;
          loads := loads w; jobs := jobs w; log := l |}).
Proof.
  intros Hw. pose proof Hw as (Hj & Hp & Hlp & Hph).
  assert (Hne : Some (length (promises w)) <> loadingPromise (this w)).
  { intros E. symmetry in E. apply Hlp in E. lia. }
  rewrite settle_other; cbn [this promises parked loadingPromise].
  - unfold consistent. cbn [this promises parked loads jobs isLoading loadingPromise].
    apply consistent_insert; [|exact Hne]. apply consistent_fresh. exact Hw.
  - rewrite length_app. eapply Forall_impl; [exact Hp|]. intros entry. apply entry_ok_weaken. lia.
  - exact Hne.
Qed.

Lemma initialize_consistent modelName w :
  consistent w -> consistent (snd (initialize modelName w)).
Proof.
  intros Hw. pose proof Hw as (Hj & Hp & Hlp & Hph).
  destruct (transcriber (this w)) as [pipe|] eqn:Ht.
  - unfold initialize, new_promise. cbn [this]. rewrite Ht. cbn [snd].
    pose proof (consistent_settle_fresh w (Some pipe) (log w) Hw) as H.
    destruct w as [[t isL lp] ps pk ls js lg]; cbn in *. subst t. exact H.
  - destruct (isLoading (this w)) eqn:Hl.
    + unfold initialize, new_promise. cbn [this]. rewrite Ht, Hl. cbn [snd].
      assert (Hq : exists q, loadingPromise (this w) = Some q).
      { destruct Hph as [H1 | q _ H2 | q _ H2]; [congruence | eauto | eauto]. }
      destruct Hq as [q Hq]. rewrite Hq. unfold await. cbn [promises].
      pose proof (Hlp q Hq) as Hlt.
      assert (Hfresh := consistent_fresh _ _ _ _ _ _ Hw). rewrite Hl in Hfresh.
      assert (Hs : (length (promises w) < length (promises w ++ [Pending]))%nat)
        by (rewrite length_app; cbn; lia).
      assert (Hne : Some (length (promises w)) <> loadingPromise (this w))
        by (rewrite Hq; intros [= E]; lia).
      destruct ((promises w ++ [Pending]) !! q) as [[| |e]|] eqn:Eq.
      * unfold park, consistent.
        cbn [this promises parked loads jobs isLoading loadingPromise]. rewrite Hl.
        apply consistent_park; try assumption. lia.
      * unfold enqueue, consistent.
        cbn [this promises parked loads jobs isLoading loadingPromise]. rewrite Hl.
        apply consistent_enqueue; assumption.
      * unfold enqueue, consistent.
        cbn [this promises parked loads jobs isLoading loadingPromise]. rewrite Hl.
        apply consistent_enqueue; assumption.
      * unfold enqueue, consistent.
        cbn [this promises parked loads jobs isLoading loadingPromise]. rewrite Hl.
        apply consistent_enqueue; assumption.
    + rewrite (initialize_when_unloaded modelName w Ht Hl). cbn [snd].
      destruct Hph as [H1 H2 H3 H4 H5 | q H1 | q H1]; [|congruence|congruence].
      unfold consistent, consistent_of.
      cbn [this promises parked loads jobs isLoading loadingPromise].
      rewrite H2, length_app. cbn [app length].
      split; [|split; [|split]].
      * apply Forall_forall. intros j Hin.
        rewrite Forall_forall in Hj. specialize (Hj j Hin).
        destruct j as [q o|k o].
        -- exfalso. apply list_elem_of_In in Hin.
           assert (Hf : In (Resume_loadModel q o) (List.filter resumes_load (jobs w)))
             by (apply filter_In; split; [exact Hin | reflexivity]).
           rewrite H4 in Hf. destruct Hf.
        -- cbn in Hj |- *. destruct Hj as [Hj1 _]. split; [lia|]. intros [= E]. lia.
      * repeat constructor; cbn; [lia|]. intros [= E]. lia.
      * intros q [= <-]. lia.
      * apply (Loading _ _ _ _ _ _ (S (length (promises w)))); try reflexivity.
        -- rewrite lookup_app_r by lia.
           replace (S (length (promises w)) - length (promises w))%nat with 1%nat by lia.
           reflexivity.
        -- exact H5.
        -- unfold unsettled in *. rewrite List.filter_app, H3, H4. cbn. lia.
        -- apply Forall_app. split; [|repeat constructor].
           apply Forall_forall. intros l Hin Hu. exfalso.
           apply list_elem_of_In in Hin.
           assert (Hf : In l (unsettled (loads w)))
             by (apply filter_In; split; [exact Hin | rewrite Hu; reflexivity]).
           rewrite H3 in Hf. destruct Hf.
Qed.

Lemma dispose_consistent w : consistent w -> consistent (snd (dispose w)).
Proof.
  intros Hw. unfold dispose, new_promise, set_this, console_log, set_transcriber.
  cbn [this promises parked loads jobs log transcriber isLoading loadingPromise].
  destruct (transcriber (this w)) as [pipe|] eqn:Ht; cbn [snd].
  - apply (consistent_settle_fresh w None (log w ++ ["Whisper model disposed"]) Hw).
  - pose proof (consistent_settle_fresh w None (log w) Hw) as H.
    destruct w as [[t isL lp] ps pk ls js lg]; cbn in *. subst t. exact H.
Qed.

Lemma pipeline_settles_consistent n outcome w :
  consistent w -> consistent (pipeline_settles n outcome w).
Proof.
  intros Hw. pose proof Hw as (Hj & Hp & Hlp & Hph). unfold pipeline_settles.
  destruct (loads w !! n) as [l|] eqn:El; [|exact Hw].
  destruct (load_settled l) eqn:Es; [exact Hw|].
  destruct Hph as [H1 H2 H3 H4 H5 | q H1 H2 H3 H4 H5 H6 H7 | q H1 H2 H3 H4 H5 H6 H7].
  - rewrite (unsettled_nil_lookup _ _ _ H3 El) in Es. discriminate.
  - assert (Hwaiter : load_waiter l = q).
    { rewrite Forall_forall in H7. apply H7; [|exact Es].
      eapply list_elem_of_lookup_2. exact El. }
    pose proof (unsettled_insert
                  {| load_model := load_model l; load_waiter := load_waiter l;
                     load_settled := true |} (loads w) n l El Es eq_refl) as Hins.
    unfold consistent, consistent_of.
    cbn [this promises parked loads jobs isLoading loadingPromise].
    split; [|split; [exact Hp | split; [exact Hlp|]]].
    + apply Forall_app. split; [exact Hj|]. repeat constructor. cbn. congruence.
    + apply (Loading _ _ _ _ _ _ q); try assumption.
      * rewrite List.filter_app. cbn [List.filter resumes_after_load]. rewrite app_nil_r. exact H5.
      * rewrite List.filter_app, length_app. cbn [List.filter resumes_load length]. lia.
      * apply Forall_insert; [exact H7|]. cbn. discriminate.
  - rewrite (unsettled_nil_lookup _ _ _ H5 El) in Es. discriminate.
Qed.

Lemma filter_map_resume f (o : JS.completion unit) (pk : list (promise * continuation)) :
  (forall k, f (Resume_initialize k o) = match k with After_load _ => true | After_wait _ => false end) ->
  List.filter f (map (fun entry => Resume_initialize (snd entry) o) pk) =
  map (fun entry => Resume_initialize (snd entry) o) (List.filter parked_after_load pk).
Proof.
  intros Hf. induction pk as [|entry pk IH]; [reflexivity|].
  cbn [map List.filter]. rewrite Hf. unfold parked_after_load at 1.
  destruct entry as [p []]; cbn [snd map]; rewrite IH; reflexivity.
Qed.

Lemma filter_resumes_load_map (o : JS.completion unit) (pk : list (promise * continuation)) :
  List.filter resumes_load (map (fun entry => Resume_initialize (snd entry) o) pk) = [].
Proof. induction pk as [|entry pk IH]; [reflexivity | exact IH]. Qed.

Lemma next_job_consistent w : consistent w -> consistent (next_job w).
Proof.
  intros Hw. pose proof Hw as (Hj & Hp & Hlp & Hph). unfold next_job.
  destruct (jobs w) as [|j rest] eqn:Ej; [exact Hw|].
  inversion Hj as [|? ? Hhd Htl]; subst.
  destruct j as [q o|k o].
  - (* the continuation of [_loadModel] *)
    cbn in Hhd.
    destruct Hph as [H1 H2 H3 H4 H5 | q' H1 H2 H3 H4 H5 H6 H7 | q' H1 H2 H3 H4 H5 H6 H7];
      [cbn in H4; discriminate | | cbn in H6; discriminate].
    assert (q' = q) by congruence. subst q'.
    cbn [List.filter resumes_load resumes_after_load length] in H5, H6.
    assert (Hu : unsettled (loads w) = []) by (destruct (unsettled (loads w)); [reflexivity | cbn in H6; lia]).
    assert (Hr : List.filter resumes_load rest = [])
      by (destruct (List.filter resumes_load rest); [reflexivity | cbn in H6; lia]).
    rewrite H2 in Hp. destruct (filter_parked_same _ _ _ Hp) as [Hf1 Hf2].
    pose proof (Hlp q H2) as Hlt.
    assert (Hgoal : forall st t l, st <> Pending ->
      consistent (settle q st
        {| this := {| transcriber := t; isLoading := isLoading (this w);
                      loadingPromise := loadingPromise (this w) |};
           promises := promises w; parked := parked w; loads := loads w;
           jobs := rest; log := l |})).
    { intros st t l Hst. unfold settle, consistent, consistent_of.
      cbn [this promises parked loads jobs isLoading loadingPromise].
      rewrite Hf1, Hf2, length_insert, H2.
      split; [|split; [constructor | split; [intros ? [= <-]; exact Hlt|]]].
      - apply Forall_app. split; [rewrite <- H2; exact Htl|].
        apply Forall_forall. intros j Hin.
        apply list_elem_of_In, in_map_iff in Hin. destruct Hin as (entry & <- & Hin).
        rewrite Forall_forall in Hp. apply list_elem_of_In, Hp in Hin.
        destruct Hin as (E1 & E2 & _). split; assumption.
      - apply (Settled _ _ _ _ _ _ q); try assumption; try reflexivity.
        + rewrite list_lookup_insert_eq by exact Hlt. congruence.
        + rewrite List.filter_app, Hr. cbn [app]. apply filter_resumes_load_map.
        + rewrite List.filter_app, H5. cbn [app].
          rewrite (filter_map_resume resumes_after_load) by (intros []; reflexivity).
          rewrite length_map. exact H4. }
    destruct o as [pipe|e]; cbn [run_job];
      unfold set_this, set_transcriber, console_log;
      cbn [this promises parked loads jobs log transcriber isLoading loadingPromise].
    + apply Hgoal. discriminate.
    + pose proof (Hgoal (Rejected e) (transcriber (this w)) (log w)) as H.
      destruct w as [[t isL lp] ps pk ls js lg]; cbn in *. apply H. discriminate.
  - (* the continuation of [initialize] *)
    destruct Hhd as [Hs Hne].
    assert (Hpop : forall isL t l,
      phase isL (loadingPromise (this w)) (promises w) (parked w) (loads w) rest ->
      forall st,
      consistent (settle (self_of k) st
        {| this := {| transcriber := t; isLoading := isL;
                      loadingPromise := loadingPromise (this w) |};
           promises := promises w; parked := parked w; loads := loads w;
           jobs := rest; log := l |})).
    { intros isL t l Hph' st.
      rewrite settle_other; cbn [this promises parked loadingPromise]; [|exact Hp|exact Hne].
      unfold consistent. cbn [this promises parked loads jobs isLoading loadingPromise].
      apply consistent_insert; [|exact Hne].
      repeat split; assumption. }
    destruct k as [s|s].
    + (* a caller that waited *)
      assert (Hph' : phase (isLoading (this w)) (loadingPromise (this w)) (promises w)
                       (parked w) (loads w) rest).
      { destruct Hph as [H1 H2 H3 H4 H5 | q' H1 H2 H3 H4 H5 H6 H7 | q' H1 H2 H3 H4 H5 H6 H7];
          cbn [List.filter resumes_load resumes_after_load] in *.
        - apply Idle; assumption.
        - apply (Loading _ _ _ _ _ _ q'); assumption.
        - apply (Settled _ _ _ _ _ _ q'); assumption. }
      pose proof (Hpop (isLoading (this w)) (transcriber (this w)) (log w) Hph') as H.
      destruct o as [[]|e]; cbn [run_job]; cbn [self_of] in H;
        destruct w as [[t isL lp] ps pk ls js lg]; cbn in *; apply H.
    + (* the caller that started the load *)
      destruct Hph as [H1 H2 H3 H4 H5 | q' H1 H2 H3 H4 H5 H6 H7 | q' H1 H2 H3 H4 H5 H6 H7];
        cbn [List.filter resumes_load resumes_after_load length] in *;
        [discriminate | discriminate |].
      assert (Hr : List.filter resumes_after_load rest = [])
        by (destruct (List.filter resumes_after_load rest); [reflexivity | cbn in H7; lia]).
      destruct o as [[]|e]; cbn [run_job].
      * unfold set_this, set_isLoading.
        cbn [this promises parked loads jobs log transcriber isLoading loadingPromise].
        apply (Hpop false (transcriber (this w)) (log w)).
        apply Idle; try assumption; reflexivity.
      * pose proof (Hpop (isLoading (this w)) (transcriber (this w)) (log w)) as H.
        cbn [self_of] in H.
        destruct w as [[t isL lp] ps pk ls js lg]; cbn in *. apply H.
        apply (Settled _ _ _ _ _ _ q'); try assumption. rewrite Hr. cbn. lia.
Qed.

Lemma step_consistent a w : consistent w -> consistent (step a w).
Proof.
  destruct a; cbn [step];
    [apply initialize_consistent | apply dispose_consistent
     | apply pipeline_settles_consistent | apply next_job_consistent].
Qed.

Lemma run_consistent schedule : forall w, consistent w -> consistent (run schedule w).
Proof.
  induction schedule as [|a rest IH]; intros w Hw; [exact Hw|].
  cbn [run fold_left]. apply IH, step_consistent, Hw.
Qed.

Lemma initial_world_consistent : consistent initial_world.
Proof.
  unfold consistent, consistent_of. cbn.
  split; [constructor|]. split; [constructor|]. split; [discriminate|].
  apply Idle; reflexivity.
Qed.

(** X11.  At most one [pipeline] call is in flight at any time, whatever
    the order of the calls of [initialize] and [dispose], of the
    settlements and of the jobs; and none is in flight while [isLoading]
    is clear. *)
Theorem at_most_one_load_in_flight (schedule : list action) :
  let w := run schedule initial_world in
  (length (in_flight w) <= 1)%nat /\
  (isLoading (this w) = false -> in_flight w = []).
Proof.
  intros w.
  destruct (run_consistent schedule _ initial_world_consistent) as (_ & _ & _ & Hph).
  fold w in Hph. unfold in_flight.
  destruct Hph as [H1 H2 H3 H4 H5 | q' H1 H2 H3 H4 H5 H6 H7 | q' H1 H2 H3 H4 H5 H6 H7].
  - rewrite H3. split; [cbn; lia | reflexivity].
  - split; [lia | congruence].
  - rewrite H5. split; [cbn; lia | reflexivity].
Qed.

(** * A loaded model stays *)

Lemma settle_quiet p st w : quiet w -> quiet (settle p st w).
Proof.
  intros [Hu Hr]. unfold quiet, in_flight, settle. cbn [loads jobs].
  split; [exact Hu|]. rewrite List.filter_app, Hr. apply filter_resumes_load_map.
Qed.

(** In a world reached from the start, a model is held only when no load
    is in flight. *)
Lemma step_loaded_quiet a w :
  consistent w -> (isReady (this w) = true -> quiet w) ->
  isReady (this (step a w)) = true -> quiet (step a w).
Proof.
  intros Hw Hq. pose proof Hw as (Hj & Hp & Hlp & Hph).
  destruct a as [modelName| |n outcome|]; cbn [step].
  - unfold initialize, new_promise. cbn [this]. unfold isReady in *.
    destruct (transcriber (this w)) as [pipe|] eqn:Ht; cbn [snd].
    + intros _. apply settle_quiet. apply Hq. reflexivity.
    + destruct (isLoading (this w)) eqn:Hl; cbn [snd].
      * unfold await. cbn [loadingPromise this promises].
        destruct (loadingPromise (this w)) as [q|];
          [destruct ((promises w ++ [Pending]) !! q) as [[| |e]|]|];
          cbn [park enqueue this transcriber]; rewrite Ht; discriminate.
      * rewrite (surjective_pairing (_loadModel _ _)). cbn [snd].
        unfold await, set_this, set_loadingPromise, _loadModel, new_promise, console_log,
          set_isLoading.
        cbn [this promises parked loads jobs log transcriber isLoading loadingPromise fst snd].
        match goal with |- context [match ?x with _ => _ end] => destruct x as [[| |e]|] end;
          cbn [park enqueue this transcriber]; rewrite Ht; discriminate.
  - unfold dispose, new_promise, isReady. cbn [this].
    destruct (transcriber (this w)) as [pipe|] eqn:Ht; cbn [snd];
      unfold settle, set_this, set_transcriber, console_log; cbn [this transcriber];
      [discriminate | rewrite Ht; discriminate].
  - unfold pipeline_settles.
    destruct (loads w !! n) as [l|] eqn:El; [|exact Hq].
    destruct (load_settled l) eqn:Es; [exact Hq|].
    cbn [this]. intros Hr. destruct (Hq Hr) as [Hu _].
    rewrite (unsettled_nil_lookup _ _ _ Hu El) in Es. discriminate.
  - unfold next_job. destruct (jobs w) as [|j rest] eqn:Ej; [exact Hq|].
    destruct j as [q o|k o].
    + (* the load is resumed: it was the only one *)
      destruct Hph as [H1 H2 H3 H4 H5 | q' H1 H2 H3 H4 H5 H6 H7 | q' H1 H2 H3 H4 H5 H6 H7];
        [cbn in H4; discriminate | | cbn in H6; discriminate].
      cbn [List.filter resumes_load length] in H6.
      intros _. destruct o as [pipe|e]; cbn [run_job]; apply settle_quiet;
        unfold quiet, in_flight, set_this, console_log; cbn [loads jobs];
        (split; [destruct (unsettled (loads w)); [reflexivity | cbn in H6; lia]
                |destruct (List.filter resumes_load rest); [reflexivity | cbn in H6; lia]]).
    + assert (Hrest : isReady (this w) = true ->
                quiet {| this := this w; promises := promises w; parked := parked w;
                         loads := loads w; jobs := rest; log := log w |}).
      { intros Hr. destruct (Hq Hr) as [Hu Hf]. split; [exact Hu|].
        cbn [jobs]. rewrite Ej in Hf. exact Hf. }
      destruct k as [s|s], o as [[]|e]; cbn [run_job]; intros Hr;
        apply settle_quiet; apply Hrest; exact Hr.
Qed.

Lemma run_loaded_quiet schedule : forall w,
  consistent w -> (isReady (this w) = true -> quiet w) ->
  isReady (this (run schedule w)) = true -> quiet (run schedule w).
Proof.
  induction schedule as [|a rest IH]; intros w Hw Hq; [exact Hq|].
  cbn [run fold_left]. apply IH; [apply step_consistent, Hw | apply step_loaded_quiet; assumption].
Qed.

Lemma step_keeps_model a w pipe :
  calls_dispose a = false ->
  transcriber (this w) = Some pipe -> quiet w ->
  transcriber (this (step a w)) = Some pipe /\ quiet (step a w) /\
  loads (step a w) = loads w.
Proof.
  intros Ha Ht Hq. destruct a as [modelName| |n outcome|]; cbn [step]; [|discriminate| |].
  - unfold initialize, new_promise. cbn [this]. rewrite Ht. cbn [snd].
    split; [exact Ht|]. split; [apply settle_quiet; exact Hq | reflexivity].
  - unfold pipeline_settles.
    destruct (loads w !! n) as [l|] eqn:El; [|repeat split; [exact Ht | apply Hq | apply Hq]].
    rewrite (unsettled_nil_lookup _ _ _ (proj1 Hq) El).
    repeat split; [exact Ht | apply Hq | apply Hq].
  - unfold next_job. destruct (jobs w) as [|j rest] eqn:Ej;
      [repeat split; [exact Ht | apply Hq | rewrite Ej; reflexivity]|].
    destruct Hq as [Hu Hf]. rewrite Ej in Hf.
    destruct j as [q o|k o]; [cbn in Hf; discriminate|]. cbn [List.filter resumes_load] in Hf.
    destruct k as [s|s], o as [[]|e]; cbn [run_job];
      (split; [exact Ht|]); (split; [apply settle_quiet; split; assumption | reflexivity]).
Qed.

(** X12.  Once a model is held it stays, until [dispose] is called:
    whatever else happens, the same pipeline is held, no [pipeline] call is
    made, and none is in flight. *)
Theorem loaded_model_stays (history schedule : list action) (pipe : Pipeline) :
  let w := run history initial_world in
  let w' := run schedule w in
  transcriber (this w) = Some pipe ->
  forallb (fun a => negb (calls_dispose a)) schedule = true ->
  transcriber (this w') = Some pipe /\ loads w' = loads w /\ in_flight w' = [].
Proof.
  intros w w' Ht Hs.
  assert (Hq : quiet w).
  { apply (run_loaded_quiet history initial_world initial_world_consistent).
    - intros _. split; reflexivity.
    - unfold isReady. fold w. rewrite Ht. reflexivity. }
  subst w'. clearbody w. revert w Ht Hq.
  induction schedule as [|a rest IH]; intros w Ht Hq.
  - repeat split; [exact Ht | apply Hq].
  - cbn [forallb] in Hs. apply andb_true_iff in Hs as [Ha Hs].
    apply negb_true_iff in Ha.
    destruct (step_keeps_model a w pipe Ha Ht Hq) as (Ht' & Hq' & Hl').
    cbn [run fold_left]. destruct (IH Hs _ Ht' Hq') as (H1 & H2 & H3).
    repeat split; [exact H1 | unfold run in H2; rewrite H2; exact Hl' | exact H3].
Qed.

(** * Transcribing with a loaded model *)

Section TranscribeLoaded.

Context {Response ArrayBuffer Blob : Type}.
Variable fetch : string -> JS.completion Response.
Variable Response_arrayBuffer : Response -> JS.completion ArrayBuffer.
Variable Blob_arrayBuffer : Blob -> JS.completion ArrayBuffer.
Variable decodeAudioData : ArrayBuffer -> JS.completion AudioBuffer.
Variable run_pipeline : Pipeline -> F32.Float32Array -> JS.completion string.

(** The loaders call the platform only: they write nothing to the console
    and do not run a model. *)
Lemma read_audio_trace url rate :
  forallb (fun ev => negb (is_console ev) && negb (is_inference ev))
    (fst (read_audio fetch Response_arrayBuffer decodeAudioData url rate)) = true.
Proof.
  unfold read_audio, io_call, io_lift, mbind, io_bind.
  destruct (fetch url) as [response|]; [|reflexivity].
  destruct (Response_arrayBuffer response) as [bytes|]; [|reflexivity].
  destruct (decodeAudioData bytes) as [audioBuffer|]; [|reflexivity].
  destruct (getChannelData audioBuffer 0); [|reflexivity].
  destruct (JS.strict_ne _ _); reflexivity.
Qed.

Lemma read_audio_from_blob_trace blob rate :
  forallb (fun ev => negb (is_console ev) && negb (is_inference ev))
    (fst (read_audio_from_blob Blob_arrayBuffer decodeAudioData blob rate)) = true.
Proof.
  unfold read_audio_from_blob, io_call, io_lift, mbind, io_bind.
  destruct (Blob_arrayBuffer blob) as [bytes|]; [|reflexivity].
  destruct (decodeAudioData bytes) as [audioBuffer|]; [|reflexivity].
  destruct (getChannelData audioBuffer 0); [|reflexivity].
  destruct (JS.strict_ne _ _); reflexivity.
Qed.


Lemma transcription_throws pipe loaded t e :
  forallb (fun ev => negb (is_console ev) && negb (is_inference ev)) (fst loaded) = true ->
  transcription run_pipeline pipe loaded = (t, JS.Throw e) ->
  (Ev_console "timeEnd: Transcription time" ∉ t) /\
  (forall e', snd loaded = JS.Throw e' ->
     e' = e /\ t = Ev_console "time: Transcription time" :: fst loaded /\
     forallb (fun ev => negb (is_inference ev)) t = true).
Proof.
  unfold transcription, console, io_call, mbind, io_bind, mret, io_ret.
  destruct loaded as [tl [audio|e']]; cbn [fst snd]; intros Htl.
  - destruct (run_pipeline pipe audio) as [text'|e'] eqn:Er; intros [= <- <-].
    split; [|intros ? [=]].
    cbn [app]. intros Hin. apply elem_of_cons in Hin as [[=]|Hin].
    apply elem_of_app in Hin as [Hin|Hin].
    + rewrite forallb_forall in Htl. apply list_elem_of_In, Htl in Hin. discriminate.
    + apply elem_of_cons in Hin as [[=]|Hin]. inversion Hin.
  - intros [= <- <-]. split.
    + cbn [app]. intros Hin. apply elem_of_cons in Hin as [[=]|Hin].
      rewrite forallb_forall in Htl. apply list_elem_of_In, Htl in Hin. discriminate.
    + intros ? [= <-]. split; [reflexivity|]. split; [reflexivity|].
      cbn [app forallb is_inference negb andb].
      rewrite forallb_forall in Htl |- *. intros ev Hev.
      apply Htl, andb_true_iff in Hev. apply Hev.
Qed.

End TranscribeLoaded.


(** X14.  A transcription that throws never stops the timer it started;
    and when it is the loader that failed, the error is the loader's and
    the model is not run. *)
Theorem transcribe_failure_skips_timeEnd {Response ArrayBuffer Blob : Type}
    (fetch : string -> JS.completion Response)
    (Response_arrayBuffer : Response -> JS.completion ArrayBuffer)
    (Blob_arrayBuffer : Blob -> JS.completion ArrayBuffer)
    (decodeAudioData : ArrayBuffer -> JS.completion AudioBuffer)
    (run_pipeline : Pipeline -> F32.Float32Array -> JS.completion string)
    (service : WhisperTranscriber) (pipe : Pipeline)
    (audioUrl : string) (audioBlob : Blob) (t : list event) (e : JS.exn) :
  transcriber service = Some pipe ->
  (transcribeFromUrl fetch Response_arrayBuffer decodeAudioData run_pipeline
     service audioUrl = (t, JS.Throw e) ->
   (Ev_console "timeEnd: Transcription time" ∉ t) /\
   (forall t_load e',
      read_audio fetch Response_arrayBuffer decodeAudioData audioUrl (sampling_rate pipe) =
        (t_load, JS.Throw e') ->
      e' = e /\ t = Ev_console "time: Transcription time" :: t_load /\
      forall audio, Ev_inference audio ∉ t)) /\
  (transcribeFromBlob Blob_arrayBuffer decodeAudioData run_pipeline
     service audioBlob = (t, JS.Throw e) ->
   (Ev_console "timeEnd: Transcription time" ∉ t) /\
   (forall t_load e',
      read_audio_from_blob Blob_arrayBuffer decodeAudioData audioBlob (sampling_rate pipe) =
        (t_load, JS.Throw e') ->
      e' = e /\ t = Ev_console "time: Transcription time" :: t_load /\
      forall audio, Ev_inference audio ∉ t)).
Proof.
  intros Hpipe. unfold transcribeFromUrl, transcribeFromBlob. rewrite Hpipe.
  split; intros H; apply (transcription_throws run_pipeline) in H;
    try apply read_audio_trace; try apply read_audio_from_blob_trace;
    destruct H as [Hend Hload]; (split; [exact Hend|]);
    intros t_load e' Hl; rewrite Hl in Hload; cbn [fst snd] in Hload;
    destruct (Hload e' eq_refl) as (He & Ht & Hinf);
    (split; [exact He|]); (split; [exact Ht|]);
    intros audio Hin; rewrite forallb_forall in Hinf;
    apply list_elem_of_In, Hinf in Hin; discriminate.
Qed.

(** * Instances *)

Lemma transcribe_not_initialized_witness :
  let fetch := fun url : string => JS.Normal url in
  let Response_arrayBuffer := fun _ : string => JS.Normal 0%nat in
  let Blob_arrayBuffer := fun b : nat => JS.Normal b in
  let decodeAudioData := fun _ : nat => JS.Throw (JS.External "EncodingError") in
  let run_pipeline := fun (_ : Pipeline) (_ : list spec_float) => JS.Normal "text" in
  let w := snd (dispose initial_world) in
  transcribeFromUrl fetch Response_arrayBuffer decodeAudioData run_pipeline
    (this w) "note.webm" = ([], JS.Throw NotInitialized) /\
  transcribeFromBlob Blob_arrayBuffer decodeAudioData run_pipeline
    (this w) 7%nat = ([], JS.Throw NotInitialized) /\
  isReady (this w) = false.
Proof.
  intros fetch Response_arrayBuffer Blob_arrayBuffer decodeAudioData run_pipeline w.
  apply (transcribe_not_initialized fetch Response_arrayBuffer Blob_arrayBuffer
           decodeAudioData run_pipeline w "note.webm" 7%nat).
  right. exists initial_world. reflexivity.
Defined.

Lemma single_flight_witness :
  let w := initial_world in
  let pipe := {| handle := 0; sampling_rate := JS.of_Z 16000 |} in
  let callers := fst (initialize_all ["tiny"; "base"; "small"] w) in
  let w1 := snd (initialize_all ["tiny"; "base"; "small"] w) in
  let settled := pipeline_settles (length (loads w)) (JS.Normal pipe) w1 in
  let w2 := drain (S (length callers)) settled in
  length callers = 3%nat /\
  (exists lp, loads w1 = loads w ++
     [{| load_model := "tiny"; load_waiter := lp; load_settled := false |}]) /\
  length (loads w2) = 1%nat /\
  jobs w2 = [] /\
  (forall j, (1 <= j)%nat -> transcriber (this (drain j settled)) = Some pipe) /\
  (forall p, p ∈ callers ->
     promises w1 !! p = Some Pending /\ promises w2 !! p = Some Fulfilled).
Proof.
  exact (single_flight initial_world "tiny" ["base"; "small"]
           {| handle := 0; sampling_rate := JS.of_Z 16000 |}
           eq_refl eq_refl eq_refl eq_refl).
Defined.

Lemma initialize_idempotent_when_loaded_witness :
  let pipe := {| handle := 0; sampling_rate := JS.of_Z 16000 |} in
  let w := run [Call_initialize default_model; Pipeline_settles 0 (JS.Normal pipe);
                Run_job; Run_job] initial_world in
  transcriber (this w) = Some pipe /\
  let self := fst (initialize "whisper-base" w) in
  let w' := snd (initialize "whisper-base" w) in
  this w' = this w /\ loads w' = loads w /\ log w' = log w /\
  promises w' !! self = Some Fulfilled.
Proof.
  intros pipe w. split; [reflexivity|].
  apply (initialize_idempotent_when_loaded w pipe "whisper-base"). reflexivity.
Defined.

Lemma resample_interpolates_witness :
  let x := map F32.of_Z [0; 1; 0; -1] in
  let out := map F32.of_Z [0; 0] in
  let ratio := JS.div (JS.of_Z 4) (JS.of_Z 2) in
  let position := JS.mul (JS.of_Z (Z.of_nat 1)) ratio in
  let index := JS.Math_floor position in
  let fraction := JS.sub position index in
  (exists (z : Z) (a : spec_float),
     JS.integer_value index = Some z /\ 0 <= z /\ x !! Z.to_nat z = Some a /\
     if JS.lt (JS.add index (JS.of_Z 1)) (F32.length x)
     then exists b : spec_float,
            x !! Z.to_nat (z + 1) = Some b /\
            out !! 1%nat = Some (F32.of_number
              (JS.add (JS.mul (F32.to_number a) (JS.sub (JS.of_Z 1) fraction))
                      (JS.mul (F32.to_number b) fraction)))
     else out !! 1%nat = Some a)
  /\ resampleAudio (map F32.of_Z [0; 1; 0; -1]) (JS.of_Z 4) (JS.of_Z 2)
     = JS.Normal (map F32.of_Z [0; 0]).
Proof.
  intros x out.
  apply (resample_interpolates x out (JS.of_Z 4) (JS.of_Z 2) 1%nat).
  - discriminate.
  - reflexivity.
  - reflexivity.
  - reflexivity.
  - reflexivity.
  - reflexivity.
  - vm_compute. reflexivity.
  - cbn. lia.
Defined.

Lemma resample_length_witness :
  let x := map F32.of_Z [0; 1; 0; -1] in
  let out := map F32.of_Z [0; 0] in
  (if JS.strict_eq (JS.of_Z 4) (JS.of_Z 2) then out = x
   else Z.of_nat (length out) =
        spec_round_half_up (B2Q (JS.div (F32.length x) (JS.div (JS.of_Z 4) (JS.of_Z 2)))))
  /\ (x = [] -> out = []).
Proof.
  intros x out. apply (resample_length x out (JS.of_Z 4) (JS.of_Z 2)).
  - reflexivity.
  - reflexivity.
  - vm_compute. reflexivity.
Defined.

Lemma resample_identity_witness :
  resampleAudio (map F32.of_Z [0; 1; 0; -1]) (JS.of_Z 16000) (JS.of_Z 16000)
  = JS.Normal (map F32.of_Z [0; 1; 0; -1]).
Proof.
  apply (resample_identity (map F32.of_Z [0; 1; 0; -1]) (JS.of_Z 16000)).
  reflexivity.
Defined.

Lemma resample_bounded_witness :
  SFleb (F32.of_Z (-1)) (F32.of_Z 0) = true /\ SFleb (F32.of_Z 0) (F32.of_Z 1) = true.
Proof.
  apply (resample_bounded (map F32.of_Z [0; 1; 0; -1]) (map F32.of_Z [0; 0])
           (JS.of_Z 4) (JS.of_Z 2) (F32.of_Z (-1)) (F32.of_Z 1) (F32.of_Z 0) 1%nat).
  - reflexivity.
  - reflexivity.
  - reflexivity.
  - reflexivity.
  - reflexivity.
  - reflexivity.
  - reflexivity.
  - vm_compute. reflexivity.
  - reflexivity.
Defined.

Lemma loaders_select_channel_0_witness :
  let fetch := fun url : string => JS.Normal url in
  let Response_arrayBuffer := fun _ : string => JS.Normal 7%nat in
  let Blob_arrayBuffer := fun b : nat => JS.Normal b in
  let channel0 := map F32.of_Z [0; 1; 0; -1] in
  let decodeAudioData := fun _ : nat =>
    JS.Normal {| sampleRate := JS.of_Z 4; channelData := [channel0; map F32.of_Z [1; 1]] |} in
  let loaded :=
    if JS.strict_eq (JS.of_Z 4) (JS.of_Z 2) then JS.Normal channel0
    else resampleAudio channel0 (JS.of_Z 4) (JS.of_Z 2) in
  read_audio fetch Response_arrayBuffer decodeAudioData "note.webm" (JS.of_Z 2) =
    ([Ev_fetch "note.webm"; Ev_arrayBuffer; Ev_decodeAudioData], loaded) /\
  read_audio_from_blob Blob_arrayBuffer decodeAudioData 7%nat (JS.of_Z 2) =
    ([Ev_arrayBuffer; Ev_decodeAudioData], loaded).
Proof.
  intros fetch Response_arrayBuffer Blob_arrayBuffer channel0 decodeAudioData.
  apply (loaders_select_channel_0 fetch Response_arrayBuffer Blob_arrayBuffer
           decodeAudioData "note.webm" 7%nat "note.webm" 7%nat (JS.of_Z 4) (JS.of_Z 2)
           channel0 [map F32.of_Z [1; 1]]); reflexivity.
Defined.

Lemma resample_reads_in_bounds_witness :
  let x := map F32.of_Z [0; 1; 0; -1] in
  let ratio := JS.div (JS.of_Z 4) (JS.of_Z 2) in
  let position := JS.mul (JS.of_Z (Z.of_nat 1)) ratio in
  let index := JS.Math_floor position in
  exists z : Z,
    JS.integer_value index = Some z /\
    0 <= z < Z.of_nat (length x) /\
    is_Some (F32.get x index) /\
    (JS.lt (JS.add index (JS.of_Z 1)) (F32.length x) = true ->
       JS.integer_value (JS.add index (JS.of_Z 1)) = Some (z + 1) /\
       z + 1 < Z.of_nat (length x) /\
       is_Some (F32.get x (JS.add index (JS.of_Z 1)))).
Proof.
  intros x.
  apply (resample_reads_in_bounds x (map F32.of_Z [0; 0]) (JS.of_Z 4) (JS.of_Z 2) 1%nat).
  - discriminate.
  - reflexivity.
  - reflexivity.
  - reflexivity.
  - reflexivity.
  - vm_compute. reflexivity.
  - cbn. lia.
Defined.

Lemma resample_first_sample_witness :
  resampleAudio (map F32.of_Z [1; 0; -1; 0]) (JS.of_Z 48000) (JS.of_Z 16000) =
    JS.Normal (map F32.of_Z [1]) /\
  SFeqb (F32.of_Z 1) (F32.of_Z 1) = true.
Proof.
  split; [vm_compute; reflexivity|].
  apply (resample_first_sample (map F32.of_Z [1; 0; -1; 0]) (map F32.of_Z [1])
           (JS.of_Z 48000) (JS.of_Z 16000) (F32.of_Z 1) (F32.of_Z 1)).
  - reflexivity.
  - reflexivity.
  - reflexivity.
  - reflexivity.
  - vm_compute. reflexivity.
  - reflexivity.
  - reflexivity.
Defined.


Lemma resample_decimation_length_witness :
  Z.of_nat (length (map F32.of_Z [1; 4])) = spec_length 6 (3 * 16000) 16000.
Proof.
  apply (resample_decimation_length (map F32.of_Z [1; 2; 3; 4; 5; 6]) (map F32.of_Z [1; 4])
           3 16000).
  - reflexivity.
  - lia.
  - lia.
  - reflexivity.
  - vm_compute. reflexivity.
Defined.

Lemma resample_length_direction_witness :
  let x := map F32.of_Z [1; 2; 3; 4; 5; 6] in
  let out := map F32.of_Z [1; 4] in
  (SFleb (JS.of_Z 16000) (JS.of_Z 48000) = true -> (length out <= length x)%nat) /\
  (SFleb (JS.of_Z 48000) (JS.of_Z 16000) = true -> (length x <= length out)%nat).
Proof.
  intros x out.
  apply (resample_length_direction x out (JS.of_Z 48000) (JS.of_Z 16000)).
  - reflexivity.
  - reflexivity.
  - reflexivity.
  - reflexivity.
  - reflexivity.
  - vm_compute. reflexivity.
Defined.

Lemma resample_zero_rate_witness :
  let x := map F32.of_Z [1; 2; 3] in
  (x <> [] -> resampleAudio x (S754_zero false) (JS.of_Z 16000) = JS.Throw JS.RangeError) /\
  resampleAudio x (JS.of_Z 16000) (S754_zero false) = JS.Normal [].
Proof.
  intros x. apply (resample_zero_rate x (JS.of_Z 16000) false). reflexivity.
Defined.

Lemma failed_load_rejects_every_caller_witness :
  let w := initial_world in
  let e := JS.External "NetworkError" in
  let callers := fst (initialize_all ["tiny"; "base"; "small"] w) in
  let w1 := snd (initialize_all ["tiny"; "base"; "small"] w) in
  let settled := pipeline_settles (length (loads w)) (JS.Throw e) w1 in
  let w2 := drain (S (length callers)) settled in
  length (loads w2) = 1%nat /\ jobs w2 = [] /\
  transcriber (this w2) = None /\ isLoading (this w2) = true /\
  (forall p, p ∈ callers -> promises w2 !! p = Some (Rejected e)).
Proof.
  exact (failed_load_rejects_every_caller initial_world "tiny" ["base"; "small"]
           (JS.External "NetworkError") eq_refl eq_refl eq_refl eq_refl).
Defined.

Lemma dispose_does_not_cancel_load_witness :
  let pipe := {| handle := 0; sampling_rate := JS.of_Z 16000 |} in
  let w1 := snd (initialize default_model initial_world) in
  let w2 := snd (dispose w1) in
  let w3 := drain 2 (pipeline_settles 0 (JS.Normal pipe) w2) in
  this w2 = this w1 /\ loads w2 = loads w1 /\ log w2 = log w1 /\
  promises w2 !! fst (dispose w1) = Some Fulfilled /\
  transcriber (this w3) = Some pipe /\ isLoading (this w3) = false.
Proof.
  exact (dispose_does_not_cancel_load initial_world default_model
           {| handle := 0; sampling_rate := JS.of_Z 16000 |}
           eq_refl eq_refl eq_refl eq_refl).
Defined.

Lemma dispose_then_initialize_reloads_witness :
  let pipe := {| handle := 0; sampling_rate := JS.of_Z 16000 |} in
  let pipe' := {| handle := 1; sampling_rate := JS.of_Z 16000 |} in
  let w := run [Call_initialize default_model; Pipeline_settles 0 (JS.Normal pipe);
                Run_job; Run_job] initial_world in
  let w1 := snd (dispose w) in
  let w2 := snd (initialize "whisper-base" w1) in
  let w3 := drain 2 (pipeline_settles (length (loads w)) (JS.Normal pipe') w2) in
  isReady (this w1) = false /\
  log w1 = log w ++ ["Whisper model disposed"] /\
  (exists lp, loads w2 = loads w ++
     [{| load_model := "whisper-base"; load_waiter := lp; load_settled := false |}]) /\
  transcriber (this w3) = Some pipe' /\ jobs w3 = [].
Proof.
  intros pipe pipe' w.
  apply (dispose_then_initialize_reloads w pipe pipe' "whisper-base"); reflexivity.
Defined.

Lemma failed_load_is_permanent_witness :
  let e := JS.External "NetworkError" in
  let w1 := snd (initialize_all ["tiny"; "base"] initial_world) in
  let w2 := drain 3 (pipeline_settles 0 (JS.Throw e) w1) in
  let w3 := run [Call_dispose; Call_initialize "small"; Run_job;
                 Pipeline_settles 0 (JS.Throw e)] w2 in
  let retry := initialize "tiny" w3 in
  isReady (this w3) = false /\
  loads w3 = loads w2 /\
  loads (snd retry) = loads w2 /\
  promises (drain (S (length (jobs w3))) (snd retry)) !! fst retry = Some (Rejected e).
Proof.
  exact (failed_load_is_permanent initial_world "tiny" ["base"]
           (JS.External "NetworkError")
           [Call_dispose; Call_initialize "small"; Run_job;
            Pipeline_settles 0 (JS.Throw (JS.External "NetworkError"))] "tiny"
           eq_refl eq_refl eq_refl eq_refl eq_refl).
Defined.

Lemma loaded_model_stays_witness :
  let pipe := {| handle := 0; sampling_rate := JS.of_Z 16000 |} in
  let pipe' := {| handle := 1; sampling_rate := JS.of_Z 16000 |} in
  let w := run [Call_initialize default_model; Pipeline_settles 0 (JS.Normal pipe);
                Run_job; Run_job] initial_world in
  let w' := run [Call_initialize "whisper-base"; Pipeline_settles 0 (JS.Normal pipe');
                 Run_job; Call_initialize "whisper-small"] w in
  transcriber (this w') = Some pipe /\ loads w' = loads w /\ in_flight w' = [].
Proof.
  intros pipe pipe'.
  apply (loaded_model_stays
           [Call_initialize default_model; Pipeline_settles 0 (JS.Normal pipe);
            Run_job; Run_job]
           [Call_initialize "whisper-base"; Pipeline_settles 0 (JS.Normal pipe');
            Run_job; Call_initialize "whisper-small"] pipe); reflexivity.
Defined.


Lemma transcribe_failure_skips_timeEnd_witness :
  let fetch := fun url : string => JS.Normal url in
  let Response_arrayBuffer := fun _ : string => JS.Normal 7%nat in
  let Blob_arrayBuffer := fun b : nat => JS.Normal b in
  let decodeAudioData := fun _ : nat =>
    @JS.Throw AudioBuffer (JS.External "EncodingError") in
  let run_pipeline := fun (_ : Pipeline) (_ : list spec_float) => JS.Normal "hello" in
  let pipe := {| handle := 0; sampling_rate := JS.of_Z 16000 |} in
  let t := [Ev_console "time: Transcription time"; Ev_arrayBuffer; Ev_decodeAudioData] in
  (Ev_console "timeEnd: Transcription time" ∉ t) /\
  (forall t_load e',
     read_audio_from_blob Blob_arrayBuffer decodeAudioData 7%nat (sampling_rate pipe) =
       (t_load, JS.Throw e') ->
     e' = JS.External "EncodingError" /\
     t = Ev_console "time: Transcription time" :: t_load /\
     forall audio, Ev_inference audio ∉ t).
Proof.
  intros fetch Response_arrayBuffer Blob_arrayBuffer decodeAudioData run_pipeline pipe t.
  apply (proj2 (transcribe_failure_skips_timeEnd fetch Response_arrayBuffer Blob_arrayBuffer
                  decodeAudioData run_pipeline
                  {| transcriber := Some pipe; isLoading := false; loadingPromise := Some 1%nat |}
                  pipe "note.webm" 7%nat t (JS.External "EncodingError") eq_refl)).
  reflexivity.
Defined.
